(** * chrome-deprecation-watcher: the match engine and the catalog acquirer

    A shallow embedding of [src/extension.ts].  JavaScript strings are
    sequences of UTF-16 code units; the runtime services the extension
    calls ([RegExp], [JSON], [fs], [axios], the language-model API) are
    modelled after ECMA-262 and the host documentation, on the fragment the
    extension can reach. *)

From Stdlib Require Import NArith Lia Bool String Ascii Sorted.
From stdpp Require Import base option list gmap strings.

Set Default Proof Using "Type".

(** ** Strings and results *)

(** A JavaScript string is the list of its UTF-16 code units, [list N]. *)

Definition js (s : string) : list N :=
  map N_of_ascii (list_ascii_of_string s).
Arguments js s%_string.

(** The double quote, which no literal of this file spells out. *)
Definition dq : list N := [34%N].

Definition nl : list N := [10%N].

(** [parts.join(sep)] *)
Fixpoint join (sep : list N) (parts : list (list N)) : list N :=
  match parts with
  | [] => []
  | [p] => p
  | p :: ps => p ++ sep ++ join sep ps
  end.

Inductive exn : Type :=
| SyntaxError
| TypeError
| HostError (msg : list N).

(** Outcome of a call.  [Throw] is a JavaScript exception.  [Beyond] marks an
    input outside the fragment of the runtime that is modelled here (nothing
    is said about it); [OutOfFuel] marks a loop cut off by its fuel. *)
Inductive result (A : Type) : Type :=
| Ok (a : A)
| Throw (e : exn)
| Beyond
| OutOfFuel.
Arguments Ok {A} a.
Arguments Throw {A} e.
Arguments Beyond {A}.
Arguments OutOfFuel {A}.

#[global] Instance result_ret : MRet result := fun _ a => Ok a.

#[global] Instance result_bind : MBind result := fun _ _ f m =>
  match m with
  | Ok a => f a
  | Throw e => Throw e
  | Beyond => Beyond
  | OutOfFuel => OutOfFuel
  end.

#[global] Instance result_fmap : FMap result := fun _ _ f m =>
  match m with
  | Ok a => Ok (f a)
  | Throw e => Throw e
  | Beyond => Beyond
  | OutOfFuel => OutOfFuel
  end.

(** ** Regular expressions: the fragment of ECMA-262 patterns *)

Module Re.

Local Open Scope N_scope.

(** [\w]: ASCII letters, digits and the underscore (no [u], no [i] flag). *)
Definition isWordChar (c : N) : bool :=
  ((48 <=? c) && (c <=? 57)) || ((65 <=? c) && (c <=? 90))
  || ((97 <=? c) && (c <=? 122)) || (c =? 95).

Definition isDigit (c : N) : bool := (48 <=? c) && (c <=? 57).

(** WhiteSpace and LineTerminator code units, the members of [\s]. *)
Definition isSpace (c : N) : bool :=
  ((9 <=? c) && (c <=? 13)) || (c =? 32) || (c =? 160) || (c =? 5760)
  || ((8192 <=? c) && (c <=? 8202)) || (c =? 8232) || (c =? 8233)
  || (c =? 8239) || (c =? 8287) || (c =? 12288) || (c =? 65279).

Definition isLineTerminator (c : N) : bool :=
  (c =? 10) || (c =? 13) || (c =? 8232) || (c =? 8233).

Inductive cls : Type := ClsDigit | ClsWord | ClsSpace.

Definition in_cls (k : cls) (c : N) : bool :=
  match k with
  | ClsDigit => isDigit c
  | ClsWord => isWordChar c
  | ClsSpace => isSpace c
  end.

Inductive regex : Type :=
| REmpty
| RChar (c : N)
| RAny
| RClassEsc (k : cls) (neg : bool)
| RBol
| REol
| RWordB (neg : bool)
| RSeq (r1 r2 : regex)
| RAlt (r1 r2 : regex)
| RStar (r : regex)
| RPlus (r : regex)
| ROpt (r : regex)
| RGroup (r : regex).

(** SyntaxCharacter of the pattern grammar: [^ $ \ . * + ? ( ) [ ] { } |]. *)
Definition isSyntaxChar (c : N) : bool :=
  (c =? 94) || (c =? 36) || (c =? 92) || (c =? 46) || (c =? 42) || (c =? 43)
  || (c =? 63) || (c =? 40) || (c =? 41) || (c =? 91) || (c =? 93)
  || (c =? 123) || (c =? 125) || (c =? 124).

(** *** Parsing a pattern

    One pass over the pattern with a stack of open groups.  A frame holds
    the finished alternatives of its group and the terms of the alternative
    being read, both most recent first; a term carries whether a quantifier
    may follow it. *)

Record frame : Type := Frame {
  alts : list regex;
  cur : list (regex * bool)
}.

Definition seq_of (ts : list regex) : regex := foldr RSeq REmpty ts.

Fixpoint alt_of (l : list regex) : regex :=
  match l with
  | [] => REmpty
  | [a] => a
  | a :: l' => RAlt a (alt_of l')
  end.

Definition close_alt (f : frame) : regex := seq_of (rev (map fst (cur f))).

Definition close_frame (f : frame) : regex :=
  alt_of (rev (close_alt f :: alts f)).

Definition push_term (t : regex) (q : bool) (f : frame) : frame :=
  Frame (alts f) ((t, q) :: cur f).

(** What follows a backslash. *)
Definition atom_escape (e : N) : result (regex * bool) :=
  if e =? 98 then Ok (RWordB false, false)            (* \b *)
  else if e =? 66 then Ok (RWordB true, false)        (* \B *)
  else if e =? 100 then Ok (RClassEsc ClsDigit false, true)
  else if e =? 68 then Ok (RClassEsc ClsDigit true, true)
  else if e =? 119 then Ok (RClassEsc ClsWord false, true)
  else if e =? 87 then Ok (RClassEsc ClsWord true, true)
  else if e =? 115 then Ok (RClassEsc ClsSpace false, true)
  else if e =? 83 then Ok (RClassEsc ClsSpace true, true)
  else if isSyntaxChar e || (e =? 47) then Ok (RChar e, true) (* IdentityEscape *)
  else Beyond.  (* control, hex and unicode escapes, back references *)

Definition quantify (c : N) (r : regex) : regex :=
  if c =? 42 then RStar r else if c =? 43 then RPlus r else ROpt r.

Fixpoint parse (s : list N) (stk : list frame) {struct s} : result regex :=
  match s with
  | [] =>
      match stk with
      | [f] => Ok (close_frame f)
      | _ => Throw SyntaxError                       (* unterminated group *)
      end
  | c :: rest =>
      match stk with
      | [] => Throw SyntaxError
      | f :: up =>
          if c =? 92 then                            (* backslash *)
            match rest with
            | [] => Throw SyntaxError                (* \ at end of pattern *)
            | e :: rest' =>
                match atom_escape e with
                | Ok (t, q) => parse rest' (push_term t q f :: up)
                | Throw x => Throw x
                | Beyond => Beyond
                | OutOfFuel => OutOfFuel
                end
            end
          else if c =? 46 then parse rest (push_term RAny true f :: up)
          else if c =? 94 then parse rest (push_term RBol false f :: up)
          else if c =? 36 then parse rest (push_term REol false f :: up)
          else if (c =? 42) || (c =? 43) || (c =? 63) then
            match cur f with
            | (t, true) :: ts =>
                match rest with
                | 63 :: _ => Beyond                  (* lazy quantifier *)
                | _ => parse rest (Frame (alts f) ((quantify c t, false) :: ts) :: up)
                end
            | _ => Throw SyntaxError                 (* nothing to repeat *)
            end
          else if c =? 124 then
            parse rest (Frame (close_alt f :: alts f) [] :: up)
          else if c =? 40 then
            match rest with
            | 63 :: 58 :: rest' => parse rest' (Frame [] [] :: f :: up)
            | 63 :: _ => Beyond                      (* look-around, named group *)
            | _ => parse rest (Frame [] [] :: f :: up)
            end
          else if c =? 41 then
            match up with
            | [] => Throw SyntaxError                (* unmatched ) *)
            | g :: up' => parse rest (push_term (RGroup (close_frame f)) true g :: up')
            end
          else if (c =? 91) || (c =? 123) then Beyond (* class, braced quantifier *)
          else parse rest (push_term (RChar c) true f :: up)
      end
  end.

(** [new RegExp(pattern, 'g')]: the compiled pattern and its [lastIndex]. *)
Record RegExp : Type := MkRegExp {
  re_ast : regex;
  lastIndex : nat
}.

Definition RegExp_new (pattern : list N) : result RegExp :=
  r ← parse pattern [Frame [] []]; Ok (MkRegExp r 0).

(** *** Matching

    The matchers of ECMA-262 22.2.2 in continuation-passing style: a matcher
    takes the position it starts at and the continuation for the rest of the
    pattern, and answers with the end of the whole match.  Captures are left
    out: the fragment has no back reference and the extension reads only the
    index of a match. *)

Section Matcher.

Variable text : list N.

Definition wordAt (i : nat) : bool :=
  match text !! i with
  | Some c => isWordChar c
  | None => false
  end.

Definition wordBefore (i : nat) : bool :=
  match i with
  | O => false
  | S j => wordAt j
  end.

(** [\b] holds where exactly one side is a word character. *)
Definition isBoundary (i : nat) : bool := xorb (wordBefore i) (wordAt i).

Definition char_matcher (p : N -> bool) (i : nat) (k : nat -> option nat) : option nat :=
  match text !! i with
  | Some c => if p c then k (S i) else None
  | None => None
  end.

(** RepeatMatcher with min 0, greedy: an iteration that consumes nothing is
    refused, so every iteration moves forward and [S (length text)] rounds
    of fuel are never used up. *)
Fixpoint repeat_matcher (m : nat -> (nat -> option nat) -> option nat)
    (k : nat -> option nat) (fuel i : nat) : option nat :=
  match fuel with
  | O => k i
  | S fuel' =>
      match m i (fun j => if Nat.eqb j i then None else repeat_matcher m k fuel' j) with
      | Some e => Some e
      | None => k i
      end
  end.

Fixpoint rmatch (r : regex) (i : nat) (k : nat -> option nat) {struct r} : option nat :=
  match r with
  | REmpty => k i
  | RChar c => char_matcher (N.eqb c) i k
  | RAny => char_matcher (fun d => negb (isLineTerminator d)) i k
  | RClassEsc cl neg => char_matcher (fun d => xorb (in_cls cl d) neg) i k
  | RBol => if Nat.eqb i 0 then k i else None
  | REol => if Nat.eqb i (length text) then k i else None
  | RWordB neg => if xorb (isBoundary i) neg then k i else None
  | RSeq r1 r2 => rmatch r1 i (fun j => rmatch r2 j k)
  | RAlt r1 r2 =>
      match rmatch r1 i k with
      | Some e => Some e
      | None => rmatch r2 i k
      end
  | RStar r1 => repeat_matcher (rmatch r1) k (S (length text)) i
  | RPlus r1 => rmatch r1 i (repeat_matcher (rmatch r1) k (S (length text)))
  | ROpt r1 =>
      match rmatch r1 i (fun j => if Nat.eqb j i then None else k j) with
      | Some e => Some e
      | None => k i
      end
  | RGroup r1 => rmatch r1 i k
  end.

(** The search of RegExpBuiltinExec: try [i], then [i + 1], up to the end of
    the text. *)
Fixpoint search (r : regex) (cnt i : nat) : option (nat * nat) :=
  match cnt with
  | O => None
  | S cnt' =>
      match rmatch r i Some with
      | Some e => Some (i, e)
      | None => search r cnt' (S i)
      end
  end.

(** [R.exec(text)] for a global [R]: the index of the match and the object
    with its [lastIndex] moved to the end of the match; [null] (here [None])
    resets [lastIndex]. *)
Definition exec (R : RegExp) : option nat * RegExp :=
  if Nat.ltb (length text) (lastIndex R) then (None, MkRegExp (re_ast R) 0)
  else
    match search (re_ast R) (S (length text - lastIndex R)) (lastIndex R) with
    | Some (i, e) => (Some i, MkRegExp (re_ast R) e)
    | None => (None, MkRegExp (re_ast R) 0)
    end.

End Matcher.

End Re.

(** ** The match engine: [checkForDeprecations] *)

Record DeprecatedAPI : Type := MkAPI {
  apiName : list N;
  changeType : list N;
  description : list N
}.

(** [vscode.Range] of a match.  The source converts both offsets with
    [doc.positionAt]; the offsets themselves are kept here. *)
Record Range : Type := MkRange {
  startOffset : nat;
  endOffset : nat
}.

Inductive Severity : Type := Error | Warning | Information | Hint.

Record Diagnostic : Type := MkDiagnostic {
  severity : Severity;
  range : Range;
  message : list N;
  source : list N
}.

Record DecorationOptions : Type := MkDecoration {
  deco_range : Range;
  contentText : list N
}.

Record TextDocument : Type := MkDoc {
  uri : list N;
  getText : list N
}.

Record TextEditor : Type := MkEditor {
  document_uri : list N;
  decorations : list DecorationOptions
}.

(** The part of the host the function writes to: the diagnostic collection
    and the visible editors with the decorations set for
    [deprecationDecorationType]. *)
Record Host : Type := MkHost {
  collection : gmap (list N) (list Diagnostic);
  visibleTextEditors : list TextEditor
}.

(** [/[.*+?^${}()|[\]\\]/]: the characters the source escapes. *)
Definition isMeta (c : N) : bool :=
  (c =? 46)%N || (c =? 42)%N || (c =? 43)%N || (c =? 63)%N || (c =? 94)%N
  || (c =? 36)%N || (c =? 123)%N || (c =? 125)%N || (c =? 40)%N || (c =? 41)%N
  || (c =? 124)%N || (c =? 91)%N || (c =? 93)%N || (c =? 92)%N.

(** [apiName.replace(/[...]/g, '\\$&')]: a backslash before each of them. *)
Definition escape (name : list N) : list N :=
  flat_map (fun c => if isMeta c then [92%N; c] else [c]) name.

(** [`\\b${escaped}\\b`] *)
Definition pattern_of (name : list N) : list N :=
  js "\b" ++ escape name ++ js "\b".

(** The two arrays the function fills. *)
Record Found : Type := MkFound {
  diagnostics : list Diagnostic;
  decorationOptions : list DecorationOptions
}.

Definition diagMessage (dep : DeprecatedAPI) : list N :=
  js "The API " ++ dq ++ apiName dep ++ dq ++ js " is marked as "
  ++ changeType dep ++ js ". " ++ description dep.

Definition range_of (dep : DeprecatedAPI) (startIndex : nat) : Range :=
  let endIndex := startIndex + length (apiName dep) in
  MkRange startIndex endIndex.

Definition diag_of (dep : DeprecatedAPI) (startIndex : nat) : Diagnostic :=
  MkDiagnostic Warning (range_of dep startIndex) (diagMessage dep)
    (js "Chrome Deprecation Watcher").

Definition deco_of (dep : DeprecatedAPI) (startIndex : nat) : DecorationOptions :=
  MkDecoration (range_of dep startIndex)
    (js "[" ++ changeType dep ++ js "] " ++ apiName dep).

(** The body of the loop: one [push] on each array. *)
Definition report (dep : DeprecatedAPI) (startIndex : nat) (acc : Found) : Found :=
  MkFound (diagnostics acc ++ [diag_of dep startIndex])
          (decorationOptions acc ++ [deco_of dep startIndex]).

(** [while ((match = regex.exec(text)) !== null) { ... }] *)
Fixpoint while_exec (fuel : nat) (text : list N) (dep : DeprecatedAPI)
    (regex : Re.RegExp) (acc : Found) : result Found :=
  match fuel with
  | O => OutOfFuel
  | S fuel' =>
      match Re.exec text regex with
      | (None, _) => Ok acc
      | (Some startIndex, regex') =>
          while_exec fuel' text dep regex' (report dep startIndex acc)
      end
  end.

(** [for (const dep of deprecations) { ... }] *)
Fixpoint for_deps (fuel : nat) (text : list N) (deprecations : list DeprecatedAPI)
    (acc : Found) : result Found :=
  match deprecations with
  | [] => Ok acc
  | dep :: deps =>
      regex ← Re.RegExp_new (pattern_of (apiName dep));
      acc' ← while_exec fuel text dep regex acc;
      for_deps fuel text deps acc'
  end.

(** [editor.setDecorations] on the first visible editor that shows the
    document, [visibleTextEditors.find(...)]; no editor, no change. *)
Fixpoint setDecorations (u : list N) (ds : list DecorationOptions)
    (editors : list TextEditor) : list TextEditor :=
  match editors with
  | [] => []
  | e :: es =>
      if decide (document_uri e = u) then MkEditor (document_uri e) ds :: es
      else e :: setDecorations u ds es
  end.

(** The scan of one document, the fuel bounding each [while] loop. *)
Definition scan (fuel : nat) (text : list N) (deprecations : list DeprecatedAPI)
    : result Found :=
  for_deps fuel text deprecations (MkFound [] []).

Definition checkForDeprecations (fuel : nat) (doc : TextDocument)
    (deprecations : list DeprecatedAPI) (host : Host) : result Host :=
  found ← scan fuel (getText doc) deprecations;
  Ok (MkHost (<[uri doc := diagnostics found]> (collection host))
             (setDecorations (uri doc) (decorationOptions found)
                (visibleTextEditors host))).


(** ** Notions the statements use *)

(** The pattern the engine is meant to build for a name: the name's
    characters between two word-boundary assertions. *)
Definition literal (name : list N) : Re.regex :=
  Re.seq_of (Re.RWordB false :: map Re.RChar name ++ [Re.RWordB false]).

(** [name] is the substring of [text] at offset [i]. *)
Definition occurs_at (name text : list N) (i : nat) : Prop :=
  i + length name <= length text /\ take (length name) (drop i text) = name.

#[global] Instance occurs_at_dec name text i : Decision (occurs_at name text i).
Proof. unfold occurs_at. apply _. Defined.

(** An occurrence with a word boundary at both ends. *)
Definition matches_at (name text : list N) (i : nat) : bool :=
  Re.isBoundary text i && bool_decide (occurs_at name text i)
  && Re.isBoundary text (i + length name).

(** The start indices one [while] loop sees, without the arrays. *)
Fixpoint offsets (fuel : nat) (text : list N) (regex : Re.RegExp) : result (list nat) :=
  match fuel with
  | O => OutOfFuel
  | S fuel' =>
      match Re.exec text regex with
      | (None, _) => Ok []
      | (Some startIndex, regex') =>
          os ← offsets fuel' text regex'; Ok (startIndex :: os)
      end
  end.

Definition emit (dep : DeprecatedAPI) (os : list nat) (acc : Found) : Found :=
  MkFound (diagnostics acc ++ map (diag_of dep) os)
          (decorationOptions acc ++ map (deco_of dep) os).

(** A name that begins and ends with a word character. *)
Definition wordEdged (name : list N) : Prop :=
  (exists c, head name = Some c /\ Re.isWordChar c = true) /\
  (exists c, last name = Some c /\ Re.isWordChar c = true).

(** The start indices found for one record, and for each record of a
    catalog in turn. *)
Definition matches_for (fuel : nat) (text : list N) (dep : DeprecatedAPI)
    : result (list nat) :=
  regex ← Re.RegExp_new (pattern_of (apiName dep)); offsets fuel text regex.

Fixpoint all_offsets (fuel : nat) (text : list N) (deps : list DeprecatedAPI)
    : result (list (list nat)) :=
  match deps with
  | [] => Ok []
  | dep :: deps' =>
      os ← matches_for fuel text dep;
      oss ← all_offsets fuel text deps';
      Ok (os :: oss)
  end.

(** The diagnostics of a catalog, record after record. *)
Definition diags_of (deps : list DeprecatedAPI) (oss : list (list nat)) : list Diagnostic :=
  concat (zip_with (fun dep os => map (diag_of dep) os) deps oss).

Definition decos_of (deps : list DeprecatedAPI) (oss : list (list nat))
    : list DecorationOptions :=
  concat (zip_with (fun dep os => map (deco_of dep) os) deps oss).

(** What one entry of the two arrays says: it was pushed for a record of the
    catalog at a word-bounded occurrence of that record's name. *)
Definition pushed_for (text : list N) (deps : list DeprecatedAPI)
    (d : Diagnostic) (o : DecorationOptions) : Prop :=
  exists dep s, dep ∈ deps /\ d = diag_of dep s /\ o = deco_of dep s /\
    matches_at (apiName dep) text s = true.

(** Fuel that lets every terminating [while] loop over [text] finish. *)
Definition fuel_for (text : list N) : nat := S (length text).

(** The range of a reported match lies in the text and spans the record's
    name there. *)
Definition well_placed (text : list N) (deps : list DeprecatedAPI)
    (d : Diagnostic) (o : DecorationOptions) : Prop :=
  exists dep, dep ∈ deps /\
    d = diag_of dep (startOffset (range d)) /\
    o = deco_of dep (startOffset (range d)) /\
    0 <= startOffset (range d) /\
    endOffset (range d) = startOffset (range d) + length (apiName dep) /\
    endOffset (range d) <= length text /\
    take (length (apiName dep)) (drop (startOffset (range d)) text) = apiName dep.

(** ** JSON: values, [JSON.stringify(value, null, 2)] and [JSON.parse] *)

Module Json.

Local Open Scope N_scope.

(** The values [JSON.parse] builds.  Of a number only its literal is kept:
    its value, a binary64, is outside the modelled fragment, and so is every
    value that holds a number ([parse] below answers [Beyond] for them once
    the text has been read to its end). *)
#[warnings="-register-all"]
Inductive jsvalue : Type :=
| JNull
| JBool (b : bool)
| JNum (literal : list N)
| JStr (s : list N)
| JArr (vs : list jsvalue)
| JObj (ps : list (list N * jsvalue)).

(** *** QuoteJSONString *)

Definition hexDigit (d : N) : N := if d <? 10 then 48 + d else 87 + d.

(** [\uXXXX] with lower-case digits. *)
Definition unicodeEscape (c : N) : list N :=
  [92; 117; hexDigit (c / 4096 mod 16); hexDigit (c / 256 mod 16);
   hexDigit (c / 16 mod 16); hexDigit (c mod 16)].

Definition isLeadingSurrogate (c : N) : bool := (55296 <=? c) && (c <=? 56319).
Definition isTrailingSurrogate (c : N) : bool := (56320 <=? c) && (c <=? 57343).

(** A code unit that is not a surrogate. *)
Definition quoteUnit (c : N) : list N :=
  if c =? 8 then [92; 98]
  else if c =? 9 then [92; 116]
  else if c =? 10 then [92; 110]
  else if c =? 12 then [92; 102]
  else if c =? 13 then [92; 114]
  else if c =? 34 then [92; 34]
  else if c =? 92 then [92; 92]
  else if c <? 32 then unicodeEscape c
  else [c].

(** The string is read by code points: a surrogate pair is copied, a lone
    surrogate is escaped. *)
Fixpoint quoteBody (s : list N) : list N :=
  match s with
  | [] => []
  | c :: rest =>
      if isLeadingSurrogate c then
        match rest with
        | d :: rest' =>
            if isTrailingSurrogate d then c :: d :: quoteBody rest'
            else unicodeEscape c ++ quoteBody rest
        | [] => unicodeEscape c
        end
      else if isTrailingSurrogate c then unicodeEscape c ++ quoteBody rest
      else quoteUnit c ++ quoteBody rest
  end.

Definition quote (s : list N) : list N := dq ++ quoteBody s ++ dq.

(** *** SerializeJSONProperty with a gap of two spaces *)

Definition block (open close indent : list N) (parts : list (list N)) : list N :=
  match parts with
  | [] => open ++ close
  | _ =>
      let stepback := indent in
      let indent' := indent ++ js "  " in
      open ++ nl ++ indent' ++ join (js "," ++ nl ++ indent') parts
      ++ nl ++ stepback ++ close
  end.

Fixpoint serialize (indent : list N) (v : jsvalue) : list N :=
  match v with
  | JNull => js "null"
  | JBool true => js "true"
  | JBool false => js "false"
  | JNum literal => literal
  | JStr s => quote s
  | JArr vs =>
      block (js "[") (js "]") indent
        (map (serialize (indent ++ js "  ")) vs)
  | JObj ps =>
      block (js "{") (js "}") indent
        (map (fun p => quote (fst p) ++ js ": " ++ serialize (indent ++ js "  ") (snd p)) ps)
  end.

Definition stringify (v : jsvalue) : list N := serialize [] v.

(** *** JSON.parse *)

Definition isWs (c : N) : bool :=
  (c =? 9) || (c =? 10) || (c =? 13) || (c =? 32).

Fixpoint skipWs (s : list N) : list N :=
  match s with
  | c :: rest => if isWs c then skipWs rest else s
  | [] => []
  end.

Definition hexValue (c : N) : option N :=
  if (48 <=? c) && (c <=? 57) then Some (c - 48)
  else if (97 <=? c) && (c <=? 102) then Some (c - 87)
  else if (65 <=? c) && (c <=? 70) then Some (c - 55)
  else None.

Definition hex4 (a b c d : N) : option N :=
  match hexValue a, hexValue b, hexValue c, hexValue d with
  | Some x, Some y, Some z, Some w => Some (((x * 16 + y) * 16 + z) * 16 + w)
  | _, _, _, _ => None
  end.

Definition simpleEscape (e : N) : option N :=
  if e =? 34 then Some 34
  else if e =? 92 then Some 92
  else if e =? 47 then Some 47
  else if e =? 98 then Some 8
  else if e =? 102 then Some 12
  else if e =? 110 then Some 10
  else if e =? 114 then Some 13
  else if e =? 116 then Some 9
  else None.

(** The characters of a string up to its closing quote, and what follows. *)
Fixpoint parseString (s : list N) : result (list N * list N) :=
  match s with
  | [] => Throw SyntaxError
  | c :: rest =>
      if c =? 34 then Ok ([], rest)
      else if c =? 92 then
        match rest with
        | [] => Throw SyntaxError
        | e :: rest' =>
            if e =? 117 then
              match rest' with
              | h1 :: h2 :: h3 :: h4 :: rest'' =>
                  match hex4 h1 h2 h3 h4 with
                  | Some u => r ← parseString rest''; Ok (u :: fst r, snd r)
                  | None => Throw SyntaxError
                  end
              | _ => Throw SyntaxError
              end
            else
              match simpleEscape e with
              | Some u => r ← parseString rest'; Ok (u :: fst r, snd r)
              | None => Throw SyntaxError
              end
        end
      else if c <? 32 then Throw SyntaxError
      else r ← parseString rest; Ok (c :: fst r, snd r)
  end.

(** *** Number literals

    An optional minus sign; the integer part, [0] alone or a digit from 1
    to 9 followed by digits; an optional point with one digit or more; an
    optional exponent. *)

Definition isDecimal (c : N) : bool := (48 <=? c) && (c <=? 57).

(** The digits [s] begins with, and what follows them. *)
Fixpoint digitRun (s : list N) : list N * list N :=
  match s with
  | c :: rest =>
      if isDecimal c then (c :: fst (digitRun rest), snd (digitRun rest))
      else ([], s)
  | [] => ([], [])
  end.

(** The integer part: a lone [0], or a digit from 1 to 9 and more digits. *)
Definition intPart (s : list N) : option (list N * list N) :=
  match s with
  | c :: rest =>
      if c =? 48 then Some ([c], rest)
      else if isDecimal c then Some (c :: fst (digitRun rest), snd (digitRun rest))
      else None
  | [] => None
  end.

(** The fraction, when a point follows: at least one digit. *)
Definition fracPart (s : list N) : option (list N * list N) :=
  match s with
  | c :: rest =>
      if c =? 46 then
        match fst (digitRun rest) with
        | [] => None
        | ds => Some (c :: ds, snd (digitRun rest))
        end
      else Some ([], s)
  | [] => Some ([], [])
  end.

(** The exponent, when [e] or [E] follows: an optional sign and at least
    one digit. *)
Definition expPart (s : list N) : option (list N * list N) :=
  match s with
  | c :: rest =>
      if (c =? 101) || (c =? 69) then
        let signed :=
          match rest with
          | d :: rest' => if (d =? 43) || (d =? 45) then ([d], rest') else ([], rest)
          | [] => ([], [])
          end in
        match fst (digitRun (snd signed)) with
        | [] => None
        | ds => Some (c :: fst signed ++ ds, snd (digitRun (snd signed)))
        end
      else Some ([], s)
  | [] => Some ([], [])
  end.

(** A number literal at the head of [s] and what follows it; [None] where
    [JSON.parse] throws. *)
Definition parseNumber (s : list N) : option (list N * list N) :=
  let signed :=
    match s with
    | c :: rest => if c =? 45 then ([c], rest) else ([], s)
    | [] => ([], [])
    end in
  i ← intPart (snd signed);
  f ← fracPart (snd i);
  e ← expPart (snd f);
  Some (fst signed ++ fst i ++ fst f ++ fst e, snd e).

Definition isAllDigits (k : list N) : bool :=
  match k with
  | [] => false
  | _ => forallb (fun c => (48 <=? c) && (c <=? 57)) k
  end.

(** An object keeps its members in the order read when no key repeats and no
    key is an array index; other objects are outside the fragment. *)
Definition plainKeys (ks : list (list N)) : bool :=
  bool_decide (NoDup ks) && forallb (fun k => negb (isAllDigits k)) ks.

Definition expect (word : list N) (v : jsvalue) (s : list N)
    : result (jsvalue * list N) :=
  if bool_decide (take (length word) s = word) then Ok (v, drop (length word) s)
  else Throw SyntaxError.

(** What follows [c] when [s] begins with it. *)
Definition closes (c : N) (s : list N) : option (list N) :=
  match s with
  | d :: rest => if d =? c then Some rest else None
  | [] => None
  end.

Fixpoint parseValue (fuel : nat) (s : list N) : result (jsvalue * list N) :=
  match fuel with
  | O => OutOfFuel
  | S fuel' =>
      match skipWs s with
      | [] => Throw SyntaxError
      | c :: rest =>
          if c =? 34 then r ← parseString rest; Ok (JStr (fst r), snd r)
          else if c =? 91 then
            match closes 93 (skipWs rest) with
            | Some rest' => Ok (JArr [], rest')
            | None => r ← parseElements fuel' rest; Ok (JArr (fst r), snd r)
            end
          else if c =? 123 then
            match closes 125 (skipWs rest) with
            | Some rest' => Ok (JObj [], rest')
            | None => r ← parseMembers fuel' rest; Ok (JObj (fst r), snd r)
            end
          else if c =? 116 then expect (js "true") (JBool true) (c :: rest)
          else if c =? 102 then expect (js "false") (JBool false) (c :: rest)
          else if c =? 110 then expect (js "null") JNull (c :: rest)
          else if (c =? 45) || isDecimal c then
            match parseNumber (c :: rest) with
            | Some r => Ok (JNum (fst r), snd r)
            | None => Throw SyntaxError
            end
          else Throw SyntaxError
      end
  end
with parseElements (fuel : nat) (s : list N) : result (list jsvalue * list N) :=
  match fuel with
  | O => OutOfFuel
  | S fuel' =>
      r ← parseValue fuel' s;
      match skipWs (snd r) with
      | c :: rest =>
          if c =? 44 then r' ← parseElements fuel' rest; Ok (fst r :: fst r', snd r')
          else if c =? 93 then Ok ([fst r], rest)
          else Throw SyntaxError
      | [] => Throw SyntaxError
      end
  end
with parseMembers (fuel : nat) (s : list N)
    : result (list (list N * jsvalue) * list N) :=
  match fuel with
  | O => OutOfFuel
  | S fuel' =>
      match closes 34 (skipWs s) with
      | Some rest =>
          k ← parseString rest;
          match closes 58 (skipWs (snd k)) with
          | Some rest' =>
              r ← parseValue fuel' rest';
              match skipWs (snd r) with
              | c :: rest'' =>
                  if c =? 44 then
                    r' ← parseMembers fuel' rest'';
                    Ok ((fst k, fst r) :: fst r', snd r')
                  else if c =? 125 then Ok ([(fst k, fst r)], rest'')
                  else Throw SyntaxError
              | [] => Throw SyntaxError
              end
          | None => Throw SyntaxError
          end
      | None => Throw SyntaxError
      end
  end.

(** The values of the fragment: no number, and every object keeps its
    members in the order written. *)
Fixpoint plain (v : jsvalue) : bool :=
  match v with
  | JNum _ => false
  | JArr vs => forallb plain vs
  | JObj ps => plainKeys (map fst ps) && forallb (fun p => plain (snd p)) ps
  | _ => true
  end.

(** Rounds of fuel that reading a value back takes at most. *)
Fixpoint need (v : jsvalue) : nat :=
  match v with
  | JArr vs => S (sum_list_with (fun v => S (need v)) vs)
  | JObj ps => S (sum_list_with (fun p => S (need (snd p))) ps)
  | _ => 1
  end.

(** [JSON.parse(text)]: one value, then only white space.  A text that is
    not JSON throws, whatever it holds; a text that is JSON gives its value
    when the value is in the fragment. *)
Definition parse (text : list N) : result jsvalue :=
  r ← parseValue (2 * length text + 2) text;
  match skipWs (snd r) with
  | [] => if plain (fst r) then Ok (fst r) else Beyond
  | _ => Throw SyntaxError
  end.

(** [v] is read back from its text at any indentation, before any rest. *)
Definition reads_back (v : jsvalue) : Prop :=
  forall indent rest fuel,
    forallb isWs indent = true -> (need v <= fuel)%nat ->
    parseValue fuel (serialize indent v ++ rest) = Ok (v, rest).

End Json.

(** ** The catalog acquirer: [getOrCreateReleaseNotes] and what it calls *)

Module Acquirer.
Import Json.

(** Calls on the network and on the chat models, in the order they are
    made. *)
Inductive Call : Type :=
| Fetch (url : list N)
| SelectChatModels
| SendRequest (prompt : list N).

(** *** The file system

    Folders hold entries by name; an entry is a regular file with the string
    that was written to it (its encoding on disk is left out) or a folder.
    The root is a folder.  A path is the list of names from the root. *)

Definition path : Type := list (list N).

#[warnings="-register-all"]
Inductive node : Type :=
| File (data : list N)
| Dir (entries : gmap (list N) node).

(** The entries of the root, the paths at which the host refuses to make a
    folder or to write a file (permissions, a volume that is read-only or
    full, a name it does not take), and the calls made so far. *)
Record World : Type := MkWorld {
  fs : gmap (list N) node;
  denied : gset path;
  calls : list Call
}.

(** What the outside world answers: [axios.get(url)] (the response body or a
    rejection), cheerio's [h3] headings with the text up to the next one
    (both trimmed), and the chat models of family [gpt-4] (each maps a
    prompt to the fragments it streams, or rejects). *)
Record Env : Type := MkEnv {
  axios_get : list N -> result (list N);
  h3_sections : list N -> list (list N * list N);
  selectChatModels : list (list N -> result (list (list N)))
}.

(** Code that reads and changes the world and may throw. *)
Definition M (A : Type) : Type := World -> result A * World.

#[global] Instance M_ret : MRet M := fun _ a w => (Ok a, w).

#[global] Instance M_bind : MBind M := fun _ _ f m w =>
  match m w with
  | (Ok a, w') => f a w'
  | (Throw e, w') => (Throw e, w')
  | (Beyond, w') => (Beyond, w')
  | (OutOfFuel, w') => (OutOfFuel, w')
  end.

Definition call (c : Call) : M unit :=
  fun w => (Ok tt, MkWorld (fs w) (denied w) (calls w ++ [c])).

Definition lift {A : Type} (r : result A) : M A := fun w => (r, w).

(** *** Paths as strings (POSIX)

    [path.join(a, b)] puts a separator between its two arguments.  Node
    also normalises the result; the joined string is kept as it is here,
    since the file system reads both to the same names. *)

Definition path_join (a b : list N) : list N := a ++ js "/" ++ b.

(** The pieces of a string between its separators. *)
Fixpoint chunks (s : list N) : list (list N) :=
  match s with
  | [] => [[]]
  | c :: rest =>
      if (c =? 47)%N then [] :: chunks rest
      else
        match chunks rest with
        | seg :: segs => (c :: seg) :: segs
        | [] => [[c]]
        end
  end.

(** The names a path string goes through: empty pieces and [.] name
    nothing.  A relative path is read from the root, the working folder of
    the process being taken to be the root. *)
Definition segments (s : list N) : path :=
  filter (fun seg => seg <> [] /\ seg <> js ".") (chunks s).

(** A path the model follows: no [..] among its names and no NUL in them. *)
Definition sound (p : path) : bool :=
  forallb (fun seg => negb (bool_decide (seg = js "..")) && negb (bool_decide (0%N ∈ seg))) p.

Definition resolve (s : list N) : result path :=
  if sound (segments s) then Ok (segments s) else Beyond.

(** *** [fs] *)

(** What stands at a path. *)
Inductive kind : Type :=
| Missing
| RegularFile (data : list N)
| Folder.

Fixpoint kind_at (p : path) (es : gmap (list N) node) : kind :=
  match p with
  | [] => Folder
  | s :: p' =>
      match es !! s with
      | Some (Dir sub) => kind_at p' sub
      | Some (File data) =>
          match p' with
          | [] => RegularFile data
          | _ => Missing
          end
      | None => Missing
      end
  end.

(** [fs.existsSync(p)]: true for a regular file and for a folder. *)
Definition exists_at (p : path) (w : World) : bool :=
  match kind_at p (fs w) with
  | Missing => false
  | _ => true
  end.

Definition existsSync (p : list N) : M bool :=
  p ← lift (resolve p); ((fun w => (Ok (exists_at p w), w)) : M bool).

(** The folders of [p] made where they are missing; a regular file on the
    way, or at [p], stops it. *)
Fixpoint make_dirs (p : path) (es : gmap (list N) node) : result (gmap (list N) node) :=
  match p with
  | [] => Ok es
  | s :: p' =>
      match es !! s with
      | Some (Dir sub) => sub' ← make_dirs p' sub; Ok (<[s := Dir sub']> es)
      | Some (File _) =>
          match p' with
          | [] => Throw (HostError (js "EEXIST"))
          | _ => Throw (HostError (js "ENOTDIR"))
          end
      | None => sub' ← make_dirs p' ∅; Ok (<[s := Dir sub']> es)
      end
  end.

(** One of the folders that would have to be made for [p], [p] or one
    above it, is a folder the host refuses to make. *)
Definition refused (p : path) (w : World) : bool :=
  existsb (fun n => bool_decide (take n p ∈ denied w) && negb (exists_at (take n p) w))
          (seq 1 (length p)).

(** [fs.mkdirSync(p, { recursive: true })] *)
Definition mkdir_at (p : path) : M unit :=
  fun w =>
    match make_dirs p (fs w) with
    | Ok es =>
        match kind_at p (fs w) with
        | Folder => (Ok tt, w)
        | _ =>
            if refused p w then (Throw (HostError (js "EACCES")), w)
            else (Ok tt, MkWorld es (denied w) (calls w))
        end
    | Throw e => (Throw e, w)
    | Beyond => (Beyond, w)
    | OutOfFuel => (OutOfFuel, w)
    end.

Definition mkdirSync (p : list N) : M unit :=
  p ← lift (resolve p); mkdir_at p.

Fixpoint read_at (p : path) (es : gmap (list N) node) : result (list N) :=
  match p with
  | [] => Throw (HostError (js "EISDIR"))
  | s :: p' =>
      match es !! s with
      | Some (Dir sub) => read_at p' sub
      | Some (File data) =>
          match p' with
          | [] => Ok data
          | _ => Throw (HostError (js "ENOTDIR"))
          end
      | None => Throw (HostError (js "ENOENT"))
      end
  end.

(** [fs.readFileSync(p, 'utf-8')] *)
Definition readFileSync (p : list N) : M (list N) :=
  p ← lift (resolve p); ((fun w => (read_at p (fs w), w)) : M (list N)).

(** The file at [p] made or replaced, in a folder that is there. *)
Fixpoint put_file (p : path) (data : list N) (es : gmap (list N) node)
    : result (gmap (list N) node) :=
  match p with
  | [] => Throw (HostError (js "EISDIR"))
  | s :: p' =>
      match p' with
      | [] =>
          match es !! s with
          | Some (Dir _) => Throw (HostError (js "EISDIR"))
          | _ => Ok (<[s := File data]> es)
          end
      | _ =>
          match es !! s with
          | Some (Dir sub) => sub' ← put_file p' data sub; Ok (<[s := Dir sub']> es)
          | Some (File _) => Throw (HostError (js "ENOTDIR"))
          | None => Throw (HostError (js "ENOENT"))
          end
      end
  end.

(** [fs.writeFileSync(p, data, 'utf8')] *)
Definition write_at (p : path) (data : list N) : M unit :=
  fun w =>
    match put_file p data (fs w) with
    | Ok es =>
        if bool_decide (p ∈ denied w) then (Throw (HostError (js "EACCES")), w)
        else (Ok tt, MkWorld es (denied w) (calls w))
    | Throw e => (Throw e, w)
    | Beyond => (Beyond, w)
    | OutOfFuel => (OutOfFuel, w)
    end.

Definition writeFileSync (p data : list N) : M unit :=
  p ← lift (resolve p); write_at p data.

(** *** [fetchReleaseNotesHTML] *)

Definition fetchReleaseNotesHTML (env : Env) (url : list N) : M (list N) :=
  _ ← call (Fetch url); lift (axios_get env url).

(** *** [parseHTMLwithCheerio] *)

Definition parseHTMLwithCheerio (env : Env) (html : list N) : list (list N) :=
  map (fun s => js "HEADING: " ++ fst s ++ nl ++ js "CONTENT: " ++ snd s)
      (h3_sections env html).

(** *** [parseReleaseNotesWithCopilot] *)

Definition userQuery (combinedText : list N) : list N :=
  nl
  ++ js "  You are given text extracted from Chrome release notes." ++ nl
  ++ js "  Identify any deprecated or changed APIs and return them in a JSON array of objects," ++ nl
  ++ js "  using the code block ```json ...``` format." ++ nl
  ++ js "  Example:" ++ nl
  ++ js "  ```json" ++ nl
  ++ js "  [" ++ nl
  ++ js "    { " ++ dq ++ js "apiName" ++ dq ++ js ": " ++ dq ++ js "..." ++ dq
  ++ js ", " ++ dq ++ js "changeType" ++ dq ++ js ": " ++ dq ++ js "..." ++ dq
  ++ js ", " ++ dq ++ js "description" ++ dq ++ js ": " ++ dq ++ js "..." ++ dq
  ++ js " }," ++ nl
  ++ js "    ..." ++ nl
  ++ js "  ]" ++ nl
  ++ js "  ```" ++ nl
  ++ js "  Here is the text:" ++ nl
  ++ js "  " ++ combinedText ++ nl
  ++ js "  ".

(** Index of the first occurrence of [pat] in [s]. *)
Fixpoint indexOf (pat s : list N) : option nat :=
  if bool_decide (take (length pat) s = pat) then Some 0
  else
    match s with
    | [] => None
    | _ :: rest => S <$> indexOf pat rest
    end.

(** [/```json([\s\S]*?)```/.exec(responseText)], group 1: what stands
    between the first [```json] and the first [```] after it. *)
Definition jsonRegex_exec (responseText : list N) : option (list N) :=
  i ← indexOf (js "```json") responseText;
  let after := drop (i + 7) responseText in
  j ← indexOf (js "```") after;
  Some (take j after).

(** Reading [parsed.length] for the log line: a [TypeError] on [null]. *)
Definition lengthOf (v : jsvalue) : result unit :=
  match v with
  | JNull => Throw TypeError
  | _ => Ok tt
  end.

(** [try { const parsed = JSON.parse(text); console.log(... parsed.length ...);
    return parsed; } catch (err) { ... }]: [None] when the [catch] block was
    entered and control goes on after it. *)
Definition tryParse (text : list N) : option (result jsvalue) :=
  match (parsed ← Json.parse text; _ ← lengthOf parsed; Ok parsed) with
  | Ok parsed => Some (Ok parsed)
  | Throw _ => None
  | Beyond => Some Beyond
  | OutOfFuel => Some OutOfFuel
  end.

(** Step 6 and the fallback: the array in the fenced block, else [[]]. *)
Definition recordsOf (responseText : list N) : result jsvalue :=
  match jsonRegex_exec responseText with
  | Some (c :: body) =>
      match tryParse (c :: body) with
      | Some r => r
      | None => Ok (JArr [])
      end
  | _ => Ok (JArr [])
  end.

Definition parseReleaseNotesWithCopilot (env : Env) (sections : list (list N))
    : M jsvalue :=
  _ ← call SelectChatModels;
  match selectChatModels env with
  | [] => mret (JArr [])
  | model :: _ =>
      let combinedText := join (nl ++ nl) sections in
      let userQuery := userQuery combinedText in
      _ ← call (SendRequest userQuery);
      tokens ← lift (model userQuery);
      let responseText := concat tokens in
      lift (recordsOf responseText)
  end.

(** *** [getOrCreateReleaseNotes] *)

Definition fileName (versionNumber : list N) : list N :=
  js "chromeReleaseNotes_" ++ versionNumber ++ js ".json".

(** [if (fs.existsSync(filePath)) { ... }]: [None] when control leaves the
    block without returning. *)
Definition readExisting (filePath : list N) : M (option jsvalue) :=
  found ← existsSync filePath;
  if found : bool then
    existingData ← readFileSync filePath;
    match tryParse existingData with
    | Some r => lift (Some <$> r)
    | None => mret None
    end
  else mret None.

(** [if (!fs.existsSync(storagePath)) { fs.mkdirSync(storagePath, ...) }] *)
Definition ensureFolder (storagePath : list N) : M unit :=
  found ← existsSync storagePath;
  if found : bool then mret tt else mkdirSync storagePath.

Definition getOrCreateReleaseNotes (env : Env)
    (versionNumber releaseNotesURL storagePath : list N) : M jsvalue :=
  _ ← ensureFolder storagePath;
  let filename := fileName versionNumber in
  let filePath := path_join storagePath filename in
  existing ← readExisting filePath;
  match existing with
  | Some parsed => mret parsed
  | None =>
      rawHTML ← fetchReleaseNotesHTML env releaseNotesURL;
      let extractedSections := parseHTMLwithCheerio env rawHTML in
      newData ← parseReleaseNotesWithCopilot env extractedSections;
      _ ← writeFileSync filePath (stringify newData);
      mret newData
  end.

(** *** Notions the statements use *)

(** A record and a catalog as the values [JSON.parse] builds for them. *)
Definition record_value (dep : DeprecatedAPI) : jsvalue :=
  JObj [(js "apiName", JStr (apiName dep));
        (js "changeType", JStr (changeType dep));
        (js "description", JStr (description dep))].

Definition catalog_value (deps : list DeprecatedAPI) : jsvalue :=
  JArr (map record_value deps).

(** The response holds a fenced block: [```json] and, after it, [```]. *)
Definition hasFence (responseText : list N) : Prop :=
  exists p q, occurs_at (js "```json") responseText p /\
              occurs_at (js "```") responseText q /\ p + 7 <= q.

(** What [parseReleaseNotesWithCopilot] returns and the calls it makes. *)
Definition inferred (env : Env) (sections : list (list N)) : result jsvalue :=
  match selectChatModels env with
  | [] => Ok (JArr [])
  | model :: _ =>
      tokens ← model (userQuery (join (nl ++ nl) sections));
      recordsOf (concat tokens)
  end.

Definition inferCalls (env : Env) (sections : list (list N)) : list Call :=
  match selectChatModels env with
  | [] => [SelectChatModels]
  | _ :: _ => [SelectChatModels; SendRequest (userQuery (join (nl ++ nl) sections))]
  end.

(** The world once the storage folder has been made where it was missing
    (and as it is where the folder cannot be made). *)
Definition ensured (storagePath : list N) (w : World) : World :=
  match kind_at (segments storagePath) (fs w),
        make_dirs (segments storagePath) (fs w) with
  | Missing, Ok es => MkWorld es (denied w) (calls w)
  | _, _ => w
  end.

(** The path of the file of a version. *)
Definition filePath (storagePath versionNumber : list N) : path :=
  segments (path_join storagePath (fileName versionNumber)).

(** The regular file at a path the model follows, if there is one. *)
Definition fileAt (p : path) (w : World) : option (list N) :=
  if sound p then
    match kind_at p (fs w) with
    | RegularFile data => Some data
    | _ => None
    end
  else None.

Definition isFolder (p : path) (w : World) : bool :=
  match kind_at p (fs w) with
  | Folder => true
  | _ => false
  end.

(** A regular file stands at [p] or on the way to it. *)
Fixpoint blocked (p : path) (es : gmap (list N) node) : bool :=
  match p with
  | [] => false
  | s :: p' =>
      match es !! s with
      | Some (Dir sub) => blocked p' sub
      | Some (File _) => true
      | None => false
      end
  end.

(** The storage folder is there or can be made: its path is one the model
    follows, no regular file stands at it or on the way to it, and where it
    is missing the host lets it be made. *)
Definition ensurable (storagePath : list N) (w : World) : bool :=
  sound (segments storagePath)
  && negb (blocked (segments storagePath) (fs w))
  && (isFolder (segments storagePath) w
      || negb (refused (segments storagePath) w)).

(** A version whose file lies in the storage folder itself: no separator
    in it. *)
Definition plainVersion (versionNumber : list N) : bool :=
  forallb (fun c => negb (c =? 47)%N) versionNumber.

(** The result of an acquisition can be stored: the folder is there or can
    be made, the file lies in it, and the host lets the file be written. *)
Definition storable (storagePath versionNumber : list N) (w : World) : bool :=
  ensurable storagePath w
  && plainVersion versionNumber
  && negb (bool_decide (filePath storagePath versionNumber ∈ denied w)).

(** The store holds nothing usable for the version: the path of its file is
    one the model follows, and there is nothing there, or a regular file
    whose reading ends in the [catch] block. *)
Definition noValidEntry (storagePath versionNumber : list N) (w : World) : Prop :=
  sound (filePath storagePath versionNumber) = true /\
  match kind_at (filePath storagePath versionNumber) (fs w) with
  | Missing => True
  | RegularFile data => tryParse data = None
  | Folder => False
  end.

(** The entry at [p] taken away, when it is a regular file. *)
Fixpoint unlink (p : path) (es : gmap (list N) node) : gmap (list N) node :=
  match p with
  | [] => es
  | s :: p' =>
      match es !! s with
      | Some (Dir sub) => <[s := Dir (unlink p' sub)]> es
      | Some (File _) =>
          match p' with
          | [] => delete s es
          | _ => es
          end
      | None => es
      end
  end.

(** *** Worlds for the examples *)

(** A response with the catalog in a fenced block. *)
Definition fenced (deps : list DeprecatedAPI) : list N :=
  js "Here you go:" ++ nl ++ js "```json" ++ nl
  ++ stringify (catalog_value deps) ++ nl ++ js "```" ++ nl.

(** Nothing but the root folder. *)
Definition emptyWorld : World := MkWorld ∅ ∅ [].

(** The folder [/store] with one file in it. *)
Definition storeWith (name data : list N) : World :=
  MkWorld {[js "store" := Dir {[name := File data]}]} ∅ [].

(** A regular file where the storage folder should be. *)
Definition storeIsFile : World :=
  MkWorld {[js "store" := File (js "x")]} ∅ [].

(** A page that is served, and one chat model that answers [response]. *)
Definition answering (response : list N) : Env :=
  MkEnv (fun _ => Ok (js "<h3>Removed</h3><p>a.b</p>"))
        (fun _ => [(js "Removed", js "a.b")])
        [fun _ => Ok [response]].

(** The same page with no chat model at hand. *)
Definition noModel : Env :=
  MkEnv (fun _ => Ok (js "<h3>Removed</h3><p>a.b</p>"))
        (fun _ => [(js "Removed", js "a.b")])
        [].

(** No page: [axios.get] rejects. *)
Definition offline : Env :=
  MkEnv (fun _ => Throw (HostError (js "ECONNREFUSED")))
        (fun _ => [])
        [fun _ => Ok []].

End Acquirer.

(** ** More notions the statements use *)

(** Start indices at least [n] apart, in ascending order. *)
Definition spaced (n : nat) (os : list nat) : Prop :=
  StronglySorted (fun a b => a + n <= b) os.

(** The branch of [getOrCreateReleaseNotes] after the look into the store:
    fetch, extract, ask the model, write. *)
Definition acquireAndStore (env : Acquirer.Env) (releaseNotesURL filePath : list N)
    : Acquirer.M Json.jsvalue :=
  rawHTML ← Acquirer.fetchReleaseNotesHTML env releaseNotesURL;
  let extractedSections := Acquirer.parseHTMLwithCheerio env rawHTML in
  newData ← Acquirer.parseReleaseNotesWithCopilot env extractedSections;
  _ ← Acquirer.writeFileSync filePath (Json.stringify newData);
  mret newData.

(** The calls of that branch. *)
Definition acquireCalls (env : Acquirer.Env) (url : list N) : list Acquirer.Call :=
  Acquirer.Fetch url ::
  match Acquirer.axios_get env url with
  | Ok html => Acquirer.inferCalls env (Acquirer.parseHTMLwithCheerio env html)
  | _ => []
  end.



(** ** The check without decorations

    The version of [checkForDeprecations] that fills the diagnostics only
    and never looks at the editors. *)

Module Plain.

Fixpoint while_exec (fuel : nat) (text : list N) (dep : DeprecatedAPI)
    (regex : Re.RegExp) (diagnostics : list Diagnostic) : result (list Diagnostic) :=
  match fuel with
  | O => OutOfFuel
  | S fuel' =>
      match Re.exec text regex with
      | (None, _) => Ok diagnostics
      | (Some startIndex, regex') =>
          while_exec fuel' text dep regex' (diagnostics ++ [diag_of dep startIndex])
      end
  end.

Fixpoint for_deps (fuel : nat) (text : list N) (deprecations : list DeprecatedAPI)
    (diagnostics : list Diagnostic) : result (list Diagnostic) :=
  match deprecations with
  | [] => Ok diagnostics
  | dep :: deps =>
      regex ← Re.RegExp_new (pattern_of (apiName dep));
      diagnostics' ← while_exec fuel text dep regex diagnostics;
      for_deps fuel text deps diagnostics'
  end.

Definition checkForDeprecations (fuel : nat) (doc : TextDocument)
    (deprecations : list DeprecatedAPI) (host : Host) : result Host :=
  diagnostics ← for_deps fuel (getText doc) deprecations [];
  Ok (MkHost (<[uri doc := diagnostics]> (collection host))
             (visibleTextEditors host)).

End Plain.

(** ** Activation: [activate] and the listeners it registers *)

Module Activation.
Import Json Acquirer.

Definition releaseNotesURL : list N :=
  js "https://developer.chrome.com/release-notes/132".

(** *** The version in the URL *)

(** The pattern of [/release-notes\/(\d+)/]. *)
Definition versionPattern : list N := js "release-notes\/(\d+)".

(** [url.match(/release-notes\/(\d+)/)], a pattern without the [g] flag: the
    first match from the start of the URL, [None] for [null].  Of the match
    only group 1 is read.  The group is the last term of the pattern and 14
    characters stand before it, so it holds the text from 14 characters
    after the start of the match to its end. *)
Definition versionMatch (url : list N) : result (option (list N)) :=
  regex ← Re.RegExp_new versionPattern;
  Ok (match Re.search url (Re.re_ast regex) (S (length url)) 0 with
      | Some (index, e) => Some (take (e - (index + 14)) (drop (index + 14) url))
      | None => None
      end).

(** [versionMatch ? versionMatch[1] : 'unknown'] *)
Definition versionNumber (url : list N) : result (list N) :=
  versionMatch ← versionMatch url;
  Ok (match versionMatch with
      | Some group1 => group1
      | None => js "unknown"
      end).

(** *** [checkForDeprecations] on the value the acquirer returned

    [getOrCreateReleaseNotes] returns what [JSON.parse] built, and nothing
    checks that it is an array of records before the scan reads it. *)

(** [v.k] for a key that no prototype defines: [None] for [undefined], a
    [TypeError] on [null]. *)
Definition getProp (k : list N) (v : jsvalue) : result (option jsvalue) :=
  match v with
  | JNull => Throw TypeError
  | JObj ps => Ok (snd <$> List.find (fun p => bool_decide (fst p = k)) ps)
  | _ => Ok None
  end.

(** [dep.apiName.replace(...)] and [dep.apiName.length]: of the values of
    the fragment only a string has a [replace] method. *)
Definition nameOf (dep : jsvalue) : result (list N) :=
  a ← getProp (js "apiName") dep;
  match a with
  | Some (JStr s) => Ok s
  | _ => Throw TypeError
  end.

(** [${dep.k}] in a template literal, ToString of the property.  A number,
    an array or an object there is outside the modelled fragment. *)
Definition shown (k : list N) (dep : jsvalue) : result (list N) :=
  x ← getProp k dep;
  match x with
  | None => Ok (js "undefined")
  | Some JNull => Ok (js "null")
  | Some (JBool true) => Ok (js "true")
  | Some (JBool false) => Ok (js "false")
  | Some (JStr s) => Ok s
  | Some (JNum _) | Some (JArr _) | Some (JObj _) => Beyond
  end.

(** What the loop body reads of one element.  The name is read first, as
    in the source; the two strings of the message are built here rather
    than at each match, which changes nothing since building them has no
    effect. *)
Definition recordOf (dep : jsvalue) : result DeprecatedAPI :=
  apiName ← nameOf dep;
  changeType ← shown (js "changeType") dep;
  description ← shown (js "description") dep;
  Ok (MkAPI apiName changeType description).

(** A string is iterated by code points. *)
Fixpoint codePoints (s : list N) : list (list N) :=
  match s with
  | [] => []
  | c :: rest =>
      if isLeadingSurrogate c then
        match rest with
        | d :: rest' =>
            if isTrailingSurrogate d then [c; d] :: codePoints rest'
            else [c] :: codePoints rest
        | [] => [[c]]
        end
      else [c] :: codePoints rest
  end.

(** What [for (const dep of deprecations)] goes through: the elements of an
    array, the code points of a string; [null], a boolean and an object are
    not iterable. *)
Definition iterated (deprecations : jsvalue) : result (list jsvalue) :=
  match deprecations with
  | JArr vs => Ok vs
  | JStr s => Ok (map JStr (codePoints s))
  | _ => Throw TypeError
  end.

Fixpoint for_values (fuel : nat) (text : list N) (values : list jsvalue)
    (acc : Found) : result Found :=
  match values with
  | [] => Ok acc
  | v :: vs =>
      dep ← recordOf v;
      regex ← Re.RegExp_new (pattern_of (apiName dep));
      acc' ← while_exec fuel text dep regex acc;
      for_values fuel text vs acc'
  end.

Definition checkForDeprecations_js (fuel : nat) (doc : TextDocument)
    (deprecations : jsvalue) (host : Host) : result Host :=
  values ← iterated deprecations;
  found ← for_values fuel (getText doc) values (MkFound [] []);
  Ok (MkHost (<[uri doc := diagnostics found]> (collection host))
             (setDecorations (uri doc) (decorationOptions found)
                (visibleTextEditors host))).

(** *** [activate] *)

(** What activation leaves behind: the catalog the listeners close over,
    and the diagnostic collection and the editors they write to. *)
Record Extension : Type := MkExtension {
  deprecations : jsvalue;
  host : Host
}.

(** One call of [checkForDeprecations], with the fuel that lets every
    terminating loop over the document finish. *)
Definition check (doc : TextDocument) (deprecations : jsvalue) (host : Host)
    : result Host :=
  checkForDeprecations_js (fuel_for (getText doc)) doc deprecations host.

(** [textDocuments.forEach(doc => checkForDeprecations(...))] *)
Fixpoint forEach_check (docs : list TextDocument) (deprecations : jsvalue)
    (host : Host) : result Host :=
  match docs with
  | [] => Ok host
  | doc :: rest =>
      host' ← check doc deprecations host;
      forEach_check rest deprecations host'
  end.

Definition activate (env : Env) (globalStoragePath : list N)
    (textDocuments : list TextDocument) (visibleTextEditors : list TextEditor)
    : M Extension :=
  versionNumber ← lift (versionNumber releaseNotesURL);
  deprecations ← getOrCreateReleaseNotes env versionNumber releaseNotesURL
                   globalStoragePath;
  let diagnosticCollection : gmap (list N) (list Diagnostic) := ∅ in
  host ← lift (forEach_check textDocuments deprecations
                 (MkHost diagnosticCollection visibleTextEditors));
  mret (MkExtension deprecations host).

(** The two listeners: [onDidOpenTextDocument] passes the document,
    [onDidChangeTextDocument] the event's document. *)
Inductive Event : Type :=
| DidOpen (doc : TextDocument)
| DidChange (document : TextDocument).

Definition document_of (ev : Event) : TextDocument :=
  match ev with
  | DidOpen doc => doc
  | DidChange document => document
  end.

Definition listener (x : Extension) (ev : Event) : result Extension :=
  host' ← check (document_of ev) (deprecations x) (host x);
  Ok (MkExtension (deprecations x) host').

(** Events delivered one after the other, up to the first listener that
    does not return. *)
Fixpoint deliver (x : Extension) (evs : list Event) : result Extension :=
  match evs with
  | [] => Ok x
  | ev :: rest => x' ← listener x ev; deliver x' rest
  end.

(** *** Notions the statements use *)

(** The last document of a list that has the URI [u]. *)
Definition latest (u : list N) (docs : list TextDocument) : option TextDocument :=
  last (filter (fun doc => uri doc = u) docs).

(** A text of decimal digits, the characters of [\d]. *)
Definition digits (s : list N) : bool := forallb Re.isDigit s.

(** The elements of an array read as the records [deps]: each is an object
    with a string under [apiName], and its two other fields show as the
    record's strings. *)
Definition reads_as (vs : list jsvalue) (deps : list DeprecatedAPI) : Prop :=
  Forall2 (fun v dep => recordOf v = Ok dep) vs deps.


End Activation.

(** * Properties *)

(** ** Sequencing of outcomes *)

Module ResultFacts.

Lemma bind_Ok {A B} (m : result A) (f : A -> result B) b :
  m ≫= f = Ok b <-> exists a, m = Ok a /\ f a = Ok b.
Proof.
  destruct m; cbn; split; try done; try (by intros (? & ? & ?)).
  - eauto.
  - by intros (? & [= ->] & ?).
Qed.

Lemma bind_fuel {A B} (m : result A) (f : A -> result B) :
  m <> OutOfFuel -> (forall a, m = Ok a -> f a <> OutOfFuel) ->
  m ≫= f <> OutOfFuel.
Proof. destruct m; cbn; intros H1 H2; try done. by apply H2. Qed.

End ResultFacts.

(** ** The pattern built from a name is the literal one *)

Module ReFacts.
Import Re.

Lemma isMeta_cases c :
  isMeta c = true ->
  c ∈ [46; 42; 43; 63; 94; 36; 123; 125; 40; 41; 124; 91; 93; 92]%N.
Proof.
  unfold isMeta. rewrite !orb_true_iff, !N.eqb_eq.
  intros H. repeat (destruct H as [H | H]); subst c; set_solver.
Qed.

Lemma isMeta_false c :
  isMeta c = false ->
  ((c =? 92) = false /\ (c =? 46) = false /\ (c =? 94) = false /\
   (c =? 36) = false /\ (c =? 42) = false /\ (c =? 43) = false /\
   (c =? 63) = false /\ (c =? 124) = false /\ (c =? 40) = false /\
   (c =? 41) = false /\ (c =? 91) = false /\ (c =? 123) = false)%N.
Proof.
  unfold isMeta. rewrite !orb_false_iff. tauto.
Qed.

(** A character the source leaves alone is a PatternCharacter. *)
Lemma parse_pattern_char c rest f up :
  isMeta c = false ->
  parse (c :: rest) (f :: up) = parse rest (push_term (RChar c) true f :: up).
Proof.
  intros H. apply isMeta_false in H.
  destruct H as (H1 & H2 & H3 & H4 & H5 & H6 & H7 & H8 & H9 & H10 & H11 & H12).
  cbn [parse]. rewrite H1, H2, H3, H4, H5, H6, H7, H8, H9, H10, H11, H12.
  reflexivity.
Qed.

(** A character the source escapes is read back as itself. *)
Lemma parse_escaped c rest f up :
  isMeta c = true ->
  parse (92%N :: c :: rest) (f :: up) = parse rest (push_term (RChar c) true f :: up).
Proof.
  intros H. apply isMeta_cases in H.
  repeat (apply elem_of_cons in H as [-> | H]; [reflexivity |]).
  by apply elem_of_nil in H.
Qed.

Lemma parse_escape name rest f up :
  parse (escape name ++ rest) (f :: up) =
  parse rest (Frame (alts f) (rev (map (fun c => (RChar c, true)) name) ++ cur f) :: up).
Proof.
  revert f. induction name as [| c name IH]; intros f.
  - destruct f; reflexivity.
  - cbn [escape flat_map]. fold (escape name).
    destruct (isMeta c) eqn:Hc.
    + cbn [app]. rewrite parse_escaped by done. rewrite IH.
      cbn [push_term alts cur map rev]. by rewrite <- app_assoc.
    + cbn [app]. rewrite parse_pattern_char by done. rewrite IH.
      cbn [push_term alts cur map rev]. by rewrite <- app_assoc.
Qed.

Lemma RegExp_new_pattern name :
  RegExp_new (pattern_of name) = Ok (MkRegExp (literal name) 0).
Proof.
  unfold RegExp_new, pattern_of.
  change (js "\b" ++ escape name ++ js "\b")
    with (92%N :: 98%N :: (escape name ++ [92%N; 98%N])).
  cbn [parse]. change (92 =? 92)%N with true. cbn match.
  change (atom_escape 98) with (Ok (A := regex * bool) (RWordB false, false)).
  cbn match. rewrite parse_escape.
  cbn. unfold close_frame, close_alt. cbn [alts cur rev app alt_of].
  unfold literal, seq_of. do 2 f_equal.
  rewrite List.map_app, List.rev_app_distr. cbn [map rev app fst].
  rewrite List.map_rev, List.rev_involutive, List.map_map. cbn [fst].
  reflexivity.
Qed.

End ReFacts.

(** ** The fuel of a repetition is never used up *)

Module RepeatFacts.
Import Re.

Section WithText.

Variable text : list N.

(** A matcher started inside the text asks its continuation only about
    positions from its own on, inside the text. *)
Lemma rmatch_local r i k k' :
  i <= length text ->
  (forall j, i <= j <= length text -> k j = k' j) ->
  rmatch text r i k = rmatch text r i k'.
Proof.
  revert i k k'.
  assert (forall p i k k',
            i <= length text ->
            (forall j, i <= j <= length text -> k j = k' j) ->
            char_matcher text p i k = char_matcher text p i k') as Hchar.
  { intros p i k k' Hi Hk. unfold char_matcher.
    destruct (text !! i) eqn:Hc; [| done]. apply lookup_lt_Some in Hc.
    destruct (p n); [| done]. apply Hk. lia. }
  assert (forall m : nat -> (nat -> option nat) -> option nat,
            (forall i k k', i <= length text ->
               (forall j, i <= j <= length text -> k j = k' j) -> m i k = m i k') ->
            forall fuel i k k', i <= length text ->
              (forall j, i <= j <= length text -> k j = k' j) ->
              repeat_matcher m k fuel i = repeat_matcher m k' fuel i) as Hrep.
  { intros m Hm fuel. induction fuel as [| fuel IH]; intros i k k' Hi Hk; cbn.
    - apply Hk. lia.
    - rewrite (Hk i) by lia.
      rewrite (Hm i _ (fun j => if Nat.eqb j i then None
                                else repeat_matcher m k' fuel j)); [done | done |].
      intros j Hj. destruct (Nat.eqb j i); [done |].
      apply IH; [lia |]. intros j' Hj'. apply Hk. lia. }
  induction r as [| c | | cl neg | | | neg | r1 IHr1 r2 IHr2 | r1 IHr1 r2 IHr2
                  | r IHr | r IHr | r IHr | r IHr];
    intros i k k' Hi Hk; cbn [rmatch]; try (by apply Hchar).
  - apply Hk. lia.
  - destruct (Nat.eqb i 0); [apply Hk; lia | done].
  - destruct (Nat.eqb i (length text)); [apply Hk; lia | done].
  - destruct (xorb _ neg); [apply Hk; lia | done].
  - apply IHr1; [done |]. intros j Hj. apply IHr2; [lia |].
    intros j' Hj'. apply Hk. lia.
  - rewrite (IHr1 i k k'), (IHr2 i k k') by done. done.
  - by apply Hrep.
  - apply IHr; [done |]. intros j Hj. apply Hrep; [done | lia |].
    intros j' Hj'. apply Hk. lia.
  - rewrite (Hk i) by lia.
    rewrite (IHr i _ (fun j => if Nat.eqb j i then None else k' j)); [done | done |].
    intros j Hj. destruct (Nat.eqb j i); [done |]. apply Hk. lia.
  - by apply IHr.
Qed.

(** Every round of a repetition moves forward, so any fuel above the
    length of what is left gives the same answer. *)
Lemma repeat_matcher_fuel r k fuel fuel' i :
  i <= length text -> length text - i < fuel -> length text - i < fuel' ->
  repeat_matcher (rmatch text r) k fuel i
  = repeat_matcher (rmatch text r) k fuel' i.
Proof.
  revert fuel' i. induction fuel as [| fuel IH]; intros fuel' i Hi Hf Hf'; [lia |].
  destruct fuel' as [| fuel']; [lia |]. cbn [repeat_matcher].
  rewrite (rmatch_local r i _
             (fun j => if Nat.eqb j i then None
                       else repeat_matcher (rmatch text r) k fuel' j));
    [done | done |].
  intros j Hj. destruct (Nat.eqb_spec j i); [done |]. apply IH; lia.
Qed.

End WithText.

End RepeatFacts.

(** ** What the literal pattern matches *)

Module MatchFacts.
Import Re.

Section WithText.

Variable text : list N.

Lemma occurs_at_nil i : i <= length text -> occurs_at [] text i.
Proof. intros H. split; [cbn; lia | reflexivity]. Qed.

Lemma occurs_at_cons c name i :
  occurs_at (c :: name) text i <-> text !! i = Some c /\ occurs_at name text (S i).
Proof.
  unfold occurs_at. cbn [length]. split.
  - intros [Hlen Heq].
    destruct (text !! i) as [d |] eqn:Hd.
    + rewrite (drop_S _ _ _ Hd) in Heq. cbn in Heq.
      injection Heq as -> Heq. repeat split; [lia | done].
    + apply lookup_ge_None in Hd. lia.
  - intros (Hd & Hlen & Heq). split; [lia |].
    rewrite (drop_S _ _ _ Hd). cbn. by rewrite Heq.
Qed.

Lemma occurs_at_bound name i : occurs_at name text i -> i + length name <= length text.
Proof. by intros [H _]. Qed.

Lemma rmatch_chars name tail i k :
  i <= length text ->
  rmatch text (foldr RSeq tail (map RChar name)) i k =
  if decide (occurs_at name text i) then rmatch text tail (i + length name) k
  else None.
Proof.
  revert i. induction name as [| c name IH]; intros i Hi.
  - cbn [map foldr length]. rewrite Nat.add_0_r.
    destruct (decide _) as [| Hn]; [done |].
    destruct Hn. by apply occurs_at_nil.
  - cbn [map foldr rmatch]. unfold char_matcher.
    destruct (text !! i) as [d |] eqn:Hd.
    + destruct (N.eqb_spec c d) as [<- | Hne].
      * rewrite IH by (apply lookup_lt_Some in Hd; lia).
        cbn [length]. replace (i + S (length name)) with (S i + length name) by lia.
        destruct (decide (occurs_at name text (S i))) as [Ho | Ho];
          destruct (decide (occurs_at (c :: name) text i)) as [Ho' | Ho'];
          try done.
        -- destruct Ho'. by apply occurs_at_cons.
        -- apply occurs_at_cons in Ho' as [_ Ho']. done.
      * destruct (decide _) as [Ho |]; [| done].
        apply occurs_at_cons in Ho as [Ho _]. congruence.
    + destruct (decide _) as [Ho |]; [| done].
      apply occurs_at_cons in Ho as [Ho _]. congruence.
Qed.

(** At a position of the text the literal pattern succeeds exactly on a
    word-bounded occurrence of the name, and ends right after it. *)
Lemma rmatch_literal name i :
  i <= length text ->
  rmatch text (literal name) i Some =
  if matches_at name text i then Some (i + length name) else None.
Proof.
  intros Hi. unfold literal, seq_of, matches_at.
  cbn [foldr rmatch]. rewrite xorb_false_r.
  destruct (isBoundary text i); [| done]. cbn [andb].
  rewrite foldr_app. cbn [foldr]. rewrite rmatch_chars by done.
  destruct (decide (occurs_at name text i)) as [Ho | Ho].
  - rewrite bool_decide_true by done. cbn [rmatch andb]. rewrite xorb_false_r.
    by destruct (isBoundary text (i + length name)).
  - by rewrite bool_decide_false by done.
Qed.

Lemma matches_at_occurs name i :
  matches_at name text i = true -> occurs_at name text i.
Proof.
  unfold matches_at. rewrite !andb_true_iff, bool_decide_eq_true. tauto.
Qed.

Lemma matches_at_beyond name i :
  length text < i -> matches_at name text i = false.
Proof.
  intros Hi. destruct (matches_at name text i) eqn:H; [| done].
  apply matches_at_occurs, occurs_at_bound in H. lia.
Qed.

Lemma search_literal_Some name cnt i p e :
  i + cnt <= S (length text) ->
  search text (literal name) cnt i = Some (p, e) ->
  i <= p < i + cnt /\ e = p + length name /\ matches_at name text p = true /\
  forall j, i <= j < p -> matches_at name text j = false.
Proof.
  revert i. induction cnt as [| cnt IH]; intros i Hb; [done |].
  cbn [search]. rewrite rmatch_literal by lia.
  destruct (matches_at name text i) eqn:Hm.
  - intros [= <- <-]. repeat split; [lia.. | done | intros; lia].
  - intros H. apply IH in H as (H1 & H2 & H3 & H4); [| lia].
    repeat split; [lia.. | done | done |].
    intros j Hj. destruct (decide (j = i)) as [-> | ]; [done |]. apply H4. lia.
Qed.

Lemma search_literal_None name cnt i :
  i + cnt <= S (length text) ->
  search text (literal name) cnt i = None ->
  forall j, i <= j < i + cnt -> matches_at name text j = false.
Proof.
  revert i. induction cnt as [| cnt IH]; intros i Hb; [intros; lia |].
  cbn [search]. rewrite rmatch_literal by lia.
  destruct (matches_at name text i) eqn:Hm; [done |].
  intros H j Hj. destruct (decide (j = i)) as [-> | ]; [done |].
  apply (IH (S i)); [lia | done | lia].
Qed.

(** [exec] on the pattern of a name: the leftmost word-bounded occurrence at
    or after [lastIndex], and [lastIndex] moved behind it. *)
Lemma exec_literal_Some name l s R' :
  exec text (MkRegExp (literal name) l) = (Some s, R') ->
  l <= s /\ matches_at name text s = true /\
  R' = MkRegExp (literal name) (s + length name) /\
  forall j, l <= j < s -> matches_at name text j = false.
Proof.
  unfold exec. cbn [lastIndex re_ast].
  destruct (Nat.ltb_spec (length text) l) as [Hl | Hl]; [done |].
  destruct (search _ _ _ _) as [[p e] |] eqn:Hs; [| done].
  intros [= -> <-]. apply search_literal_Some in Hs as (H1 & -> & H3 & H4); [| lia].
  repeat split; [lia | done | done].
Qed.

Lemma exec_literal_None name l R' :
  exec text (MkRegExp (literal name) l) = (None, R') ->
  forall j, l <= j -> matches_at name text j = false.
Proof.
  unfold exec. cbn [lastIndex re_ast].
  destruct (Nat.ltb_spec (length text) l) as [Hl | Hl].
  - intros _ j Hj. apply matches_at_beyond. lia.
  - destruct (search _ _ _ _) as [[p e] |] eqn:Hs; [done |].
    intros _ j Hj. destruct (decide (j <= length text)).
    + eapply search_literal_None; [| exact Hs |]; lia.
    + apply matches_at_beyond. lia.
Qed.

End WithText.

End MatchFacts.

(** ** The loops of [checkForDeprecations] *)

Module EngineFacts.
Import ResultFacts Re MatchFacts.

Lemma emit_cons dep s os acc :
  emit dep (s :: os) acc = emit dep os (report dep s acc).
Proof. unfold emit, report. cbn. by rewrite <- !app_assoc. Qed.

Lemma while_exec_offsets fuel text dep R acc :
  while_exec fuel text dep R acc =
  os ← offsets fuel text R; Ok (emit dep os acc).
Proof.
  revert R acc. induction fuel as [| fuel IH]; intros R acc; [done |].
  cbn [while_exec offsets].
  destruct (exec text R) as [[s |] R'].
  - rewrite IH. destruct (offsets fuel text R'); cbn; try done.
    by rewrite emit_cons.
  - cbn. unfold emit. cbn. rewrite !app_nil_r. by destruct acc.
Qed.

Lemma for_deps_offsets fuel text deps acc :
  for_deps fuel text deps acc =
  oss ← all_offsets fuel text deps;
  Ok (MkFound (diagnostics acc ++ diags_of deps oss)
              (decorationOptions acc ++ decos_of deps oss)).
Proof.
  revert acc. induction deps as [| dep deps IH]; intros acc.
  - cbn. unfold diags_of, decos_of. cbn. rewrite !app_nil_r. by destruct acc.
  - cbn [for_deps all_offsets]. unfold matches_for.
    destruct (RegExp_new _) as [R | | |]; cbn; try done.
    rewrite while_exec_offsets.
    destruct (offsets fuel text R) as [os | | |]; cbn; try done.
    rewrite IH. destruct (all_offsets fuel text deps) as [oss | | |]; cbn; try done.
    unfold diags_of, decos_of. cbn. by rewrite !app_assoc.
Qed.

Lemma scan_offsets fuel text deps :
  scan fuel text deps =
  oss ← all_offsets fuel text deps; Ok (MkFound (diags_of deps oss) (decos_of deps oss)).
Proof. unfold scan. by rewrite for_deps_offsets. Qed.

Lemma matches_for_literal fuel text dep :
  matches_for fuel text dep = offsets fuel text (MkRegExp (literal (apiName dep)) 0).
Proof. unfold matches_for. by rewrite ReFacts.RegExp_new_pattern. Qed.

Lemma all_offsets_Ok fuel text deps oss :
  all_offsets fuel text deps = Ok oss <->
  Forall2 (fun dep os => matches_for fuel text dep = Ok os) deps oss.
Proof.
  revert oss. induction deps as [| dep deps IH]; intros oss; cbn.
  - split; [intros [= <-]; constructor | by intros ->%Forall2_nil_inv_l].
  - rewrite bind_Ok. split.
    + intros (os & Hos & H). apply bind_Ok in H as (oss' & Hoss & [= <-]).
      constructor; [done | by apply IH].
    + intros (os & oss' & Hos & Hoss & ->)%Forall2_cons_inv_l.
      exists os. split; [done |]. apply bind_Ok. exists oss'. by rewrite IH.
Qed.

(** More fuel does not change a result. *)
Lemma offsets_mono fuel fuel' text R os :
  fuel <= fuel' -> offsets fuel text R = Ok os -> offsets fuel' text R = Ok os.
Proof.
  revert fuel' R os. induction fuel as [| fuel IH]; intros fuel' R os Hle; [done |].
  destruct fuel' as [| fuel']; [lia |]. cbn [offsets].
  destruct (exec text R) as [[s |] R']; [| done].
  rewrite !bind_Ok. intros (os' & Hos' & Heq). exists os'. split; [| done].
  apply IH; [lia | done].
Qed.

Lemma all_offsets_mono fuel fuel' text deps oss :
  fuel <= fuel' -> all_offsets fuel text deps = Ok oss ->
  all_offsets fuel' text deps = Ok oss.
Proof.
  intros Hle. rewrite !all_offsets_Ok. intros H.
  eapply Forall2_impl; [exact H |].
  intros dep os. rewrite !matches_for_literal. by apply offsets_mono.
Qed.

Lemma scan_mono fuel fuel' text deps found :
  fuel <= fuel' -> scan fuel text deps = Ok found -> scan fuel' text deps = Ok found.
Proof.
  intros Hle. rewrite !scan_offsets, !bind_Ok.
  intros (oss & H & Heq). exists oss. split; [| done]. by eapply all_offsets_mono.
Qed.

Lemma scan_functional fuel fuel' text deps found found' :
  scan fuel text deps = Ok found -> scan fuel' text deps = Ok found' -> found = found'.
Proof.
  intros H H'.
  apply (scan_mono _ (max fuel fuel')) in H; [| lia].
  apply (scan_mono _ (max fuel fuel')) in H'; [| lia]. congruence.
Qed.

Section Literal.

Variables (text name : list N).

Local Abbreviation R l := (MkRegExp (literal name) l).

Lemma nonempty_length : name <> [] -> 0 < length name.
Proof. destruct name; [done | cbn; lia]. Qed.

(** Every index the loop sees is a word-bounded occurrence at or after
    [lastIndex]. *)
Lemma offsets_sound fuel l os :
  offsets fuel text (R l) = Ok os ->
  Forall (fun s => l <= s /\ matches_at name text s = true) os.
Proof.
  revert l os. induction fuel as [| fuel IH]; intros l os; [done |].
  cbn [offsets]. destruct (exec text (R l)) as [[s |] R'] eqn:He.
  - apply exec_literal_Some in He as (Hl & Hm & -> & _).
    rewrite bind_Ok. intros (os' & Hos' & [= <-]).
    constructor; [done |]. apply IH in Hos'.
    eapply Forall_impl; [exact Hos' |]. cbn. intros s' [? ?]. split; [lia | done].
  - intros [= <-]. constructor.
Qed.

(** The loop does not end when a match is empty: [exec] finds it again. *)
Lemma offsets_stuck fuel s :
  name = [] -> matches_at name text s = true ->
  offsets fuel text (R s) = OutOfFuel.
Proof.
  intros Hname Hm. induction fuel as [| fuel IH]; [done |].
  cbn [offsets]. destruct (exec text (R s)) as [[s' |] R'] eqn:He.
  - apply exec_literal_Some in He as (Hl & _ & -> & Hleast).
    assert (s' = s) as ->.
    { destruct (decide (s' = s)); [done |].
      rewrite Hleast in Hm by lia. done. }
    replace (s + length name) with s by (rewrite Hname; cbn; lia).
    by rewrite IH.
  - eapply exec_literal_None in He; [| reflexivity]. congruence.
Qed.

Lemma offsets_ascending fuel l os :
  offsets fuel text (R l) = Ok os -> StronglySorted lt os.
Proof.
  revert l os. induction fuel as [| fuel IH]; intros l os; [done |].
  cbn [offsets]. destruct (exec text (R l)) as [[s |] R'] eqn:He.
  - apply exec_literal_Some in He as (Hl & Hm & -> & _).
    rewrite bind_Ok. intros (os' & Hos' & [= <-]).
    destruct (decide (name = [])) as [Hname | Hname].
    + replace (s + length name) with s in Hos' by (rewrite Hname; cbn; lia).
      rewrite offsets_stuck in Hos'; done.
    + constructor; [by eapply IH |].
      apply offsets_sound in Hos'. apply nonempty_length in Hname.
      eapply Forall_impl; [exact Hos' |]. cbn. intros s' [? _]. lia.
  - intros [= <-]. constructor.
Qed.

(** Every word-bounded occurrence is reported, or starts inside a reported
    one that begins earlier. *)
Lemma offsets_cover fuel l os p :
  name <> [] ->
  offsets fuel text (R l) = Ok os ->
  l <= p -> matches_at name text p = true ->
  exists q, q ∈ os /\ q <= p < q + length name.
Proof.
  intros Hne. revert l os. induction fuel as [| fuel IH]; intros l os; [done |].
  cbn [offsets]. destruct (exec text (R l)) as [[s |] R'] eqn:He.
  - apply exec_literal_Some in He as (Hl & Hm & -> & Hleast).
    rewrite bind_Ok. intros (os' & Hos' & [= <-]) Hp Hmp.
    assert (s <= p).
    { destruct (decide (s <= p)); [done |]. rewrite Hleast in Hmp by lia. done. }
    destruct (decide (p < s + length name)).
    + exists s. split; [left | lia].
    + destruct (IH _ _ Hos') as (q & Hq & Hqp); [lia | done |].
      exists q. split; [by right | done].
  - intros _ Hp Hmp. eapply exec_literal_None in He; [| exact Hp]. congruence.
Qed.

(** With a non-empty name [lastIndex] grows with every match. *)
Lemma exec_advances l s R' :
  name <> [] -> exec text (R l) = (Some s, R') ->
  l < lastIndex R' /\ lastIndex R' <= length text.
Proof.
  intros Hne He. apply exec_literal_Some in He as (Hl & Hm & -> & _).
  cbn [lastIndex]. apply matches_at_occurs, occurs_at_bound in Hm.
  apply nonempty_length in Hne. lia.
Qed.

Lemma offsets_terminates fuel l :
  name <> [] -> length text - l < fuel ->
  exists os, offsets fuel text (R l) = Ok os.
Proof.
  intros Hne. revert l. induction fuel as [| fuel IH]; intros l Hf; [lia |].
  cbn [offsets]. destruct (exec text (R l)) as [[s |] R'] eqn:He.
  - pose proof (exec_advances _ _ _ Hne He) as [Hlt Hle].
    apply exec_literal_Some in He as (_ & _ & -> & _). cbn [lastIndex] in *.
    destruct (IH (s + length name)) as [os Hos]; [lia |].
    rewrite Hos. by eexists.
  - by eexists.
Qed.

End Literal.

End EngineFacts.

(** ** The match engine: what a scan reports *)

Module ScanFacts.
Import ResultFacts Re MatchFacts EngineFacts.

Lemma pushed_for_weaken text dep deps d o :
  pushed_for text deps d o -> pushed_for text (dep :: deps) d o.
Proof.
  intros (dep' & s & Hin & Hd & Ho & Hm). exists dep', s.
  split; [by right | done].
Qed.

Lemma scan_pushed fuel text deps found :
  scan fuel text deps = Ok found ->
  Forall2 (pushed_for text deps) (diagnostics found) (decorationOptions found).
Proof.
  rewrite scan_offsets, bind_Ok. intros (oss & Hoss & [= <-]). cbn.
  apply all_offsets_Ok in Hoss. unfold diags_of, decos_of.
  induction Hoss as [| dep os deps oss Hos Hoss IH]; cbn; [constructor |].
  apply Forall2_app.
  - rewrite matches_for_literal in Hos. apply offsets_sound in Hos.
    clear -Hos. induction Hos as [| s os [_ Hs] Hos IH]; cbn; constructor.
    + exists dep, s. split; [left | done].
    + exact IH.
  - eapply Forall2_impl; [exact IH |]. intros d o. apply pushed_for_weaken.
Qed.

Lemma diags_of_elem deps oss i dep os q :
  deps !! i = Some dep -> oss !! i = Some os -> q ∈ os ->
  diag_of dep q ∈ diags_of deps oss.
Proof.
  unfold diags_of. revert oss i.
  induction deps as [| dep' deps IH]; intros oss i Hd Ho Hq; [done |].
  destruct oss as [| os' oss]; [done |]. cbn. apply elem_of_app.
  destruct i as [| i]; cbn in Hd, Ho.
  - left. injection Hd as ->. injection Ho as ->. by apply list_elem_of_fmap_2.
  - right. by eapply IH.
Qed.

(** The record and the offset can be read back from a diagnostic. *)
Lemma diag_of_inj dep dep' s s' :
  diag_of dep s = diag_of dep' s' -> s = s' /\ apiName dep = apiName dep'.
Proof.
  intros H.
  pose proof (f_equal (fun d => startOffset (range d)) H) as Hs.
  pose proof (f_equal (fun d => endOffset (range d)) H) as He.
  pose proof (f_equal message H) as Hmsg.
  cbn [diag_of range_of startOffset endOffset range message] in Hs, He, Hmsg.
  split; [done |]. subst s'. unfold diagMessage in Hmsg.
  apply app_inv_head in Hmsg. apply app_inv_head in Hmsg.
  apply app_inj_1 in Hmsg as [? _]; [done | lia].
Qed.

(** Any result is the result at [fuel_for text]. *)
Lemma offsets_fuel_for name text fuel os :
  offsets fuel text (MkRegExp (literal name) 0) = Ok os ->
  offsets (fuel_for text) text (MkRegExp (literal name) 0) = Ok os.
Proof.
  intros H. destruct (decide (name = [])) as [Hn | Hn].
  - destruct fuel as [| fuel]; [done |]. unfold fuel_for.
    cbn [offsets] in *. destruct (exec text _) as [[s |] R'] eqn:He; [| done].
    apply exec_literal_Some in He as (_ & Hm & -> & _).
    replace (s + length name) with s in H by (rewrite Hn; cbn; lia).
    rewrite (offsets_stuck text name fuel s Hn Hm) in H. done.
  - destruct (offsets_terminates text name (fuel_for text) 0 Hn) as [os' Hos'];
      [unfold fuel_for; lia |].
    rewrite Hos'. f_equal.
    apply (offsets_mono _ (max fuel (fuel_for text))) in H; [| lia].
    apply (offsets_mono _ (max fuel (fuel_for text))) in Hos'; [| lia].
    congruence.
Qed.

Lemma scan_fuel_for fuel text deps found :
  scan fuel text deps = Ok found -> scan (fuel_for text) text deps = Ok found.
Proof.
  rewrite !scan_offsets, !bind_Ok. intros (oss & H & Heq). exists oss.
  split; [| done]. apply all_offsets_Ok. apply all_offsets_Ok in H.
  eapply Forall2_impl; [exact H |]. intros dep os.
  rewrite !matches_for_literal. apply offsets_fuel_for.
Qed.

Lemma setDecorations_idemp u ds es :
  setDecorations u ds (setDecorations u ds es) = setDecorations u ds es.
Proof.
  induction es as [| e es IH]; [done |]. cbn.
  destruct (decide (document_uri e = u)) as [He | He]; cbn.
  - by rewrite decide_True.
  - rewrite decide_False by done. f_equal. exact IH.
Qed.

Lemma wordEdged_nonempty name : wordEdged name -> name <> [].
Proof. intros [(c & Hc & _) _] ->. done. Qed.

Lemma wordEdged_boundaries name text p :
  wordEdged name -> occurs_at name text p ->
  wordBefore text p = false -> wordAt text (p + length name) = false ->
  matches_at name text p = true.
Proof.
  intros [(c & Hc & Hw) (c' & Hc' & Hw')] Ho Hb Ha.
  unfold matches_at, isBoundary. rewrite Hb, Ha, (bool_decide_true _ Ho).
  destruct Ho as [Hlen Heq].
  assert (wordAt text p = true) as ->.
  { unfold wordAt. destruct name as [| c0 name]; [done |].
    injection Hc as ->.
    assert (text !! p = Some c) as ->; [| done].
    rewrite <- (Nat.add_0_r p), <- lookup_drop.
    rewrite <- (lookup_take_lt _ (length (c :: name))) by (cbn; lia).
    by rewrite Heq. }
  assert (wordBefore text (p + length name) = true) as ->; [| done].
  rewrite last_lookup in Hc'.
  destruct (length name) as [| n] eqn:Hn; [by destruct name |].
  replace (p + S n) with (S (p + n)) by lia. cbn [wordBefore pred] in *.
  unfold wordAt. assert (text !! (p + n) = Some c') as ->; [| done].
  rewrite <- lookup_drop. rewrite <- (lookup_take_lt _ (S n)) by lia.
  by rewrite Heq.
Qed.

End ScanFacts.

(** ** The match engine: main results *)

Module Engine.
Import ResultFacts Re MatchFacts EngineFacts ScanFacts.

(** C4.  Word boundaries: for a record named [Foo], the text [x Foo y] has
    exactly one match (at offset 2), [FooBar], [xFoo] and [FooFoo] have
    none, and [Foo Foo] has exactly two, at offsets 0 and 4. *)
Theorem word_boundary_examples (ct d : list N) :
  scan (fuel_for (js "x Foo y")) (js "x Foo y") [MkAPI (js "Foo") ct d]
    = Ok (MkFound [diag_of (MkAPI (js "Foo") ct d) 2]
                  [deco_of (MkAPI (js "Foo") ct d) 2]) /\
  scan (fuel_for (js "FooBar")) (js "FooBar") [MkAPI (js "Foo") ct d]
    = Ok (MkFound [] []) /\
  scan (fuel_for (js "xFoo")) (js "xFoo") [MkAPI (js "Foo") ct d]
    = Ok (MkFound [] []) /\
  scan (fuel_for (js "FooFoo")) (js "FooFoo") [MkAPI (js "Foo") ct d]
    = Ok (MkFound [] []) /\
  scan (fuel_for (js "Foo Foo")) (js "Foo Foo") [MkAPI (js "Foo") ct d]
    = Ok (MkFound [diag_of (MkAPI (js "Foo") ct d) 0;
                   diag_of (MkAPI (js "Foo") ct d) 4]
                  [deco_of (MkAPI (js "Foo") ct d) 0;
                   deco_of (MkAPI (js "Foo") ct d) 4]) /\
  range_of (MkAPI (js "Foo") ct d) 0 = MkRange 0 3 /\
  range_of (MkAPI (js "Foo") ct d) 2 = MkRange 2 5 /\
  range_of (MkAPI (js "Foo") ct d) 4 = MkRange 4 7.
Proof. repeat split; vm_compute; reflexivity. Qed.

(** C9.  Range invariant: every reported match of a record lies inside the
    text, ends [length apiName] after its start, and the text between the
    two offsets is the record's name. *)
Theorem match_range_invariant fuel text deps found :
  scan fuel text deps = Ok found ->
  Forall2 (well_placed text deps) (diagnostics found) (decorationOptions found).
Proof.
  intros H. apply scan_pushed in H.
  eapply Forall2_impl; [exact H |]. intros d o (dep & s & Hin & -> & -> & Hm).
  apply matches_at_occurs in Hm as [Hlen Heq].
  exists dep. cbn [diag_of range_of range startOffset endOffset].
  repeat split; [done | lia | lia | done].
Qed.

Lemma match_range_invariant_witness :
  Forall2 (well_placed (js "Foo Foo") [MkAPI (js "Foo") (js "Removed") []])
    [diag_of (MkAPI (js "Foo") (js "Removed") []) 0;
     diag_of (MkAPI (js "Foo") (js "Removed") []) 4]
    [deco_of (MkAPI (js "Foo") (js "Removed") []) 0;
     deco_of (MkAPI (js "Foo") (js "Removed") []) 4].
Proof.
  apply (match_range_invariant 8 (js "Foo Foo")
           [MkAPI (js "Foo") (js "Removed") []]
           (MkFound [diag_of (MkAPI (js "Foo") (js "Removed") []) 0;
                     diag_of (MkAPI (js "Foo") (js "Removed") []) 4]
                    [deco_of (MkAPI (js "Foo") (js "Removed") []) 0;
                     deco_of (MkAPI (js "Foo") (js "Removed") []) 4])).
  vm_compute. reflexivity.
Defined.

(** An empty name at a word boundary keeps the loop from ending, whatever
    the fuel. *)
Lemma empty_name_diverges fuel text dep i :
  apiName dep = [] -> matches_at [] text i = true ->
  scan fuel text [dep] = OutOfFuel.
Proof.
  intros Hn Hm. rewrite scan_offsets. cbn [all_offsets].
  rewrite matches_for_literal, Hn.
  destruct fuel as [| fuel]; [done |]. cbn [offsets].
  destruct (exec text _) as [[s |] R'] eqn:He.
  - apply exec_literal_Some in He as (_ & Hs & -> & _).
    cbn [length]. rewrite Nat.add_0_r.
    by rewrite (offsets_stuck text [] fuel s eq_refl Hs).
  - rewrite (exec_literal_None _ _ _ _ He i) in Hm by lia. done.
Qed.

(** C10.  Termination: when every name of the catalog is non-empty, the scan
    of a text returns within [length text + 1] rounds of each loop, and
    every match moves [lastIndex] strictly forward; an empty name at a word
    boundary makes the loop run forever. *)
Theorem scan_terminates text deps :
  Forall (fun dep => apiName dep <> []) deps ->
  (exists found, forall fuel, length text < fuel -> scan fuel text deps = Ok found) /\
  (forall dep regex l s regex',
     dep ∈ deps -> RegExp_new (pattern_of (apiName dep)) = Ok regex ->
     exec text (MkRegExp (re_ast regex) l) = (Some s, regex') ->
     l < lastIndex regex' /\ lastIndex regex' <= length text) /\
  (forall fuel text' dep i,
     apiName dep = [] -> matches_at [] text' i = true ->
     scan fuel text' [dep] = OutOfFuel).
Proof.
  intros Hne. split; [| split].
  - assert (exists oss, forall fuel, length text < fuel ->
              all_offsets fuel text deps = Ok oss) as [oss Hoss].
    { induction Hne as [| dep deps Hdep _ [oss IH]].
      - exists []. done.
      - destruct (offsets_terminates text (apiName dep) (fuel_for text) 0 Hdep)
          as [os Hos]; [unfold fuel_for; lia |].
        exists (os :: oss). intros fuel Hf. cbn [all_offsets].
        rewrite matches_for_literal.
        rewrite (offsets_mono (fuel_for text) fuel _ _ os) by (unfold fuel_for; done || lia).
        cbn. by rewrite IH. }
    eexists. intros fuel Hf. rewrite scan_offsets, Hoss by done. reflexivity.
  - intros dep regex l s regex' Hin Hnew He.
    rewrite ReFacts.RegExp_new_pattern in Hnew. injection Hnew as <-.
    cbn [re_ast] in He. eapply exec_advances; [| exact He].
    rewrite Forall_forall in Hne. by apply Hne.
  - intros fuel text' dep i. apply empty_name_diverges.
Qed.

Lemma scan_terminates_witness :
  exists found, scan 5 (js "a.b!") [MkAPI (js "a.b") (js "Removed") []] = Ok found.
Proof.
  destruct (scan_terminates (js "a.b!") [MkAPI (js "a.b") (js "Removed") []])
    as [[found H] _].
  - constructor; [discriminate | constructor].
  - exists found. apply H. vm_compute. lia.
Defined.

(** C8.  Determinism and order: the result of a scan does not depend on the
    fuel or on anything but the catalog and the text; running the check
    again on the host it produced changes nothing; the reported matches are
    grouped in catalog order and, for each record, ascend in the text. *)
Theorem scan_deterministic_ordered fuel text deps found :
  scan fuel text deps = Ok found ->
  (forall fuel' found', scan fuel' text deps = Ok found' -> found' = found) /\
  (forall doc host, getText doc = text ->
     exists host',
       checkForDeprecations fuel doc deps host = Ok host' /\
       checkForDeprecations fuel doc deps host' = Ok host' /\
       collection host' !! uri doc = Some (diagnostics found)) /\
  (exists oss,
     length oss = length deps /\
     diagnostics found = diags_of deps oss /\
     decorationOptions found = decos_of deps oss /\
     Forall (StronglySorted lt) oss).
Proof.
  intros H. split; [| split].
  - intros fuel' found' H'. by eapply scan_functional.
  - intros doc host <-. unfold checkForDeprecations. rewrite H.
    cbn -[setDecorations]. eexists. split; [reflexivity |].
    cbn -[setDecorations].
    rewrite insert_insert_eq, setDecorations_idemp, lookup_insert_eq. done.
  - rewrite scan_offsets, bind_Ok in H. destruct H as (oss & Hoss & [= <-]).
    exists oss. apply all_offsets_Ok in Hoss. cbn.
    repeat split; [symmetry; by eapply Forall2_length |].
    clear -Hoss. induction Hoss as [| dep os deps oss Hos _ IH]; constructor; [| done].
    rewrite matches_for_literal in Hos. by eapply offsets_ascending.
Qed.

Lemma scan_deterministic_ordered_witness :
  exists host',
    checkForDeprecations 8 (MkDoc (js "file:///a.js") (js "Foo Foo"))
      [MkAPI (js "Foo") (js "Removed") []] (MkHost ∅ []) = Ok host' /\
    checkForDeprecations 8 (MkDoc (js "file:///a.js") (js "Foo Foo"))
      [MkAPI (js "Foo") (js "Removed") []] host' = Ok host' /\
    collection host' !! js "file:///a.js"
    = Some [diag_of (MkAPI (js "Foo") (js "Removed") []) 0;
            diag_of (MkAPI (js "Foo") (js "Removed") []) 4].
Proof.
  refine (proj1 (proj2 (scan_deterministic_ordered 8 (js "Foo Foo")
            [MkAPI (js "Foo") (js "Removed") []]
            (MkFound [diag_of (MkAPI (js "Foo") (js "Removed") []) 0;
                      diag_of (MkAPI (js "Foo") (js "Removed") []) 4]
                     [deco_of (MkAPI (js "Foo") (js "Removed") []) 0;
                      deco_of (MkAPI (js "Foo") (js "Removed") []) 4]) _))
          (MkDoc (js "file:///a.js") (js "Foo Foo")) (MkHost ∅ []) eq_refl).
  vm_compute. reflexivity.
Defined.

(** C1, as the code has it.  For a record whose name begins and ends with a
    word character, the pattern built from the name is the name itself
    between two word boundaries; an occurrence of the name with no word
    character right before or right after it is reported, at its own offset
    or as part of a reported occurrence that starts earlier and overlaps it;
    and where the text has the name with the character at a metacharacter
    position replaced, no match of that record starts. *)
Theorem literal_name_matching fuel text deps found dep :
  scan fuel text deps = Ok found ->
  dep ∈ deps ->
  wordEdged (apiName dep) ->
  RegExp_new (pattern_of (apiName dep)) = Ok (MkRegExp (literal (apiName dep)) 0) /\
  (forall p,
     occurs_at (apiName dep) text p ->
     wordBefore text p = false ->
     wordAt text (p + length (apiName dep)) = false ->
     exists q, q <= p < q + length (apiName dep) /\
               diag_of dep q ∈ diagnostics found) /\
  (forall p k m c,
     apiName dep !! k = Some m -> isMeta m = true -> c <> m ->
     take (length (apiName dep)) (drop p text) = <[k := c]> (apiName dep) ->
     diag_of dep p ∉ diagnostics found).
Proof.
  intros H Hin Hw. split; [apply ReFacts.RegExp_new_pattern | split].
  - intros p Ho Hb Ha.
    pose proof (wordEdged_boundaries _ _ _ Hw Ho Hb Ha) as Hm.
    rewrite scan_offsets, bind_Ok in H. destruct H as (oss & Hoss & [= <-]).
    apply all_offsets_Ok in Hoss. cbn [diagnostics].
    apply list_elem_of_lookup in Hin as [i Hi].
    destruct (Forall2_lookup_l _ _ _ _ _ Hoss Hi) as (os & Hos & Hfor).
    rewrite matches_for_literal in Hfor.
    destruct (offsets_cover text (apiName dep) fuel 0 os p) as (q & Hq & Hqp);
      [by apply wordEdged_nonempty | done | lia | done |].
    exists q. split; [done |]. by eapply diags_of_elem.
  - intros p k m c Hk Hmeta Hc Hsub Hd.
    apply scan_pushed in H.
    apply list_elem_of_lookup in Hd as [i Hi].
    destruct (Forall2_lookup_l _ _ _ _ _ H Hi) as (o & _ & dep' & s & _ & Heq & _ & Hm).
    apply diag_of_inj in Heq as [-> Hname].
    rewrite <- Hname in Hm. apply matches_at_occurs in Hm as [_ Hm].
    rewrite Hm in Hsub.
    assert (apiName dep !! k = <[k := c]> (apiName dep) !! k) as Hl by (by rewrite <- Hsub).
    rewrite list_lookup_insert_eq in Hl by (by eapply lookup_lt_Some).
    congruence.
Qed.

Lemma literal_name_matching_witness :
  exists q, q <= 2 < q + 3 /\
    diag_of (MkAPI (js "a.b") (js "Removed") []) q
      ∈ [diag_of (MkAPI (js "a.b") (js "Removed") []) 2].
Proof.
  destruct (literal_name_matching 8 (js "x a.b y")
              [MkAPI (js "a.b") (js "Removed") []]
              (MkFound [diag_of (MkAPI (js "a.b") (js "Removed") []) 2]
                       [deco_of (MkAPI (js "a.b") (js "Removed") []) 2])
              (MkAPI (js "a.b") (js "Removed") [])) as (_ & H & _).
  - vm_compute. reflexivity.
  - left.
  - split; eexists; (split; [reflexivity | vm_compute; reflexivity]).
  - apply (H 2).
    + split; [vm_compute; lia | vm_compute; reflexivity].
    + vm_compute. reflexivity.
    + vm_compute. reflexivity.
Defined.

(** C1 as stated fails where the occurrence is embedded in a word: [xa.b]
    contains [a.b] at offset 1 and the scan reports nothing. *)
Lemma embedded_occurrence_unmatched :
  occurs_at (js "a.b") (js "xa.b") 1 /\
  scan (fuel_for (js "xa.b")) (js "xa.b") [MkAPI (js "a.b") (js "Removed") []]
    = Ok (MkFound [] []).
Proof.
  split; [| vm_compute; reflexivity].
  split; [vm_compute; lia | vm_compute; reflexivity].
Qed.

(** The same pattern on the unescaped name would take [.] for any character
    and the parentheses for a group. *)
Example unescaped_name_is_a_pattern :
  RegExp_new (js "a.b()") =
    Ok (MkRegExp (RSeq (RChar 97) (RSeq RAny (RSeq (RChar 98)
          (RSeq (RGroup REmpty) REmpty)))) 0) /\
  fst (exec (js "axb") (MkRegExp (RSeq (RChar 97) (RSeq RAny (RSeq (RChar 98)
          (RSeq (RGroup REmpty) REmpty)))) 0)) = Some 0.
Proof. split; vm_compute; reflexivity. Qed.

(** A name that ends in a non-word character is found only where a word
    character follows it: [a.b()] alone is not reported, [a.b()x] is. *)
Example name_ending_in_paren :
  scan (fuel_for (js "a.b()")) (js "a.b()") [MkAPI (js "a.b()") (js "Removed") []]
    = Ok (MkFound [] []) /\
  scan (fuel_for (js "a.b()x")) (js "a.b()x") [MkAPI (js "a.b()") (js "Removed") []]
    = Ok (MkFound [diag_of (MkAPI (js "a.b()") (js "Removed") []) 0]
                  [deco_of (MkAPI (js "a.b()") (js "Removed") []) 0]).
Proof. split; vm_compute; reflexivity. Qed.

(** Occurrences that overlap are reported once, by the leftmost. *)
Example overlapping_occurrences :
  scan (fuel_for (js "a.a.a.a.a")) (js "a.a.a.a.a")
       [MkAPI (js "a.a.a") (js "Removed") []]
    = Ok (MkFound [diag_of (MkAPI (js "a.a.a") (js "Removed") []) 0]
                  [deco_of (MkAPI (js "a.a.a") (js "Removed") []) 0]).
Proof. vm_compute; reflexivity. Qed.

(** The record [geolocation.watchPosition] in a call on [navigator]: one
    match, where [geolocation] begins. *)
Example name_inside_a_path :
  scan (fuel_for (js "navigator.geolocation.watchPosition(cb);"))
       (js "navigator.geolocation.watchPosition(cb);")
       [MkAPI (js "geolocation.watchPosition") (js "Deprecated")
              (js "Use permissions API instead.")]
    = Ok (MkFound
            [diag_of (MkAPI (js "geolocation.watchPosition") (js "Deprecated")
                            (js "Use permissions API instead.")) 10]
            [deco_of (MkAPI (js "geolocation.watchPosition") (js "Deprecated")
                            (js "Use permissions API instead.")) 10]) /\
  range_of (MkAPI (js "geolocation.watchPosition") (js "Deprecated")
                  (js "Use permissions API instead.")) 10 = MkRange 10 35.
Proof. split; vm_compute; reflexivity. Qed.

End Engine.

(** ** JSON: what [stringify] writes, [parse] reads back *)

Module JsonFacts.
Import Json.

Local Open Scope N_scope.

Lemma hexValue_hexDigit d : d < 16 -> hexValue (hexDigit d) = Some d.
Proof.
  intros Hd. unfold hexValue, hexDigit.
  destruct (N.ltb_spec d 10).
  - rewrite (proj2 (N.leb_le 48 (48 + d))) by lia.
    rewrite (proj2 (N.leb_le (48 + d) 57)) by lia.
    cbn [andb]. f_equal. lia.
  - rewrite (proj2 (N.leb_gt (87 + d) 57)) by lia. rewrite andb_false_r.
    rewrite (proj2 (N.leb_le 97 (87 + d))) by lia.
    rewrite (proj2 (N.leb_le (87 + d) 102)) by lia.
    cbn [andb]. f_equal. lia.
Qed.

Lemma hex4_digits c :
  c < 65536 ->
  hex4 (hexDigit (c / 4096 mod 16)) (hexDigit (c / 256 mod 16))
       (hexDigit (c / 16 mod 16)) (hexDigit (c mod 16)) = Some c.
Proof.
  intros Hc. unfold hex4.
  rewrite !hexValue_hexDigit by (apply N.mod_lt; lia).
  f_equal.
  pose proof (N.div_mod c 16 ltac:(lia)).
  pose proof (N.div_mod (c / 16) 16 ltac:(lia)).
  pose proof (N.div_mod (c / 16 / 16) 16 ltac:(lia)).
  rewrite !N.Div0.div_div in *.
  change (16 * 16) with 256 in *. change (256 * 16) with 4096 in *.
  assert (c / 4096 < 16) by (apply N.Div0.div_lt_upper_bound; lia).
  rewrite (N.mod_small (c / 4096) 16) in * by done.
  lia.
Qed.

Lemma parseString_unicodeEscape c s :
  c < 65536 ->
  parseString (unicodeEscape c ++ s) = r ← parseString s; Ok (c :: fst r, snd r).
Proof.
  intros Hc. unfold unicodeEscape. cbn [app parseString].
  change (92 =? 34) with false. change (92 =? 92) with true.
  change (117 =? 117) with true. cbn match.
  by rewrite hex4_digits.
Qed.

Lemma parseString_raw c s :
  32 <= c -> c <> 34 -> c <> 92 ->
  parseString (c :: s) = r ← parseString s; Ok (c :: fst r, snd r).
Proof.
  intros H1 H2 H3. cbn [parseString].
  rewrite (proj2 (N.eqb_neq c 34)), (proj2 (N.eqb_neq c 92)) by done.
  by rewrite (proj2 (N.ltb_ge c 32)).
Qed.

Lemma parseString_quoteUnit c s :
  parseString (quoteUnit c ++ s) = r ← parseString s; Ok (c :: fst r, snd r).
Proof.
  unfold quoteUnit.
  destruct (N.eqb_spec c 8) as [-> | ?]; [reflexivity |].
  destruct (N.eqb_spec c 9) as [-> | ?]; [reflexivity |].
  destruct (N.eqb_spec c 10) as [-> | ?]; [reflexivity |].
  destruct (N.eqb_spec c 12) as [-> | ?]; [reflexivity |].
  destruct (N.eqb_spec c 13) as [-> | ?]; [reflexivity |].
  destruct (N.eqb_spec c 34) as [-> | ?]; [reflexivity |].
  destruct (N.eqb_spec c 92) as [-> | ?]; [reflexivity |].
  destruct (N.ltb_spec c 32).
  - apply parseString_unicodeEscape. lia.
  - by apply parseString_raw.
Qed.

Lemma surrogate_raw c :
  isLeadingSurrogate c || isTrailingSurrogate c = true ->
  32 <= c /\ c <> 34 /\ c <> 92 /\ c < 65536.
Proof.
  unfold isLeadingSurrogate, isTrailingSurrogate.
  rewrite orb_true_iff, !andb_true_iff, !N.leb_le. lia.
Qed.

Lemma parseString_quoteBody_aux n s rest :
  (length s <= n)%nat ->
  parseString (quoteBody s ++ 34 :: rest) = Ok (s, rest).
Proof.
  revert s. induction n as [| n IH]; intros s Hn.
  { destruct s; [reflexivity | cbn in Hn; lia]. }
  destruct s as [| c s]; [reflexivity |]. cbn [quoteBody].
  destruct (isLeadingSurrogate c) eqn:Hlead.
  - destruct (surrogate_raw c) as (? & ? & ? & ?); [by rewrite Hlead |].
    destruct s as [| d s].
    + rewrite parseString_unicodeEscape by done. reflexivity.
    + destruct (isTrailingSurrogate d) eqn:Htrail.
      * destruct (surrogate_raw d) as (? & ? & ? & ?);
          [by rewrite Htrail, orb_true_r |].
        cbn [app]. rewrite !parseString_raw by done.
        rewrite IH by (cbn in Hn; lia). reflexivity.
      * rewrite <- app_assoc, parseString_unicodeEscape by done.
        rewrite IH by (cbn in Hn |- *; lia). reflexivity.
  - destruct (isTrailingSurrogate c) eqn:Htrail.
    + destruct (surrogate_raw c) as (? & ? & ? & ?);
        [by rewrite Htrail, orb_true_r |].
      rewrite <- app_assoc, parseString_unicodeEscape by done.
      rewrite IH by (cbn in Hn; lia). reflexivity.
    + rewrite <- app_assoc, parseString_quoteUnit.
      rewrite IH by (cbn in Hn; lia). reflexivity.
Qed.

(** A quoted string is read back as it was, whatever its code units. *)
Lemma parseString_quoteBody s rest :
  parseString (quoteBody s ++ 34 :: rest) = Ok (s, rest).
Proof. by apply (parseString_quoteBody_aux (length s)). Qed.

End JsonFacts.

Module JsonRoundTrip.
Import Json JsonFacts.

Local Open Scope N_scope.

Lemma jsvalue_ind' (P : jsvalue -> Prop) :
  P JNull -> (forall b, P (JBool b)) -> (forall l, P (JNum l)) ->
  (forall s, P (JStr s)) ->
  (forall vs, Forall P vs -> P (JArr vs)) ->
  (forall ps, Forall (fun p => P (snd p)) ps -> P (JObj ps)) ->
  forall v, P v.
Proof.
  intros Hnull Hbool Hnum Hstr Harr Hobj. fix IH 1. intros [| b | l | s | vs | ps].
  - exact Hnull.
  - apply Hbool.
  - apply Hnum.
  - apply Hstr.
  - apply Harr. induction vs as [| v vs IHvs]; constructor; [apply IH | exact IHvs].
  - apply Hobj. induction ps as [| p ps IHps]; constructor; [apply IH | exact IHps].
Qed.

Lemma skipWs_app ws s : forallb isWs ws = true -> skipWs (ws ++ s) = skipWs s.
Proof.
  induction ws as [| c ws IH]; [done |]. cbn [forallb app skipWs].
  intros [-> H]%andb_true_iff. by apply IH.
Qed.

Lemma skipWs_head c s : isWs c = false -> skipWs (c :: s) = c :: s.
Proof. intros H. cbn [skipWs]. by rewrite H. Qed.

Lemma parseValue_S fuel s :
  parseValue (S fuel) s =
  match skipWs s with
  | [] => Throw SyntaxError
  | c :: rest =>
      if c =? 34 then r ← parseString rest; Ok (JStr (fst r), snd r)
      else if c =? 91 then
        match closes 93 (skipWs rest) with
        | Some rest' => Ok (JArr [], rest')
        | None => r ← parseElements fuel rest; Ok (JArr (fst r), snd r)
        end
      else if c =? 123 then
        match closes 125 (skipWs rest) with
        | Some rest' => Ok (JObj [], rest')
        | None => r ← parseMembers fuel rest; Ok (JObj (fst r), snd r)
        end
      else if c =? 116 then expect (js "true") (JBool true) (c :: rest)
      else if c =? 102 then expect (js "false") (JBool false) (c :: rest)
      else if c =? 110 then expect (js "null") JNull (c :: rest)
      else if (c =? 45) || isDecimal c then
        match parseNumber (c :: rest) with
        | Some r => Ok (JNum (fst r), snd r)
        | None => Throw SyntaxError
        end
      else Throw SyntaxError
  end.
Proof. reflexivity. Qed.

Lemma parseElements_S fuel s :
  parseElements (S fuel) s =
  r ← parseValue fuel s;
  match skipWs (snd r) with
  | c :: rest =>
      if c =? 44 then r' ← parseElements fuel rest; Ok (fst r :: fst r', snd r')
      else if c =? 93 then Ok ([fst r], rest)
      else Throw SyntaxError
  | [] => Throw SyntaxError
  end.
Proof. reflexivity. Qed.

Lemma parseMembers_S fuel s :
  parseMembers (S fuel) s =
  match closes 34 (skipWs s) with
  | Some rest =>
      k ← parseString rest;
      match closes 58 (skipWs (snd k)) with
      | Some rest' =>
          r ← parseValue fuel rest';
          match skipWs (snd r) with
          | c :: rest'' =>
              if c =? 44 then
                r' ← parseMembers fuel rest'';
                Ok ((fst k, fst r) :: fst r', snd r')
              else if c =? 125 then Ok ([(fst k, fst r)], rest'')
              else Throw SyntaxError
          | [] => Throw SyntaxError
          end
      | None => Throw SyntaxError
      end
  | None => Throw SyntaxError
  end.
Proof. reflexivity. Qed.

Lemma parseValue_ws fuel ws s :
  forallb isWs ws = true -> parseValue fuel (ws ++ s) = parseValue fuel s.
Proof.
  intros H. destruct fuel; [done |]. by rewrite !parseValue_S, skipWs_app.
Qed.

(** A serialized value begins with a character that is neither white space
    nor a closing bracket. *)
Lemma serialize_head indent v :
  plain v = true ->
  exists c tl, serialize indent v = c :: tl /\ isWs c = false /\ c <> 93 /\ c <> 125.
Proof.
  destruct v as [| [|] | l | s | vs | ps]; [| | | done | | |]; intros _;
    cbn [serialize];
    try (eexists _, _; split; [reflexivity | done]).
  - unfold block. destruct (map _ vs); eexists _, _; (split; [reflexivity | done]).
  - unfold block. destruct (map _ ps); eexists _, _; (split; [reflexivity | done]).
Qed.

Lemma isWs_two_more indent :
  forallb isWs indent = true -> forallb isWs (indent ++ js "  ") = true.
Proof. intros H. rewrite forallb_app, H. reflexivity. Qed.

Lemma isWs_nl_indent indent :
  forallb isWs indent = true -> forallb isWs (nl ++ indent) = true.
Proof. intros H. cbn. exact H. Qed.

Lemma parseString_quoted s rest :
  parseString (quoteBody s ++ dq ++ rest) = Ok (s, rest).
Proof. apply parseString_quoteBody. Qed.

Lemma join_cons2 sep p p2 ps :
  join sep (p :: p2 :: ps) = p ++ sep ++ join sep (p2 :: ps).
Proof. reflexivity. Qed.

Lemma parseElements_join indent' tail_ws rest vs :
  Forall (fun v => plain v = true -> reads_back v) vs ->
  forallb plain vs = true -> vs <> [] ->
  forallb isWs indent' = true -> forallb isWs tail_ws = true ->
  forall ws fuel,
    forallb isWs ws = true ->
    (sum_list_with (fun v => S (need v)) vs <= fuel)%nat ->
    parseElements fuel
      (ws ++ join (js "," ++ nl ++ indent') (map (serialize indent') vs)
          ++ tail_ws ++ 93 :: rest) = Ok (vs, rest).
Proof.
  intros HP Hplain Hne Hind Htail.
  induction vs as [| v vs IH]; [done |]. clear Hne.
  apply Forall_cons in HP as [Hv HP].
  cbn [forallb] in Hplain. apply andb_true_iff in Hplain as [Hpv Hplain].
  intros ws fuel Hws Hfuel. cbn [sum_list_with] in Hfuel.
  destruct fuel as [| fuel]; [lia |]. rewrite parseElements_S.
  destruct vs as [| v2 vs]; cbn [sum_list_with] in Hfuel.
  - cbn [map join]. rewrite parseValue_ws by done.
    rewrite (Hv Hpv) by (done || lia). cbn [mbind result_bind fst snd].
    rewrite skipWs_app by done. by rewrite skipWs_head.
  - cbn [map]. rewrite join_cons2, <- !app_assoc. rewrite parseValue_ws by done.
    rewrite (Hv Hpv) by (done || lia). cbn [mbind result_bind fst snd].
    change (js "," ++ nl ++ indent' ++ ?x) with (44 :: (nl ++ indent') ++ x).
    rewrite skipWs_head by done.
    rewrite (IH HP Hplain) ; [done | done | by apply isWs_nl_indent |].
    cbn [sum_list_with]. lia.
Qed.

Lemma closes_same c s : closes c (c :: s) = Some s.
Proof. cbn. by rewrite N.eqb_refl. Qed.

Lemma parseMembers_join indent' tail_ws rest ps :
  Forall (fun p => plain (snd p) = true -> reads_back (snd p)) ps ->
  forallb (fun p => plain (snd p)) ps = true -> ps <> [] ->
  forallb isWs indent' = true -> forallb isWs tail_ws = true ->
  forall ws fuel,
    forallb isWs ws = true ->
    (sum_list_with (fun p => S (need (snd p))) ps <= fuel)%nat ->
    parseMembers fuel
      (ws ++ join (js "," ++ nl ++ indent')
               (map (fun p => quote (fst p) ++ js ": " ++ serialize indent' (snd p)) ps)
          ++ tail_ws ++ 125 :: rest) = Ok (ps, rest).
Proof.
  intros HP Hplain Hne Hind Htail.
  induction ps as [| [k v] ps IH]; [done |]. clear Hne.
  apply Forall_cons in HP as [Hv HP]. cbn [snd] in Hv.
  cbn [forallb snd] in Hplain. apply andb_true_iff in Hplain as [Hpv Hplain].
  intros ws fuel Hws Hfuel. cbn [sum_list_with snd] in Hfuel.
  destruct fuel as [| fuel]; [lia |]. rewrite parseMembers_S.
  rewrite skipWs_app by done.
  destruct ps as [| p2 ps]; cbn [sum_list_with] in Hfuel.
  - cbn [map join fst snd]. unfold quote. rewrite <- !app_assoc.
    change (dq ++ quoteBody k ++ ?x) with (34 :: quoteBody k ++ x).
    rewrite skipWs_head by done. rewrite closes_same.
    rewrite parseString_quoted. cbn [mbind result_bind fst snd].
    change (js ": " ++ ?x) with (58 :: [32] ++ x).
    rewrite skipWs_head by done. rewrite closes_same.
    rewrite parseValue_ws by done.
    rewrite (Hv Hpv) by (done || lia). cbn [mbind result_bind fst snd].
    rewrite skipWs_app by done. by rewrite skipWs_head.
  - cbn [map]. rewrite join_cons2. cbn [fst snd]. unfold quote at 1.
    rewrite <- !app_assoc.
    change (dq ++ quoteBody k ++ ?x) with (34 :: quoteBody k ++ x).
    rewrite skipWs_head by done. rewrite closes_same.
    rewrite parseString_quoted. cbn [mbind result_bind fst snd].
    change (js ": " ++ ?x) with (58 :: [32] ++ x).
    rewrite skipWs_head by done. rewrite closes_same.
    rewrite parseValue_ws by done.
    rewrite (Hv Hpv) by (done || lia). cbn [mbind result_bind fst snd].
    change (js "," ++ nl ++ indent' ++ ?x) with (44 :: (nl ++ indent') ++ x).
    rewrite skipWs_head by done.
    rewrite (IH HP Hplain); [done | done | by apply isWs_nl_indent |].
    cbn [sum_list_with]. lia.
Qed.

Lemma closes_other c d tl : d <> c -> closes c (d :: tl) = None.
Proof. intros H. cbn. by rewrite (proj2 (N.eqb_neq d c)). Qed.

(** Plain values are read back from what [serialize] writes. *)
Lemma serialize_reads_back v : plain v = true -> reads_back v.
Proof.
  induction v as [| b | l | s | vs IH | ps IH] using jsvalue_ind';
    intros Hplain indent rest fuel Hind Hfuel;
    (destruct fuel as [| fuel]; [cbn in Hfuel; lia |]).
  - reflexivity.
  - by destruct b.
  - done.
  - rewrite parseValue_S. cbn [serialize]. unfold quote. rewrite <- !app_assoc.
    change (dq ++ quoteBody s ++ ?x) with (34 :: quoteBody s ++ x).
    rewrite skipWs_head by done.
    change (34 =? 34) with true. cbn match.
    by rewrite parseString_quoted.
  - rewrite parseValue_S. cbn [serialize plain need] in *. unfold block.
    destruct vs as [| v vs]; [reflexivity |].
    pose proof (isWs_two_more _ Hind) as Hind'.
    set (indent' := indent ++ js "  ") in *.
    cbn [map]. rewrite <- !app_assoc.
    change (js "[" ++ ?x) with (91 :: x). rewrite skipWs_head by done.
    change (91 =? 34) with false. change (91 =? 91) with true. cbn match.
    destruct (serialize_head indent' v) as (c & tl & Hc & Hcws & Hc93 & _);
      [by apply andb_true_iff in Hplain as [? _] |].
    change (js "]" ++ rest) with (93 :: rest).
    change (serialize indent' v :: map (serialize indent') vs)
      with (map (serialize indent') (v :: vs)).
    rewrite (app_assoc nl indent'), (app_assoc nl indent).
    assert (closes 93 (skipWs ((nl ++ indent') ++
              join (js "," ++ nl ++ indent') (map (serialize indent') (v :: vs))
              ++ (nl ++ indent) ++ 93 :: rest)) = None) as ->.
    { rewrite skipWs_app by (by apply isWs_nl_indent).
      destruct vs; cbn [map]; [cbn [join] | rewrite join_cons2];
        rewrite Hc; cbn [app]; rewrite skipWs_head by done;
        by apply closes_other. }
    rewrite (parseElements_join indent' (nl ++ indent) rest (v :: vs));
      [done | done | done | done | done | by apply isWs_nl_indent
      | by apply isWs_nl_indent | lia].
  - rewrite parseValue_S. cbn [serialize plain need] in *. unfold block.
    apply andb_true_iff in Hplain as [Hkeys Hplain].
    destruct ps as [| [k v] ps]; [reflexivity |].
    pose proof (isWs_two_more _ Hind) as Hind'.
    set (indent' := indent ++ js "  ") in *.
    set (member := fun p : list N * jsvalue =>
                     quote (fst p) ++ js ": " ++ serialize indent' (snd p)) in *.
    cbn [map]. rewrite <- !app_assoc.
    change (js "{" ++ ?x) with (123 :: x). rewrite skipWs_head by done.
    change (123 =? 34) with false. change (123 =? 91) with false.
    change (123 =? 123) with true. cbn match.
    change (js "}" ++ rest) with (125 :: rest).
    change (member (k, v) :: map member ps) with (map member ((k, v) :: ps)).
    rewrite (app_assoc nl indent'), (app_assoc nl indent).
    assert (closes 125 (skipWs ((nl ++ indent') ++
              join (js "," ++ nl ++ indent') (map member ((k, v) :: ps))
              ++ (nl ++ indent) ++ 125 :: rest)) = None) as ->.
    { rewrite skipWs_app by (by apply isWs_nl_indent).
      destruct ps; cbn [map]; [cbn [join] | rewrite join_cons2];
        unfold member at 1; cbn [fst]; unfold quote at 1; rewrite <- !app_assoc;
        change (dq ++ quoteBody k ++ ?x) with (34 :: quoteBody k ++ x);
        rewrite skipWs_head by done; by apply closes_other. }
    unfold member.
    rewrite (parseMembers_join indent' (nl ++ indent) rest ((k, v) :: ps));
      [| done | done | done | done | by apply isWs_nl_indent
       | by apply isWs_nl_indent | lia].
    reflexivity.
Qed.

Lemma Forall_plain {A} (f : A -> jsvalue) (P : jsvalue -> Prop) xs :
  Forall (fun x => plain (f x) = true -> P (f x)) xs ->
  forallb (fun x => plain (f x)) xs = true ->
  Forall (fun x => P (f x)) xs.
Proof.
  induction 1 as [| x xs Hx _ IH]; [constructor |]. cbn [forallb].
  intros [Hp Hps]%andb_true_iff. constructor; [by apply Hx | by apply IH].
Qed.

Lemma join_length_bound {A} (m : A -> nat) (f : A -> list N) sep xs :
  Forall (fun x => (m x <= length (f x))%nat) xs -> (1 <= length sep)%nat ->
  (sum_list_with (fun x => S (m x)) xs <= S (length (join sep (map f xs))))%nat.
Proof.
  intros H Hsep. induction H as [| x xs Hx _ IH]; [cbn; lia |].
  destruct xs as [| x2 xs].
  - cbn. lia.
  - cbn [map]. rewrite join_cons2. cbn [sum_list_with map] in *.
    rewrite !length_app. lia.
Qed.

Lemma need_le_length indent v :
  plain v = true -> (need v <= length (serialize indent v))%nat.
Proof.
  revert indent.
  induction v as [| b | l | s | vs IH | ps IH] using jsvalue_ind';
    intros indent Hplain.
  - cbn. lia.
  - destruct b; cbn; lia.
  - done.
  - cbn [need serialize]. unfold quote. rewrite !length_app. cbn. lia.
  - cbn [need serialize plain] in *.
    set (indent' := indent ++ js "  ").
    assert (sum_list_with (fun x => S (need x)) vs
            <= S (length (join (js "," ++ nl ++ indent')
                            (map (serialize indent') vs))))%nat as Hb.
    { apply join_length_bound; [| cbn; lia].
      apply (Forall_plain (fun v => v)
               (fun v => (need v <= length (serialize indent' v))%nat));
        [| exact Hplain].
      eapply Forall_impl; [exact IH |]. cbv beta. intros x Hx. apply Hx. }
    destruct vs as [| v vs]; [cbn; lia |].
    unfold block. cbn [map] in Hb |- *. rewrite !length_app.
    change (length (js "[")) with 1%nat. change (length (js "]")) with 1%nat.
    change (length nl) with 1%nat. unfold indent' in *. lia.
  - cbn [need serialize plain] in *.
    apply andb_true_iff in Hplain as [_ Hplain].
    set (indent' := indent ++ js "  ").
    set (member := fun p : list N * jsvalue =>
                     quote (fst p) ++ js ": " ++ serialize indent' (snd p)).
    assert (sum_list_with (fun p => S (need (snd p))) ps
            <= S (length (join (js "," ++ nl ++ indent') (map member ps))))%nat as Hb.
    { apply join_length_bound; [| cbn; lia].
      pose proof (Forall_plain snd
                    (fun v => (need v <= length (serialize indent' v))%nat) ps) as HF.
      cbv beta in HF.
      eapply Forall_impl; [apply HF; [| exact Hplain] |].
      - eapply Forall_impl; [exact IH |]. cbv beta. intros x Hx. apply Hx.
      - cbv beta. intros x Hx. unfold member. rewrite !length_app. lia. }
    destruct ps as [| p ps]; [cbn; lia |].
    unfold block. cbn [map] in Hb |- *. rewrite !length_app.
    change (length (js "{")) with 1%nat. change (length (js "}")) with 1%nat.
    change (length nl) with 1%nat. unfold member, indent' in *. lia.
Qed.

(** [JSON.parse(JSON.stringify(v, null, 2))] is [v], for plain values. *)
Theorem parse_stringify v : plain v = true -> parse (stringify v) = Ok v.
Proof.
  intros Hplain. unfold parse, stringify.
  rewrite <- (app_nil_r (serialize [] v)) at 2.
  rewrite (serialize_reads_back v Hplain [] [] _ eq_refl).
  - cbn [mbind result_bind fst snd skipWs]. by rewrite Hplain.
  - pose proof (need_le_length [] v Hplain). lia.
Qed.

End JsonRoundTrip.

(** ** The fenced block of a response *)

Module FenceFacts.
Import Json Acquirer.

Lemma take_eq_length {A} (pat s : list A) :
  take (length pat) s = pat -> length pat <= length s.
Proof.
  intros H. apply (f_equal length) in H. rewrite length_take in H. lia.
Qed.

Lemma occurs_at_0 pat s : occurs_at pat s 0 <-> take (length pat) s = pat.
Proof.
  unfold occurs_at. rewrite drop_0. split; [by intros [_ ?] |].
  intros H. split; [| done]. apply take_eq_length in H. lia.
Qed.

Lemma occurs_at_S pat c s i : occurs_at pat (c :: s) (S i) <-> occurs_at pat s i.
Proof. unfold occurs_at. cbn [length drop]. split; intros [? ?]; (split; [lia | done]). Qed.

Lemma occurs_at_drop pat s n j :
  occurs_at pat (drop n s) j <-> occurs_at pat s (n + j) \/ (length s < n /\ pat = [] /\ j = 0).
Proof.
  unfold occurs_at. rewrite drop_drop, length_drop. split.
  - intros [Hlen Heq]. destruct (decide (n <= length s)); [left; split; [lia | done] |].
    right. rewrite drop_ge in Heq by lia. rewrite take_nil in Heq.
    subst pat. cbn in Hlen. repeat split; lia.
  - intros [[Hlen Heq] | (Hn & -> & ->)]; [split; [lia | done] |].
    split; [cbn; lia | by rewrite take_0].
Qed.

Lemma indexOf_Some pat s i :
  indexOf pat s = Some i ->
  occurs_at pat s i /\ forall j, j < i -> ~ occurs_at pat s j.
Proof.
  revert i. induction s as [| c s IH]; intros i; cbn [indexOf].
  - case_bool_decide as H; [| done]. intros [= <-].
    split; [by apply occurs_at_0 | intros; lia].
  - case_bool_decide as H.
    + intros [= <-]. split; [by apply occurs_at_0 | intros; lia].
    + destruct (indexOf pat s) as [i' |] eqn:Hi; [| done]. cbn. intros [= <-].
      destruct (IH i' eq_refl) as [Ho Hleast]. split; [by apply occurs_at_S |].
      intros [| j] Hj; [by rewrite occurs_at_0 |].
      rewrite occurs_at_S. apply Hleast. lia.
Qed.

Lemma indexOf_None pat s : indexOf pat s = None -> forall j, ~ occurs_at pat s j.
Proof.
  induction s as [| c s IH]; cbn [indexOf].
  - case_bool_decide as H; [done |]. intros _ j [Hlen Heq].
    destruct H. rewrite drop_nil, take_nil in Heq. by rewrite <- Heq.
  - case_bool_decide as H; [done |].
    destruct (indexOf pat s) eqn:Hi; [done |]. intros _ [| j].
    + by rewrite occurs_at_0.
    + rewrite occurs_at_S. by apply IH.
Qed.

(** [jsonRegex.exec] finds a block exactly when the response holds one. *)
Lemma jsonRegex_exec_None responseText :
  jsonRegex_exec responseText = None <-> ~ hasFence responseText.
Proof.
  unfold jsonRegex_exec, hasFence. split.
  - destruct (indexOf (js "```json") responseText) as [i |] eqn:Hi;
      cbn [mbind option_bind].
    + destruct (indexOf (js "```") (drop (i + 7) responseText)) eqn:Hj;
        cbn [mbind option_bind]; [done |].
      intros _ (p & q & Hp & Hq & Hpq).
      apply indexOf_Some in Hi as [_ Hleast].
      assert (i <= p).
      { destruct (decide (i <= p)); [done |]. destruct (Hleast p); [lia | done]. }
      apply (indexOf_None _ _ Hj (q - (i + 7))).
      apply occurs_at_drop. left. by replace (i + 7 + (q - (i + 7))) with q by lia.
    + intros _ (p & q & Hp & _). by apply (indexOf_None _ _ Hi p).
  - intros Hno.
    destruct (indexOf (js "```json") responseText) as [i |] eqn:Hi; [| done].
    cbn [mbind option_bind].
    destruct (indexOf (js "```") (drop (i + 7) responseText)) as [j |] eqn:Hj; [| done].
    destruct Hno. exists i, (i + 7 + j).
    apply indexOf_Some in Hi as [Hi _]. apply indexOf_Some in Hj as [Hj _].
    apply occurs_at_drop in Hj as [Hj | (_ & [=] & _)].
    split; [done | split; [done | lia]].
Qed.

End FenceFacts.

(** ** [JSON.parse] never runs out of fuel *)

Module JsonTotal.
Import ResultFacts Json JsonRoundTrip.

Local Open Scope N_scope.

Lemma skipWs_length s : (length (skipWs s) <= length s)%nat.
Proof.
  induction s as [| c s IH]; [done |]. cbn [skipWs].
  destruct (isWs c); cbn [length]; lia.
Qed.

Lemma parseString_length_aux n s k r :
  (length s <= n)%nat -> parseString s = Ok (k, r) -> (length r < length s)%nat.
Proof.
  revert s k r. induction n as [| n IH]; intros s k r Hn.
  { destruct s; [done | cbn in Hn; lia]. }
  destruct s as [| c s]; [done |]. cbn [parseString length] in *.
  destruct (c =? 34); [intros [= <- <-]; lia |].
  destruct (c =? 92).
  - destruct s as [| e s]; [done |]. cbn [length] in *.
    destruct (e =? 117).
    + destruct s as [| h1 [| h2 [| h3 [| h4 s]]]]; try done.
      destruct (hex4 h1 h2 h3 h4); [| done].
      rewrite bind_Ok. intros ([k' r'] & H & [= <- <-]). cbn [length] in *.
      apply IH in H; cbn [snd]; lia.
    + destruct (simpleEscape e); [| done].
      rewrite bind_Ok. intros ([k' r'] & H & [= <- <-]).
      apply IH in H; cbn [snd]; lia.
  - destruct (c <? 32); [done |].
    rewrite bind_Ok. intros ([k' r'] & H & [= <- <-]).
    apply IH in H; cbn [snd]; lia.
Qed.

Lemma parseString_length s k r :
  parseString s = Ok (k, r) -> (length r < length s)%nat.
Proof. by apply (parseString_length_aux (length s)). Qed.

Lemma parseString_fuel s : parseString s <> OutOfFuel.
Proof.
  assert (forall n s, (length s <= n)%nat -> parseString s <> OutOfFuel) as H;
    [| by apply (H (length s))].
  clear s. induction n as [| n IH]; intros s Hn.
  { destruct s; [done | cbn in Hn; lia]. }
  destruct s as [| c s]; [done |]. cbn [parseString length] in *.
  destruct (c =? 34); [done |].
  destruct (c =? 92).
  - destruct s as [| e s]; [done |]. cbn [length] in *.
    destruct (e =? 117).
    + destruct s as [| h1 [| h2 [| h3 [| h4 s]]]]; try done.
      destruct (hex4 h1 h2 h3 h4); [| done]. cbn [length] in *.
      apply bind_fuel; [apply IH; lia | done].
    + destruct (simpleEscape e); [| done].
      apply bind_fuel; [apply IH; lia | done].
  - destruct (c <? 32); [done |]. apply bind_fuel; [apply IH; lia | done].
Qed.

Lemma expect_length word v s v' r :
  (1 <= length word)%nat -> expect word v s = Ok (v', r) ->
  (length r < length s)%nat.
Proof.
  intros Hw. unfold expect. case_bool_decide as H; [| done].
  intros [= <- <-]. apply FenceFacts.take_eq_length in H.
  rewrite length_drop. lia.
Qed.

Lemma expect_fuel word v s : expect word v s <> OutOfFuel.
Proof. unfold expect. by case_bool_decide. Qed.

Lemma closes_Some c s r : closes c s = Some r -> (length s = S (length r))%nat.
Proof.
  destruct s as [| d s]; [done |]. cbn. destruct (d =? c); [| done].
  by intros [= ->].
Qed.

Lemma digitRun_length s : (length (snd (digitRun s)) <= length s)%nat.
Proof.
  induction s as [| c s IH]; [done |]. cbn [digitRun].
  destruct (isDecimal c); cbn [snd length]; lia.
Qed.

Lemma intPart_length s l r : intPart s = Some (l, r) -> (length r < length s)%nat.
Proof.
  destruct s as [| c s]; [done |]. cbn [intPart].
  pose proof (digitRun_length s). destruct (c =? 48).
  - intros [= _ <-]. cbn. lia.
  - destruct (isDecimal c); [| done]. intros [= _ <-]. cbn. lia.
Qed.

Lemma fracPart_length s l r : fracPart s = Some (l, r) -> (length r <= length s)%nat.
Proof.
  destruct s as [| c s]; [by intros [= _ <-] |]. cbn [fracPart].
  pose proof (digitRun_length s). destruct (c =? 46).
  - destruct (fst (digitRun s)); [done |]. intros [= _ <-]. cbn. lia.
  - by intros [= _ <-].
Qed.

Lemma expPart_length s l r : expPart s = Some (l, r) -> (length r <= length s)%nat.
Proof.
  destruct s as [| c s]; [by intros [= _ <-] |]. cbn [expPart].
  destruct ((c =? 101) || (c =? 69)); [| by intros [= _ <-]].
  cbv zeta.
  assert (forall signed : list N * list N,
            (length (snd signed) <= length s)%nat ->
            match fst (digitRun (snd signed)) with
            | [] => None
            | n :: l0 =>
                Some (c :: fst signed ++ n :: l0, snd (digitRun (snd signed)))
            end = Some (l, r) -> (length r <= length (c :: s))%nat) as Hgen.
  { intros signed Hs. pose proof (digitRun_length (snd signed)).
    destruct (fst (digitRun (snd signed))); [done |].
    intros [= _ <-]. cbn. lia. }
  apply Hgen. destruct s as [| d s]; [done |].
  destruct ((d =? 43) || (d =? 45)); cbn; lia.
Qed.

Lemma parseNumber_length s l r :
  parseNumber s = Some (l, r) -> (length r < length s)%nat.
Proof.
  unfold parseNumber. cbv zeta.
  set (signed := match s with
                 | c :: rest => if c =? 45 then ([c], rest) else ([], s)
                 | [] => ([], [])
                 end).
  assert (length (snd signed) <= length s)%nat as Hs.
  { unfold signed. destruct s as [| c s]; [done |].
    destruct (c =? 45); cbn; lia. }
  destruct (intPart (snd signed)) as [[li ri] |] eqn:Hi; [| done].
  apply intPart_length in Hi. cbn [mbind option_bind fst snd].
  destruct (fracPart ri) as [[lf rf] |] eqn:Hf; [| done].
  apply fracPart_length in Hf. cbn [mbind option_bind fst snd].
  destruct (expPart rf) as [[le re] |] eqn:He; [| done].
  apply expPart_length in He. cbn [mbind option_bind fst snd].
  intros [= _ <-]. lia.
Qed.

Lemma parse_consumes fuel :
  (forall s v r, parseValue fuel s = Ok (v, r) -> (length r < length s)%nat) /\
  (forall s vs r, parseElements fuel s = Ok (vs, r) -> (length r < length s)%nat) /\
  (forall s ps r, parseMembers fuel s = Ok (ps, r) -> (length r < length s)%nat).
Proof.
  induction fuel as [| fuel (IHv & IHe & IHm)]; [done |]. split; [| split].
  - intros s v r. rewrite parseValue_S. pose proof (skipWs_length s) as Hs.
    destruct (skipWs s) as [| c rest]; [done |]. cbn [length] in Hs.
    pose proof (skipWs_length rest) as Hrest.
    destruct (c =? 34).
    { rewrite bind_Ok. intros ([k r'] & Hk & [= <- <-]).
      apply parseString_length in Hk. lia. }
    destruct (c =? 91).
    { destruct (closes 93 (skipWs rest)) eqn:Hc.
      - intros [= <- <-]. apply closes_Some in Hc. lia.
      - rewrite bind_Ok. intros ([vs r'] & He & [= <- <-]). apply IHe in He. lia. }
    destruct (c =? 123).
    { destruct (closes 125 (skipWs rest)) eqn:Hc.
      - intros [= <- <-]. apply closes_Some in Hc. lia.
      - rewrite bind_Ok. intros ([ps r'] & Hm & [= <- <-]). apply IHm in Hm. lia. }
    destruct (c =? 116).
    { intros H. apply expect_length in H; [cbn [length] in H; lia | cbn; lia]. }
    destruct (c =? 102).
    { intros H. apply expect_length in H; [cbn [length] in H; lia | cbn; lia]. }
    destruct (c =? 110).
    { intros H. apply expect_length in H; [cbn [length] in H; lia | cbn; lia]. }
    destruct ((c =? 45) || _); [| done].
    destruct (parseNumber (c :: rest)) as [[l r'] |] eqn:Hn; [| done].
    intros [= <- <-]. apply parseNumber_length in Hn. cbn [length] in Hn. lia.
  - intros s vs r. rewrite parseElements_S, bind_Ok.
    intros ([v r1] & Hv & H). apply IHv in Hv. cbn [fst snd] in H.
    pose proof (skipWs_length r1) as Hr1.
    destruct (skipWs r1) as [| c rest]; [done |]. cbn [length] in Hr1.
    destruct (c =? 44).
    { apply bind_Ok in H as ([vs' r'] & He & [= <- <-]). apply IHe in He. lia. }
    destruct (c =? 93); [| done]. injection H as <- <-. lia.
  - intros s ps r. rewrite parseMembers_S. pose proof (skipWs_length s) as Hs.
    destruct (closes 34 (skipWs s)) as [rest |] eqn:Hc; [| done].
    apply closes_Some in Hc. rewrite bind_Ok.
    intros ([k r1] & Hk & H). apply parseString_length in Hk. cbn [fst snd] in H.
    pose proof (skipWs_length r1) as Hr1.
    destruct (closes 58 (skipWs r1)) as [rest' |] eqn:Hc'; [| done].
    apply closes_Some in Hc'. apply bind_Ok in H as ([v r2] & Hv & H).
    apply IHv in Hv. cbn [fst snd] in H.
    pose proof (skipWs_length r2) as Hr2.
    destruct (skipWs r2) as [| c rest'']; [done |]. cbn [length] in Hr2.
    destruct (c =? 44).
    { apply bind_Ok in H as ([ps' r'] & Hm & [= <- <-]). apply IHm in Hm. lia. }
    destruct (c =? 125); [| done]. injection H as <- <-. lia.
Qed.

Lemma parse_fuel fuel :
  (forall s, (2 * length s + 1 <= fuel)%nat -> parseValue fuel s <> OutOfFuel) /\
  (forall s, (2 * length s + 2 <= fuel)%nat -> parseElements fuel s <> OutOfFuel) /\
  (forall s, (2 * length s + 2 <= fuel)%nat -> parseMembers fuel s <> OutOfFuel).
Proof.
  induction fuel as [| fuel (IHv & IHe & IHm)]; [repeat split; intros; lia |].
  destruct (parse_consumes fuel) as (Cv & Ce & Cm).
  split; [| split].
  - intros s Hf. rewrite parseValue_S. pose proof (skipWs_length s) as Hs.
    destruct (skipWs s) as [| c rest]; [done |]. cbn [length] in Hs.
    pose proof (skipWs_length rest) as Hrest.
    destruct (c =? 34).
    { apply bind_fuel; [apply parseString_fuel | done]. }
    destruct (c =? 91).
    { destruct (closes 93 (skipWs rest)); [done |].
      apply bind_fuel; [apply IHe; lia | done]. }
    destruct (c =? 123).
    { destruct (closes 125 (skipWs rest)); [done |].
      apply bind_fuel; [apply IHm; lia | done]. }
    destruct (c =? 116); [apply expect_fuel |].
    destruct (c =? 102); [apply expect_fuel |].
    destruct (c =? 110); [apply expect_fuel |].
    destruct ((c =? 45) || _); [| done].
    by destruct (parseNumber (c :: rest)).
  - intros s Hf. rewrite parseElements_S.
    apply bind_fuel; [apply IHv; lia |]. intros [v r1] Hv. apply Cv in Hv.
    cbn [fst snd]. pose proof (skipWs_length r1) as Hr1.
    destruct (skipWs r1) as [| c rest]; [done |]. cbn [length] in Hr1.
    destruct (c =? 44).
    { apply bind_fuel; [apply IHe; lia | done]. }
    by destruct (c =? 93).
  - intros s Hf. rewrite parseMembers_S. pose proof (skipWs_length s) as Hs.
    destruct (closes 34 (skipWs s)) as [rest |] eqn:Hc; [| done].
    apply closes_Some in Hc.
    apply bind_fuel; [apply parseString_fuel |]. intros [k r1] Hk.
    apply parseString_length in Hk. cbn [fst snd].
    pose proof (skipWs_length r1) as Hr1.
    destruct (closes 58 (skipWs r1)) as [rest' |] eqn:Hc'; [| done].
    apply closes_Some in Hc'.
    apply bind_fuel; [apply IHv; lia |]. intros [v r2] Hv. apply Cv in Hv.
    cbn [fst snd]. pose proof (skipWs_length r2) as Hr2.
    destruct (skipWs r2) as [| c rest'']; [done |]. cbn [length] in Hr2.
    destruct (c =? 44).
    { apply bind_fuel; [apply IHm; lia | done]. }
    by destruct (c =? 125).
Qed.

(** What [JSON.parse] returns is in the fragment, so it survives being
    written and read again. *)
Theorem parse_returns_plain text v : parse text = Ok v -> plain v = true.
Proof.
  unfold parse. rewrite bind_Ok. intros ([v' r] & H & Hend). cbn [fst snd] in Hend.
  destruct (skipWs r); [| done]. destruct (plain v') eqn:Hp; [| done].
  by injection Hend as <-.
Qed.

(** [JSON.parse] answers on every text: a value, a [SyntaxError], or
    [Beyond] where the text leaves the fragment. *)
Theorem parse_total text : parse text <> OutOfFuel.
Proof.
  unfold parse. apply bind_fuel.
  - apply (proj1 (parse_fuel _)). lia.
  - intros [v r] _. cbn [fst snd]. destruct (skipWs r); [| done].
    by destruct (plain v).
Qed.

End JsonTotal.


(** ** Paths and the file system *)

Module PathFacts.
Import Acquirer.

Lemma chunks_cons s : exists seg segs, chunks s = seg :: segs.
Proof.
  destruct s as [| c s]; [by eexists _, _ |]. cbn [chunks].
  destruct (c =? 47)%N; [by eexists _, _ |].
  destruct (chunks s); by eexists _, _.
Qed.

Lemma chunks_app a b : chunks (a ++ 47%N :: b) = chunks a ++ chunks b.
Proof.
  induction a as [| c a IH]; [done |]. cbn [app chunks]. rewrite IH.
  destruct (c =? 47)%N; [done |].
  by destruct (chunks_cons a) as (seg & segs & ->).
Qed.

Lemma segments_join a b : segments (path_join a b) = segments a ++ segments b.
Proof.
  unfold segments, path_join. change (js "/" ++ b) with (47%N :: b).
  by rewrite chunks_app, filter_app.
Qed.

Lemma filePath_eq storagePath versionNumber :
  filePath storagePath versionNumber
  = segments storagePath ++ segments (fileName versionNumber).
Proof. apply segments_join. Qed.

Lemma chunks_plain s : forallb (fun c => negb (c =? 47)%N) s = true -> chunks s = [s].
Proof.
  induction s as [| c s IH]; [done |]. cbn [forallb chunks].
  intros [Hc Hs]%andb_true_iff. apply negb_true_iff in Hc. by rewrite Hc, IH.
Qed.

Lemma fileName_head versionNumber :
  fileName versionNumber
  = 99%N :: js "hromeReleaseNotes_" ++ versionNumber ++ js ".json".
Proof. reflexivity. Qed.

(** The file of a version with no separator lies in the storage folder
    itself, under its file name. *)
Lemma segments_fileName_plain versionNumber :
  plainVersion versionNumber = true ->
  segments (fileName versionNumber) = [fileName versionNumber].
Proof.
  intros Hv. unfold segments. rewrite chunks_plain.
  - rewrite fileName_head. rewrite filter_cons_True; [done |].
    split; [done |]. by intros [= ? _].
  - unfold fileName. rewrite !forallb_app. unfold plainVersion in Hv.
    by rewrite Hv.
Qed.

(** The file of any version lies under the storage folder. *)
Lemma segments_fileName_cons versionNumber :
  exists s rest, segments (fileName versionNumber) = s :: rest.
Proof.
  unfold segments. rewrite fileName_head. cbn [chunks].
  change (99 =? 47)%N with false. cbv iota.
  destruct (chunks_cons (js "hromeReleaseNotes_" ++ versionNumber ++ js ".json"))
    as (seg & segs & ->).
  rewrite filter_cons_True; [by eexists _, _ |].
  split; [done |]. by intros [= ? _].
Qed.

Lemma sound_app p q : sound (p ++ q) = sound p && sound q.
Proof. apply forallb_app. Qed.

Lemma resolve_sound s : sound (segments s) = true -> resolve s = Ok (segments s).
Proof. unfold resolve. by intros ->. Qed.

Lemma resolve_unsound s : sound (segments s) = false -> resolve s = Beyond.
Proof. unfold resolve. by intros ->. Qed.

End PathFacts.

Module TreeFacts.
Import ResultFacts Acquirer.

Implicit Types (p q : path) (es : gmap (list N) node).

Lemma kind_at_empty q : q <> [] -> kind_at q ∅ = Missing.
Proof. destruct q as [| s q]; [done |]. intros _. cbn. by rewrite lookup_empty. Qed.

(** What stands above something is a folder. *)
Lemma kind_at_above p r es :
  r <> [] -> kind_at (p ++ r) es <> Missing -> kind_at p es = Folder.
Proof.
  intros Hr. revert es. induction p as [| s p IH]; intros es; [done |].
  cbn [app kind_at]. destruct (es !! s) as [[data | sub] |]; [| apply IH | done].
  destruct (p ++ r) eqn:Hpr; [| done].
  apply app_eq_nil in Hpr as [_ ->]. done.
Qed.

Lemma kind_at_prefix p q es :
  q `prefix_of` p -> kind_at p es = Folder -> kind_at q es = Folder.
Proof.
  intros [r ->] Hp. destruct r as [| s r]; [by rewrite app_nil_r in Hp |].
  apply (kind_at_above q (s :: r)); [done | by rewrite Hp].
Qed.

(** *** Writing a file *)

Lemma put_file_cons s t p data es :
  put_file (s :: t :: p) data es =
  match es !! s with
  | Some (Dir sub) => sub' ← put_file (t :: p) data sub; Ok (<[s := Dir sub']> es)
  | Some (File _) => Throw (HostError (js "ENOTDIR"))
  | None => Throw (HostError (js "ENOENT"))
  end.
Proof. reflexivity. Qed.

Lemma put_file_one s data es :
  put_file [s] data es =
  match es !! s with
  | Some (Dir _) => Throw (HostError (js "EISDIR"))
  | _ => Ok (<[s := File data]> es)
  end.
Proof. reflexivity. Qed.

(** After a write the file is at its path and all else stands as before. *)
Lemma kind_at_put p data es es' :
  put_file p data es = Ok es' ->
  forall q, kind_at q es' = if decide (q = p) then RegularFile data else kind_at q es.
Proof.
  revert es es'. induction p as [| s p IH]; intros es es'; [done |].
  destruct p as [| t p].
  - rewrite put_file_one. intros Hput q.
    assert (es' = <[s := File data]> es /\ forall sub, es !! s <> Some (Dir sub))
      as [-> Hs].
    { destruct (es !! s) as [[d0 | sub] |]; [| done |]; by injection Hput as <-. }
    destruct q as [| u q]; [by rewrite decide_False by done |]. cbn [kind_at].
    destruct (decide (u = s)) as [-> | Hu].
    + rewrite lookup_insert_eq. destruct q as [| u' q].
      * by rewrite decide_True by done.
      * rewrite decide_False by (by intros [= ?]).
        destruct (es !! s) as [[d0 | sub] |] eqn:Hes; [done | | done].
        by destruct (Hs sub).
    + rewrite lookup_insert_ne by done.
      by rewrite decide_False by (by intros [= ? ?]).
  - rewrite put_file_cons. intros Hput q.
    destruct (es !! s) as [[d0 | sub] |] eqn:Hes; [done | | done].
    apply bind_Ok in Hput as (sub' & Hsub & [= <-]).
    destruct q as [| u q]; [by rewrite decide_False by done |]. cbn [kind_at].
    destruct (decide (u = s)) as [-> | Hu].
    + rewrite lookup_insert_eq, Hes, (IH _ _ Hsub q).
      by repeat case_decide; simplify_eq.
    + rewrite lookup_insert_ne by done.
      by rewrite decide_False by (by intros [= ? ?]).
Qed.

(** A write goes through where the folder is there and no folder stands
    at the path of the file. *)
Lemma put_file_Ok q s data es :
  kind_at q es = Folder -> kind_at (q ++ [s]) es <> Folder ->
  exists es', put_file (q ++ [s]) data es = Ok es'.
Proof.
  revert es. induction q as [| t q IH]; intros es Hq Hfile.
  - cbn [app] in *. rewrite put_file_one. cbn [kind_at] in Hfile.
    destruct (es !! s) as [[d0 | sub] |]; [by eexists | done | by eexists].
  - cbn [app kind_at] in *.
    assert (exists u r, q ++ [s] = u :: r) as (u & r & Hqs).
    { destruct q; by eexists _, _. }
    rewrite Hqs in *. rewrite put_file_cons.
    destruct (es !! t) as [[d0 | sub] |]; [by destruct q | | done].
    rewrite <- Hqs in *. destruct (IH sub Hq Hfile) as [sub' ->]. by eexists.
Qed.


(** *** Making folders *)

Lemma kind_at_make p es es' :
  make_dirs p es = Ok es' ->
  forall q, kind_at q es' = if decide (q `prefix_of` p) then Folder else kind_at q es.
Proof.
  revert es es'. induction p as [| s p IH]; intros es es'.
  - intros [= <-] q. destruct (decide (q `prefix_of` [])) as [Hq | Hq]; [| done].
    by apply prefix_nil_inv in Hq as ->.
  - cbn [make_dirs]. intros Hmake q.
    assert (exists sub sub', make_dirs p sub = Ok sub' /\ es' = <[s := Dir sub']> es /\
              (es !! s = Some (Dir sub) \/ (es !! s = None /\ sub = ∅)))
      as (sub & sub' & Hsub & -> & Hes).
    { destruct (es !! s) as [[d0 | sub] |].
      - by destruct p.
      - apply bind_Ok in Hmake as (sub' & Hsub & [= <-]). eauto 10.
      - apply bind_Ok in Hmake as (sub' & Hsub & [= <-]). eauto 10. }
    destruct q as [| u q].
    { rewrite decide_True; [done | apply prefix_nil]. }
    cbn [kind_at]. destruct (decide (u = s)) as [-> | Hu].
    + rewrite lookup_insert_eq, (IH _ _ Hsub q).
      destruct (decide (q `prefix_of` p)) as [Hq | Hq].
      * rewrite decide_True; [done | by apply prefix_cons].
      * rewrite decide_False by (by intros ?%prefix_cons_inv_2).
        destruct Hes as [-> | [-> ->]]; [done |].
        apply kind_at_empty. intros ->. apply Hq, prefix_nil.
    + rewrite lookup_insert_ne by done.
      by rewrite decide_False by (by intros ?%prefix_cons_inv_1).
Qed.

Lemma make_dirs_Ok p es : blocked p es = false -> exists es', make_dirs p es = Ok es'.
Proof.
  revert es. induction p as [| s p IH]; intros es; [by eexists |].
  cbn [blocked make_dirs]. destruct (es !! s) as [[d0 | sub] |]; [done | |].
  - intros H. destruct (IH sub H) as [sub' ->]. by eexists.
  - intros _. destruct (IH ∅) as [sub' ->]; [| by eexists].
    destruct p; [done |]. cbn. by rewrite lookup_empty.
Qed.

Lemma make_dirs_Throw p es : blocked p es = true -> exists e, make_dirs p es = Throw e.
Proof.
  revert es. induction p as [| s p IH]; intros es; [done |].
  cbn [blocked make_dirs]. destruct (es !! s) as [[d0 | sub] |]; [| | done].
  - intros _. destruct p; by eexists.
  - intros H. destruct (IH sub H) as [e ->]. by eexists.
Qed.

Lemma blocked_app p r es : blocked p es = true -> blocked (p ++ r) es = true.
Proof.
  revert es. induction p as [| s p IH]; intros es; [done |].
  cbn [app blocked]. destruct (es !! s) as [[d0 | sub] |]; [done | apply IH | done].
Qed.

Lemma blocked_file p data es : kind_at p es = RegularFile data -> blocked p es = true.
Proof.
  revert es. induction p as [| s p IH]; intros es; [done |].
  cbn [kind_at blocked]. destruct (es !! s) as [[d0 | sub] |]; [done | apply IH | done].
Qed.

Lemma blocked_folder p es : kind_at p es = Folder -> blocked p es = false.
Proof.
  revert es. induction p as [| s p IH]; intros es; [done |].
  cbn [kind_at blocked]. destruct (es !! s) as [[d0 | sub] |]; [| apply IH | done].
  by destruct p.
Qed.



(** *** Reading *)

Lemma read_at_file p data es : kind_at p es = RegularFile data -> read_at p es = Ok data.
Proof.
  revert es. induction p as [| s p IH]; intros es; [done |].
  cbn [kind_at read_at]. destruct (es !! s) as [[d0 | sub] |]; [| apply IH | done].
  destruct p; [| done]. by intros [= ->].
Qed.

Lemma read_at_folder p es :
  kind_at p es = Folder -> read_at p es = Throw (HostError (js "EISDIR")).
Proof.
  revert es. induction p as [| s p IH]; intros es; [done |].
  cbn [kind_at read_at]. destruct (es !! s) as [[d0 | sub] |]; [| apply IH | done].
  by destruct p.
Qed.

(** *** Taking a file away *)

Lemma kind_at_unlink p data es :
  kind_at p es = RegularFile data ->
  forall q, kind_at q (unlink p es) = if decide (q = p) then Missing else kind_at q es.
Proof.
  revert es. induction p as [| s p IH]; intros es; [done |].
  cbn [kind_at unlink]. intros Hp q.
  destruct (es !! s) as [[d0 | sub] |] eqn:Hes; [| | done].
  - destruct p as [| t p]; [| done].
    destruct q as [| u q]; [by rewrite decide_False by done |]. cbn [kind_at].
    destruct (decide (u = s)) as [-> | Hu].
    + rewrite lookup_delete_eq, Hes. destruct q as [| u' q].
      * by rewrite decide_True by done.
      * by rewrite decide_False by (by intros [= ?]).
    + rewrite lookup_delete_ne by done.
      by rewrite decide_False by (by intros [= ? ?]).
  - destruct q as [| u q]; [by rewrite decide_False by done |]. cbn [kind_at].
    destruct (decide (u = s)) as [-> | Hu].
    + rewrite lookup_insert_eq, Hes, (IH _ Hp q).
      by repeat case_decide; simplify_eq.
    + rewrite lookup_insert_ne by done.
      by rewrite decide_False by (by intros [= ? ?]).
Qed.

End TreeFacts.

(** ** The acquirer, path by path *)

Module AcquirerFacts.
Import ResultFacts Json Acquirer JsonRoundTrip FenceFacts JsonTotal PathFacts TreeFacts.

Lemma M_bind_eq {A B} (m : M A) (f : A -> M B) w :
  (m ≫= f) w =
  match m w with
  | (Ok a, w') => f a w'
  | (Throw e, w') => (Throw e, w')
  | (Beyond, w') => (Beyond, w')
  | (OutOfFuel, w') => (OutOfFuel, w')
  end.
Proof. reflexivity. Qed.

Lemma parseReleaseNotesWithCopilot_eq env sections w :
  parseReleaseNotesWithCopilot env sections w =
  (inferred env sections,
   MkWorld (fs w) (denied w) (calls w ++ inferCalls env sections)).
Proof.
  unfold parseReleaseNotesWithCopilot, inferred, inferCalls.
  unfold mbind, M_bind, call, lift, mret, M_ret. cbn [fs denied calls].
  destruct (selectChatModels env) as [| model others]; [done |].
  cbn [fs denied calls]. rewrite <- app_assoc. cbn [app].
  by destruct (model _).
Qed.

(** *** The first step: the storage folder *)

Lemma existsSync_sound s w :
  sound (segments s) = true -> existsSync s w = (Ok (exists_at (segments s) w), w).
Proof. intros H. unfold existsSync. rewrite M_bind_eq. unfold lift. by rewrite resolve_sound. Qed.

Lemma existsSync_unsound s w :
  sound (segments s) = false -> existsSync s w = (Beyond, w).
Proof. intros H. unfold existsSync. rewrite M_bind_eq. unfold lift. by rewrite resolve_unsound. Qed.

Lemma ensureFolder_eq storagePath w :
  ensureFolder storagePath w =
  if sound (segments storagePath) then
    if exists_at (segments storagePath) w then (Ok tt, w)
    else mkdir_at (segments storagePath) w
  else (Beyond, w).
Proof.
  unfold ensureFolder. rewrite M_bind_eq.
  destruct (sound (segments storagePath)) eqn:Hs.
  - rewrite existsSync_sound by done.
    destruct (exists_at _ w); [done |].
    unfold mkdirSync. rewrite M_bind_eq. unfold lift. by rewrite resolve_sound.
  - by rewrite existsSync_unsound.
Qed.

Lemma calls_ensured sp w : calls (ensured sp w) = calls w.
Proof.
  unfold ensured. destruct (kind_at _ _); [| done..]. by destruct (make_dirs _ _).
Qed.

Lemma denied_ensured sp w : denied (ensured sp w) = denied w.
Proof.
  unfold ensured. destruct (kind_at _ _); [| done..]. by destruct (make_dirs _ _).
Qed.

Lemma ensurable_inv sp w :
  ensurable sp w = true ->
  sound (segments sp) = true /\ blocked (segments sp) (fs w) = false /\
  (kind_at (segments sp) (fs w) = Folder \/
   (kind_at (segments sp) (fs w) = Missing /\ refused (segments sp) w = false)).
Proof.
  unfold ensurable, isFolder. intros [[Hs Hb]%andb_true_iff Hf]%andb_true_iff.
  apply negb_true_iff in Hb. split; [done |]. split; [done |].
  destruct (kind_at (segments sp) (fs w)) eqn:Hk.
  - right. split; [done |]. cbn [orb] in Hf. by apply negb_true_iff in Hf.
  - apply blocked_file in Hk. congruence.
  - by left.
Qed.

(** Where the folder is there or can be made, the first step returns and
    the folder is there. *)
Lemma ensure_ok sp w :
  ensurable sp w = true -> ensureFolder sp w = (Ok tt, ensured sp w).
Proof.
  intros (Hs & Hb & Hk)%ensurable_inv. rewrite ensureFolder_eq, Hs.
  unfold exists_at, ensured, mkdir_at.
  destruct Hk as [-> | [-> Hd]]; [done |].
  destruct (make_dirs_Ok _ _ Hb) as [es ->].
  by rewrite Hd.
Qed.

Lemma kind_ensured sp w :
  ensurable sp w = true ->
  forall q, kind_at q (fs (ensured sp w)) =
            if decide (q `prefix_of` segments sp) then Folder else kind_at q (fs w).
Proof.
  intros (Hs & Hb & Hk)%ensurable_inv q. unfold ensured.
  destruct Hk as [Hk | [Hk Hd]]; rewrite Hk.
  - case_decide as Hq; [| done]. by apply (kind_at_prefix (segments sp)).
  - destruct (make_dirs_Ok _ _ Hb) as [es Hes]. rewrite Hes. cbn [fs].
    by apply kind_at_make.
Qed.

Lemma folder_ensured sp w :
  ensurable sp w = true -> kind_at (segments sp) (fs (ensured sp w)) = Folder.
Proof. intros H. rewrite kind_ensured by done. by rewrite decide_True. Qed.

(** Making the folder changes no regular file. *)
Lemma fileAt_ensured sp w q : fileAt q (ensured sp w) = fileAt q w.
Proof.
  unfold ensured, fileAt. destruct (sound q); [| done].
  destruct (kind_at (segments sp) (fs w)) eqn:Hk; [| done..].
  destruct (make_dirs (segments sp) (fs w)) as [es | | |] eqn:Hes; [| done..].
  cbn [fs]. rewrite (kind_at_make _ _ _ Hes q).
  case_decide as Hq; [| done].
  destruct (kind_at q (fs w)) as [| data |] eqn:Hq'; [done | | done].
  apply blocked_file in Hq'. destruct Hq as [r Hr].
  apply (blocked_app _ r) in Hq'. rewrite <- Hr in Hq'.
  destruct (make_dirs_Throw _ _ Hq') as [e He]. congruence.
Qed.

(** Where it is not, the step fails and changes nothing, or finds a regular
    file at the path and goes on. *)
Lemma ensure_fail sp w :
  ensurable sp w = false ->
  (exists r, ensureFolder sp w = (r, w) /\ r <> Ok tt) \/
  (ensureFolder sp w = (Ok tt, w) /\ sound (segments sp) = true /\
   blocked (segments sp) (fs w) = true).
Proof.
  unfold ensurable, isFolder. rewrite ensureFolder_eq.
  destruct (sound (segments sp)) eqn:Hs; [| intros _; left; by eexists].
  cbn [andb]. unfold exists_at, mkdir_at.
  destruct (blocked (segments sp) (fs w)) eqn:Hb; cbn [negb andb].
  - intros _. destruct (kind_at (segments sp) (fs w)) eqn:Hk.
    + destruct (make_dirs_Throw _ _ Hb) as [e ->]. left. by eexists.
    + by right.
    + apply blocked_folder in Hk. congruence.
  - destruct (kind_at (segments sp) (fs w)) eqn:Hk; cbn [orb].
    + intros Hd%negb_false_iff. destruct (make_dirs_Ok _ _ Hb) as [es ->].
      rewrite Hd. left. by eexists.
    + apply blocked_file in Hk. congruence.
    + done.
Qed.

(** *** The look into the store *)

Lemma readExisting_eq s w :
  readExisting s w =
  if sound (segments s) then
    match kind_at (segments s) (fs w) with
    | Missing => (Ok None, w)
    | RegularFile data =>
        (match tryParse data with
         | Some r => Some <$> r
         | None => Ok None
         end, w)
    | Folder => (Throw (HostError (js "EISDIR")), w)
    end
  else (Beyond, w).
Proof.
  unfold readExisting. rewrite M_bind_eq.
  destruct (sound (segments s)) eqn:Hs; [| by rewrite existsSync_unsound].
  rewrite existsSync_sound by done. unfold exists_at.
  destruct (kind_at (segments s) (fs w)) eqn:Hk; [done | |].
  - rewrite M_bind_eq. unfold readFileSync. rewrite M_bind_eq. unfold lift.
    rewrite resolve_sound by done. rewrite (read_at_file _ _ _ Hk).
    by destruct (tryParse data).
  - rewrite M_bind_eq. unfold readFileSync. rewrite M_bind_eq. unfold lift.
    rewrite resolve_sound by done. by rewrite (read_at_folder _ _ Hk).
Qed.

Lemma readExisting_world s w : snd (readExisting s w) = w.
Proof.
  rewrite readExisting_eq. destruct (sound _); [| done].
  by destruct (kind_at _ _).
Qed.

Lemma fileAt_Some p w data :
  fileAt p w = Some data <-> sound p = true /\ kind_at p (fs w) = RegularFile data.
Proof.
  unfold fileAt. destruct (sound p); [| by split; [| intros [? _]]].
  destruct (kind_at p (fs w)); split; try done; try (by intros [_ ?]).
  - by intros [= ->].
  - by intros [_ [= ->]].
Qed.


(** *** The whole function *)

Lemma run_eq env versionNumber url storagePath w :
  getOrCreateReleaseNotes env versionNumber url storagePath w =
  match ensureFolder storagePath w with
  | (Ok _, w1) =>
      match readExisting (path_join storagePath (fileName versionNumber)) w1 with
      | (Ok (Some parsed), w2) => (Ok parsed, w2)
      | (Ok None, w2) =>
          acquireAndStore env url (path_join storagePath (fileName versionNumber)) w2
      | (Throw e, w2) => (Throw e, w2)
      | (Beyond, w2) => (Beyond, w2)
      | (OutOfFuel, w2) => (OutOfFuel, w2)
      end
  | (Throw e, w1) => (Throw e, w1)
  | (Beyond, w1) => (Beyond, w1)
  | (OutOfFuel, w1) => (OutOfFuel, w1)
  end.
Proof.
  unfold getOrCreateReleaseNotes. rewrite M_bind_eq.
  destruct (ensureFolder storagePath w) as [[[] | e | |] w1]; [| done..].
  cbv zeta. rewrite M_bind_eq.
  destruct (readExisting _ w1) as [[[parsed |] | e | |] w2]; done.
Qed.

(** The branch that acquires: its result, its calls, and the write. *)
Lemma acquireAndStore_eq env url s w :
  acquireAndStore env url s w =
  match html ← axios_get env url; inferred env (parseHTMLwithCheerio env html) with
  | Ok newData =>
      (_ ← writeFileSync s (stringify newData); mret newData)
        (MkWorld (fs w) (denied w) (calls w ++ acquireCalls env url))
  | Throw e => (Throw e, MkWorld (fs w) (denied w) (calls w ++ acquireCalls env url))
  | Beyond => (Beyond, MkWorld (fs w) (denied w) (calls w ++ acquireCalls env url))
  | OutOfFuel => (OutOfFuel, MkWorld (fs w) (denied w) (calls w ++ acquireCalls env url))
  end.
Proof.
  unfold acquireAndStore, acquireCalls, fetchReleaseNotesHTML.
  rewrite !M_bind_eq. unfold call, lift. cbn [fs denied calls].
  destruct (axios_get env url) as [html | e | |]; cbn [mbind result_bind]; try done.
  cbv zeta. rewrite M_bind_eq, parseReleaseNotesWithCopilot_eq. cbn [fs denied calls].
  rewrite <- app_assoc. cbn [app].
  by destruct (inferred env (parseHTMLwithCheerio env html)).
Qed.

Lemma writeFileSync_eq s data w :
  writeFileSync s data w =
  if sound (segments s) then write_at (segments s) data w else (Beyond, w).
Proof.
  unfold writeFileSync. rewrite M_bind_eq. unfold lift, resolve.
  by destruct (sound (segments s)).
Qed.

Lemma write_at_Ok p data w w' :
  write_at p data w = (Ok tt, w') ->
  exists es, put_file p data (fs w) = Ok es /\ (p ∉ denied w) /\
             w' = MkWorld es (denied w) (calls w).
Proof.
  unfold write_at. destruct (put_file p data (fs w)) as [es | | |]; [| done..].
  case_bool_decide; [done |]. intros [= <-]. eauto.
Qed.

(** A write changes nothing when it fails. *)
Lemma write_at_world p data w : fst (write_at p data w) <> Ok tt -> snd (write_at p data w) = w.
Proof.
  unfold write_at. destruct (put_file p data (fs w)) as [es | | |]; [| done..].
  by case_bool_decide.
Qed.


(** *** The file of a version *)

Lemma filePath_split sp v : exists s rest, filePath sp v = segments sp ++ s :: rest.
Proof.
  rewrite filePath_eq. destruct (segments_fileName_cons v) as (s & rest & ->). eauto.
Qed.

Lemma filePath_not_prefix sp v : ~ filePath sp v `prefix_of` segments sp.
Proof.
  destruct (filePath_split sp v) as (s & rest & ->). intros [r Hr].
  apply (f_equal length) in Hr. rewrite !length_app in Hr. cbn [length] in Hr. lia.
Qed.

Lemma filePath_not_storage sp v : segments sp <> filePath sp v.
Proof. intros H. apply (filePath_not_prefix sp v). by rewrite <- H. Qed.

Lemma sound_storage sp v : sound (filePath sp v) = true -> sound (segments sp) = true.
Proof. rewrite filePath_eq, sound_app. by intros [? _]%andb_true_iff. Qed.

(** Where anything stands at the file's path, the storage path is a folder. *)
Lemma folder_above_file sp v w :
  kind_at (filePath sp v) (fs w) <> Missing -> kind_at (segments sp) (fs w) = Folder.
Proof.
  destruct (filePath_split sp v) as (s & rest & ->). by apply kind_at_above.
Qed.

(** An entry that parses: it is returned and nothing else happens. *)
Lemma getOrCreate_hit env versionNumber url storagePath w data parsed :
  fileAt (filePath storagePath versionNumber) w = Some data ->
  tryParse data = Some (Ok parsed) ->
  getOrCreateReleaseNotes env versionNumber url storagePath w = (Ok parsed, w).
Proof.
  intros [Hs Hk]%fileAt_Some Hp. rewrite run_eq, ensureFolder_eq.
  rewrite (sound_storage _ _ Hs). unfold exists_at.
  rewrite (folder_above_file storagePath versionNumber w) by (by rewrite Hk).
  rewrite readExisting_eq.
  change (segments (path_join storagePath (fileName versionNumber)))
    with (filePath storagePath versionNumber).
  by rewrite Hs, Hk, Hp.
Qed.

Lemma readExisting_miss storagePath versionNumber w :
  noValidEntry storagePath versionNumber w ->
  ensurable storagePath w = true ->
  readExisting (path_join storagePath (fileName versionNumber)) (ensured storagePath w)
  = (Ok None, ensured storagePath w).
Proof.
  intros [Hs Hk] He. rewrite readExisting_eq.
  change (segments (path_join storagePath (fileName versionNumber)))
    with (filePath storagePath versionNumber).
  rewrite Hs, (kind_ensured storagePath w He).
  rewrite decide_False by apply filePath_not_prefix.
  destruct (kind_at (filePath storagePath versionNumber) (fs w)); [done | | done].
  by rewrite Hk.
Qed.

(** No usable entry for the version: fetch, extract, infer, write. *)
Lemma getOrCreate_miss env versionNumber url storagePath w :
  noValidEntry storagePath versionNumber w ->
  ensurable storagePath w = true ->
  getOrCreateReleaseNotes env versionNumber url storagePath w =
  acquireAndStore env url (path_join storagePath (fileName versionNumber))
    (ensured storagePath w).
Proof.
  intros Hmiss He. rewrite run_eq, ensure_ok by done.
  by rewrite readExisting_miss.
Qed.

Lemma storable_inv sp v w :
  storable sp v w = true ->
  ensurable sp w = true /\ plainVersion v = true /\ (filePath sp v ∉ denied w).
Proof.
  unfold storable. intros [[He Hv]%andb_true_iff Hd]%andb_true_iff.
  apply negb_true_iff, bool_decide_eq_false in Hd. done.
Qed.

(** Where the store can be written, the write at the end returns. *)
Lemma store_ok sp v w data cs :
  noValidEntry sp v w -> storable sp v w = true ->
  exists es,
    writeFileSync (path_join sp (fileName v)) data
      (MkWorld (fs (ensured sp w)) (denied w) cs)
    = (Ok tt, MkWorld es (denied w) cs) /\
    forall q, kind_at q es =
              if decide (q = filePath sp v) then RegularFile data
              else kind_at q (fs (ensured sp w)).
Proof.
  intros [Hs Hk] Hst. destruct (storable_inv _ _ _ Hst) as (He & Hv & Hd).
  rewrite writeFileSync_eq.
  change (segments (path_join sp (fileName v))) with (filePath sp v).
  rewrite Hs. unfold write_at. cbn [fs denied calls].
  assert (filePath sp v = segments sp ++ [fileName v]) as Hfp
    by (by rewrite filePath_eq, segments_fileName_plain).
  destruct (put_file_Ok (segments sp) (fileName v) data (fs (ensured sp w)))
    as [es Hes].
  - by apply folder_ensured.
  - rewrite kind_ensured by done. rewrite <- Hfp.
    rewrite decide_False by apply filePath_not_prefix.
    intros HF. by rewrite HF in Hk.
  - rewrite <- Hfp in Hes. rewrite Hes, bool_decide_false by done.
    exists es. split; [done |]. by apply kind_at_put.
Qed.

(** A run that acquires a value and can write it. *)
Lemma getOrCreate_stored env versionNumber url storagePath w newData :
  noValidEntry storagePath versionNumber w ->
  storable storagePath versionNumber w = true ->
  (html ← axios_get env url; inferred env (parseHTMLwithCheerio env html)) = Ok newData ->
  exists es,
    getOrCreateReleaseNotes env versionNumber url storagePath w
    = (Ok newData, MkWorld es (denied w) (calls w ++ acquireCalls env url)) /\
    forall q, kind_at q es =
              if decide (q = filePath storagePath versionNumber)
              then RegularFile (stringify newData)
              else kind_at q (fs (ensured storagePath w)).
Proof.
  intros Hmiss Hst Hr. destruct (storable_inv _ _ _ Hst) as (He & Hv & Hd).
  rewrite getOrCreate_miss by done. rewrite acquireAndStore_eq, Hr.
  rewrite calls_ensured, denied_ensured, M_bind_eq.
  destruct (store_ok storagePath versionNumber w (stringify newData)
              (calls w ++ acquireCalls env url) Hmiss Hst) as (es & -> & Hes).
  by exists es.
Qed.

(** A run whose acquisition fails. *)
Lemma getOrCreate_failed env versionNumber url storagePath w :
  noValidEntry storagePath versionNumber w ->
  ensurable storagePath w = true ->
  (forall newData,
     (html ← axios_get env url; inferred env (parseHTMLwithCheerio env html))
     <> Ok newData) ->
  getOrCreateReleaseNotes env versionNumber url storagePath w =
  (html ← axios_get env url; inferred env (parseHTMLwithCheerio env html),
   MkWorld (fs (ensured storagePath w)) (denied w) (calls w ++ acquireCalls env url)).
Proof.
  intros Hmiss He Hr. rewrite getOrCreate_miss by done. rewrite acquireAndStore_eq.
  rewrite calls_ensured, denied_ensured.
  destruct (html ← axios_get env url; inferred env (parseHTMLwithCheerio env html))
    as [newData | e | |]; [by destruct (Hr newData) | done..].
Qed.

Lemma tryParse_stringify v :
  plain v = true -> v <> JNull -> tryParse (stringify v) = Some (Ok v).
Proof.
  intros Hplain Hv. unfold tryParse. rewrite parse_stringify by done.
  cbn [mbind result_bind]. by destruct v.
Qed.

Lemma plain_catalog_value deps : plain (catalog_value deps) = true.
Proof.
  unfold catalog_value. cbn [plain]. induction deps as [| dep deps IH]; [done |].
  cbn [map forallb]. rewrite IH, andb_true_r. reflexivity.
Qed.

(** The three ways through the last step of the parser. *)
Lemma recordsOf_no_fence responseText :
  ~ hasFence responseText -> recordsOf responseText = Ok (JArr []).
Proof.
  intros Hno. apply jsonRegex_exec_None in Hno. unfold recordsOf. by rewrite Hno.
Qed.

Lemma recordsOf_unparsable responseText body e :
  jsonRegex_exec responseText = Some body -> Json.parse body = Throw e ->
  recordsOf responseText = Ok (JArr []).
Proof.
  intros Hbody He. unfold recordsOf. rewrite Hbody.
  destruct body as [| c body]; [done |]. unfold tryParse. by rewrite He.
Qed.

Lemma recordsOf_parsed responseText body v :
  jsonRegex_exec responseText = Some body -> Json.parse body = Ok v ->
  recordsOf responseText = Ok (match v with JNull => JArr [] | _ => v end).
Proof.
  intros Hbody Hv. unfold recordsOf. rewrite Hbody.
  destruct body as [| c body]; [done |].
  unfold tryParse. rewrite Hv. cbn [mbind result_bind]. by destruct v.
Qed.

Lemma recordsOf_plain responseText v :
  recordsOf responseText = Ok v -> plain v = true /\ v <> JNull.
Proof.
  unfold recordsOf. destruct (jsonRegex_exec responseText) as [[| c body] |];
    try (by intros [= <-]).
  unfold tryParse.
  destruct (Json.parse (c :: body)) as [parsed | | |] eqn:Hp; cbn [mbind result_bind];
    try (by intros [= <-]); try done.
  destruct parsed; cbn [lengthOf mbind result_bind]; try (by intros [= <-]);
    intros [= <-]; (split; [by eapply parse_returns_plain | done]).
Qed.

Lemma inferred_plain env sections v :
  inferred env sections = Ok v -> plain v = true /\ v <> JNull.
Proof.
  unfold inferred. destruct (selectChatModels env) as [| model others].
  - by intros [= <-].
  - rewrite bind_Ok. intros (tokens & _ & H). by eapply recordsOf_plain.
Qed.


(** What a run stored is what the next run returns, with no call and no
    change. *)
Lemma stored_is_served env versionNumber url storagePath w newData :
  sound (filePath storagePath versionNumber) = true ->
  kind_at (filePath storagePath versionNumber) (fs w) = RegularFile (stringify newData) ->
  plain newData = true -> newData <> JNull ->
  getOrCreateReleaseNotes env versionNumber url storagePath w = (Ok newData, w).
Proof.
  intros Hs Hk Hplain Hnull.
  apply (getOrCreate_hit env versionNumber url storagePath w (stringify newData)).
  - by apply fileAt_Some.
  - by apply tryParse_stringify.
Qed.

Lemma pipeline_plain env url newData :
  (html ← axios_get env url; inferred env (parseHTMLwithCheerio env html)) = Ok newData ->
  plain newData = true /\ newData <> JNull.
Proof. intros (html & _ & Hinf)%bind_Ok. by eapply inferred_plain. Qed.

End AcquirerFacts.

(** ** The acquirer: main results *)

Module Acquisition.
Import ResultFacts Json Acquirer JsonRoundTrip FenceFacts JsonTotal.
Import PathFacts TreeFacts AcquirerFacts.

(** The three ways through the last step of the parser when the model
    answers: no fenced [json] block, or contents that do not parse, give the
    empty sequence; contents that parse are returned as they are, whether a
    sequence or not (the empty sequence for [null], whose [length] cannot be
    read). *)
Lemma parser_fallbacks env sections w model others tokens :
  selectChatModels env = model :: others ->
  model (userQuery (join (nl ++ nl) sections)) = Ok tokens ->
  (~ hasFence (concat tokens) ->
     fst (parseReleaseNotesWithCopilot env sections w) = Ok (JArr [])) /\
  (forall body,
     jsonRegex_exec (concat tokens) = Some body ->
     (forall e, Json.parse body = Throw e ->
        fst (parseReleaseNotesWithCopilot env sections w) = Ok (JArr [])) /\
     (forall v, Json.parse body = Ok v ->
        fst (parseReleaseNotesWithCopilot env sections w)
        = Ok (match v with JNull => JArr [] | _ => v end))).
Proof.
  intros Hmodel Htokens.
  rewrite parseReleaseNotesWithCopilot_eq. cbn [fst].
  unfold inferred. rewrite Hmodel, Htokens. cbn [mbind result_bind]. split.
  - apply recordsOf_no_fence.
  - intros body Hbody. split.
    + intros e. by apply recordsOf_unparsable.
    + intros v. by apply recordsOf_parsed.
Qed.

(** C5.  The parser at a fenced block whose contents parse to a value that
    is no sequence.  The response is the fenced block holding [{}]: the
    contents of the block are [{}], they parse to the empty object, and
    [parseReleaseNotesWithCopilot] returns that object where its type, its
    log and its fallback promise a sequence; a run of the acquirer with an
    empty store returns the object too and writes it to the store, and
    activation, with a document open, fails at the first scan with a
    [TypeError]. *)
Theorem object_block_returned :
  jsonRegex_exec (js "```json{}```") = Some (js "{}") /\
  Json.parse (js "{}") = Ok (JObj []) /\
  fst (parseReleaseNotesWithCopilot (answering (js "```json{}```")) [] emptyWorld)
  = Ok (JObj []) /\
  fst (getOrCreateReleaseNotes (answering (js "```json{}```")) (js "132")
         (js "https://x/release-notes/132") (js "/store") emptyWorld)
  = Ok (JObj []) /\
  fileAt (filePath (js "/store") (js "132"))
    (snd (getOrCreateReleaseNotes (answering (js "```json{}```")) (js "132")
            (js "https://x/release-notes/132") (js "/store") emptyWorld))
  = Some (js "{}") /\
  fst (Activation.activate (answering (js "```json{}```")) (js "/store")
         [MkDoc (js "file:///a.js") (js "x a.b y")] [] emptyWorld)
  = Throw TypeError.
Proof. repeat split; vm_compute; reflexivity. Qed.

(** C2, as the code has it.  With no usable entry in the store, and a store
    that can be written (the storage folder is there or can be made, and
    the file of the version can be written in it): a missing model and an
    unusable response (no fenced block, or contents that do not parse) end
    in the empty catalog; a failed fetch is not caught, the error reaches
    the caller. *)
Theorem acquisition_failures env versionNumber url storagePath w :
  noValidEntry storagePath versionNumber w ->
  storable storagePath versionNumber w = true ->
  (forall e, axios_get env url = Throw e ->
     fst (getOrCreateReleaseNotes env versionNumber url storagePath w) = Throw e) /\
  (forall html, axios_get env url = Ok html -> selectChatModels env = [] ->
     fst (getOrCreateReleaseNotes env versionNumber url storagePath w)
     = Ok (JArr [])) /\
  (forall html model others tokens,
     axios_get env url = Ok html ->
     selectChatModels env = model :: others ->
     model (userQuery (join (nl ++ nl) (parseHTMLwithCheerio env html))) = Ok tokens ->
     (~ hasFence (concat tokens) \/
      exists body e, jsonRegex_exec (concat tokens) = Some body /\
                     Json.parse body = Throw e) ->
     fst (getOrCreateReleaseNotes env versionNumber url storagePath w)
     = Ok (JArr [])).
Proof.
  intros Hmiss Hst. pose proof (storable_inv _ _ _ Hst) as (He & _ & _).
  split; [| split].
  - intros e Hfetch. rewrite getOrCreate_failed by (by rewrite ?Hfetch).
    by rewrite Hfetch.
  - intros html Hfetch Hnone.
    destruct (getOrCreate_stored env versionNumber url storagePath w (JArr []) Hmiss Hst)
      as (es & -> & _); [| done].
    rewrite Hfetch. cbn [mbind result_bind]. unfold inferred. by rewrite Hnone.
  - intros html model others tokens Hfetch Hmodel Htokens Hbad.
    destruct (getOrCreate_stored env versionNumber url storagePath w (JArr []) Hmiss Hst)
      as (es & -> & _); [| done].
    rewrite Hfetch. cbn [mbind result_bind]. unfold inferred.
    rewrite Hmodel, Htokens. cbn [mbind result_bind].
    destruct Hbad as [Hno | (body & e & Hbody & He')].
    + by apply recordsOf_no_fence.
    + by eapply recordsOf_unparsable.
Qed.

Lemma acquisition_failures_witness :
  fst (getOrCreateReleaseNotes offline (js "132") (js "https://x/release-notes/132")
         (js "/store") emptyWorld)
  = Throw (HostError (js "ECONNREFUSED")).
Proof.
  refine (proj1 (acquisition_failures offline (js "132")
                   (js "https://x/release-notes/132") (js "/store") emptyWorld
                   _ _) _ eq_refl).
  - split; [vm_compute; reflexivity | vm_compute; exact I].
  - vm_compute. reflexivity.
Defined.

(** C2 as stated fails on a failed fetch: the caller gets the error, not an
    empty catalog. *)
Lemma fetch_failure_reaches_caller :
  noValidEntry (js "/store") (js "132") emptyWorld /\
  storable (js "/store") (js "132") emptyWorld = true /\
  fst (getOrCreateReleaseNotes offline (js "132") (js "https://x/release-notes/132")
         (js "/store") emptyWorld)
  = Throw (HostError (js "ECONNREFUSED")).
Proof.
  split; [split; [vm_compute; reflexivity | vm_compute; exact I] |].
  split; vm_compute; reflexivity.
Qed.

(** The write at the end is not guarded either: with a regular file where
    the storage folder should be, the empty catalog of a run without a
    model is not returned, the error of the write reaches the caller. *)
Example write_failure_reaches_caller :
  noValidEntry (js "/store") (js "132") storeIsFile /\
  getOrCreateReleaseNotes noModel (js "132") (js "https://x/release-notes/132")
    (js "/store") storeIsFile
  = (Throw (HostError (js "ENOTDIR")),
     MkWorld (fs storeIsFile) ∅
       [Fetch (js "https://x/release-notes/132"); SelectChatModels]).
Proof.
  split; [split; [vm_compute; reflexivity | vm_compute; exact I] |].
  vm_compute. reflexivity.
Qed.

(** C3, as the code has it.  When the text-generation step yields no
    record and the store can be written, the acquirer returns the empty
    catalog and writes it to the store like any other; the next run finds
    it there and returns it without fetching or asking a model again. *)
Theorem empty_catalog_persisted env versionNumber url storagePath w html :
  noValidEntry storagePath versionNumber w ->
  storable storagePath versionNumber w = true ->
  axios_get env url = Ok html ->
  fst (parseReleaseNotesWithCopilot env (parseHTMLwithCheerio env html) w)
    = Ok (JArr []) ->
  fst (getOrCreateReleaseNotes env versionNumber url storagePath w) = Ok (JArr []) /\
  fileAt (filePath storagePath versionNumber)
    (snd (getOrCreateReleaseNotes env versionNumber url storagePath w))
  = Some (js "[]") /\
  (forall env' url',
     getOrCreateReleaseNotes env' versionNumber url' storagePath
       (snd (getOrCreateReleaseNotes env versionNumber url storagePath w))
     = (Ok (JArr []),
        snd (getOrCreateReleaseNotes env versionNumber url storagePath w))).
Proof.
  intros Hmiss Hst Hfetch Hempty.
  rewrite parseReleaseNotesWithCopilot_eq in Hempty. cbn [fst] in Hempty.
  destruct (getOrCreate_stored env versionNumber url storagePath w (JArr []) Hmiss Hst)
    as (es & -> & Hes); [by rewrite Hfetch |].
  cbn [fst snd]. pose proof (Hes (filePath storagePath versionNumber)) as Hk.
  rewrite decide_True in Hk by done.
  split; [done |]. split.
  - apply fileAt_Some. split; [apply Hmiss | done].
  - intros env' url'. apply stored_is_served; [apply Hmiss | done..].
Qed.

Lemma empty_catalog_persisted_witness :
  fileAt (filePath (js "/store") (js "132"))
    (snd (getOrCreateReleaseNotes noModel (js "132")
            (js "https://x/release-notes/132") (js "/store") emptyWorld))
  = Some (js "[]").
Proof.
  refine (proj1 (proj2 (empty_catalog_persisted noModel (js "132")
                          (js "https://x/release-notes/132") (js "/store") emptyWorld
                          (js "<h3>Removed</h3><p>a.b</p>") _ _ eq_refl eq_refl))).
  - split; [vm_compute; reflexivity | vm_compute; exact I].
  - vm_compute. reflexivity.
Defined.

(** C3 as stated fails: after a run without a model the store holds an
    entry for the version, the text of the empty sequence. *)
Lemma empty_result_is_stored :
  fst (getOrCreateReleaseNotes noModel (js "132") (js "https://x/release-notes/132")
         (js "/store") emptyWorld) = Ok (JArr []) /\
  fs (snd (getOrCreateReleaseNotes noModel (js "132")
             (js "https://x/release-notes/132") (js "/store") emptyWorld))
  = {[js "store" := Dir {[js "chromeReleaseNotes_132.json" := File (js "[]")]}]} /\
  fileAt [js "store"; js "chromeReleaseNotes_132.json"]
    (snd (getOrCreateReleaseNotes noModel (js "132")
            (js "https://x/release-notes/132") (js "/store") emptyWorld))
  = Some (js "[]").
Proof. repeat split; vm_compute; reflexivity. Qed.

(** C6.  Cache first: when the store holds an entry for the version that
    parses (to anything but [null]), the acquirer returns what the entry
    holds, makes no call (no fetch, no model) and leaves the files and
    folders alone. *)
Theorem cache_first env versionNumber url storagePath w data parsed :
  fileAt (filePath storagePath versionNumber) w = Some data ->
  Json.parse data = Ok parsed ->
  parsed <> JNull ->
  fst (getOrCreateReleaseNotes env versionNumber url storagePath w) = Ok parsed /\
  calls (snd (getOrCreateReleaseNotes env versionNumber url storagePath w)) = calls w /\
  fs (snd (getOrCreateReleaseNotes env versionNumber url storagePath w)) = fs w.
Proof.
  intros Hfile Hparse Hnull.
  rewrite (getOrCreate_hit env versionNumber url storagePath w data parsed Hfile).
  - done.
  - unfold tryParse. rewrite Hparse. cbn [mbind result_bind]. by destruct parsed.
Qed.

Lemma cache_first_witness :
  calls (snd (getOrCreateReleaseNotes offline (js "132")
                (js "https://x/release-notes/132") (js "/store")
                (storeWith (js "chromeReleaseNotes_132.json") (js "[]"))))
  = [].
Proof.
  refine (proj1 (proj2 (cache_first offline (js "132")
                          (js "https://x/release-notes/132") (js "/store")
                          (storeWith (js "chromeReleaseNotes_132.json") (js "[]"))
                          (js "[]") (JArr []) _ _ _))).
  - vm_compute. reflexivity.
  - vm_compute. reflexivity.
  - discriminate.
Defined.

(** Whatever a run acquired and wrote, the next run returns from the store,
    with no call and no change. *)
Lemma acquired_is_cached env versionNumber url storagePath w newData :
  noValidEntry storagePath versionNumber w ->
  storable storagePath versionNumber w = true ->
  (html ← axios_get env url; inferred env (parseHTMLwithCheerio env html)) = Ok newData ->
  fst (getOrCreateReleaseNotes env versionNumber url storagePath w) = Ok newData /\
  forall env' url',
    getOrCreateReleaseNotes env' versionNumber url' storagePath
      (snd (getOrCreateReleaseNotes env versionNumber url storagePath w))
    = (Ok newData, snd (getOrCreateReleaseNotes env versionNumber url storagePath w)).
Proof.
  intros Hmiss Hst Hr.
  destruct (getOrCreate_stored env versionNumber url storagePath w newData Hmiss Hst Hr)
    as (es & -> & Hes).
  cbn [fst snd]. split; [done |]. intros env' url'.
  destruct (pipeline_plain _ _ _ Hr) as [Hplain Hnull].
  apply stored_is_served; [apply Hmiss | | done..].
  cbn [fs]. by rewrite Hes, decide_True.
Qed.

(** C7.  Round trip through the store: for every version and every catalog
    of records (three strings each), when a run of the acquirer with no
    usable entry obtains the catalog and saves it (the write at the end of
    [getOrCreateReleaseNotes], into a store that can be written), the file
    of the version holds the text of the catalog, the block that loads an
    existing file reads the same catalog back, and every later run of the
    acquirer returns it and changes nothing. *)
Theorem catalog_round_trip env versionNumber url storagePath w html deps :
  noValidEntry storagePath versionNumber w ->
  storable storagePath versionNumber w = true ->
  axios_get env url = Ok html ->
  inferred env (parseHTMLwithCheerio env html) = Ok (catalog_value deps) ->
  fst (getOrCreateReleaseNotes env versionNumber url storagePath w)
  = Ok (catalog_value deps) /\
  fileAt (filePath storagePath versionNumber)
    (snd (getOrCreateReleaseNotes env versionNumber url storagePath w))
  = Some (stringify (catalog_value deps)) /\
  readExisting (path_join storagePath (fileName versionNumber))
    (snd (getOrCreateReleaseNotes env versionNumber url storagePath w))
  = (Ok (Some (catalog_value deps)),
     snd (getOrCreateReleaseNotes env versionNumber url storagePath w)) /\
  (forall env' url',
     getOrCreateReleaseNotes env' versionNumber url' storagePath
       (snd (getOrCreateReleaseNotes env versionNumber url storagePath w))
     = (Ok (catalog_value deps),
        snd (getOrCreateReleaseNotes env versionNumber url storagePath w))).
Proof.
  intros Hmiss Hst Hfetch Hinf.
  destruct (getOrCreate_stored env versionNumber url storagePath w
              (catalog_value deps) Hmiss Hst) as (es & -> & Hes);
    [by rewrite Hfetch |].
  cbn [fst snd]. pose proof (Hes (filePath storagePath versionNumber)) as Hk.
  rewrite decide_True in Hk by done.
  pose proof (tryParse_stringify (catalog_value deps)
                (plain_catalog_value deps) ltac:(done)) as Hparse.
  split; [done |]. split; [| split].
  - apply fileAt_Some. split; [apply Hmiss | done].
  - rewrite readExisting_eq.
    change (segments (path_join storagePath (fileName versionNumber)))
      with (filePath storagePath versionNumber).
    rewrite (proj1 Hmiss). cbn [fs]. by rewrite Hk, Hparse.
  - intros env' url'. apply stored_is_served;
      [apply Hmiss | done | apply plain_catalog_value | done].
Qed.

Lemma catalog_round_trip_witness :
  getOrCreateReleaseNotes offline (js "132") (js "https://x/other") (js "/store")
    (snd (getOrCreateReleaseNotes
            (answering (fenced [MkAPI (js "a.b") (js "Removed") (js "gone")]))
            (js "132") (js "https://x/release-notes/132") (js "/store") emptyWorld))
  = (Ok (catalog_value [MkAPI (js "a.b") (js "Removed") (js "gone")]),
     snd (getOrCreateReleaseNotes
            (answering (fenced [MkAPI (js "a.b") (js "Removed") (js "gone")]))
            (js "132") (js "https://x/release-notes/132") (js "/store") emptyWorld)).
Proof.
  refine (proj2 (proj2 (proj2 (catalog_round_trip
            (answering (fenced [MkAPI (js "a.b") (js "Removed") (js "gone")]))
            (js "132") (js "https://x/release-notes/132") (js "/store") emptyWorld
            (js "<h3>Removed</h3><p>a.b</p>")
            [MkAPI (js "a.b") (js "Removed") (js "gone")] _ _ eq_refl _)))
            offline (js "https://x/other")).
  - split; [vm_compute; reflexivity | vm_compute; exact I].
  - vm_compute. reflexivity.
  - vm_compute. reflexivity.
Defined.

(** A first run asks the page and the model and stores the catalog; a
    second run, with the network gone, returns it from the store. *)
Example acquire_then_reuse :
  getOrCreateReleaseNotes
    (answering (fenced [MkAPI (js "a.b") (js "Removed") (js "gone")]))
    (js "132") (js "https://x/release-notes/132") (js "/store") emptyWorld
  = (Ok (catalog_value [MkAPI (js "a.b") (js "Removed") (js "gone")]),
     MkWorld
       {[js "store" :=
           Dir {[js "chromeReleaseNotes_132.json" :=
                   File (stringify (catalog_value
                                      [MkAPI (js "a.b") (js "Removed") (js "gone")]))]}]}
       ∅
       [Fetch (js "https://x/release-notes/132"); SelectChatModels;
        SendRequest (userQuery (js "HEADING: Removed" ++ nl ++ js "CONTENT: a.b"))]) /\
  fst (getOrCreateReleaseNotes offline (js "132") (js "https://x/release-notes/132")
         (js "/store")
         (snd (getOrCreateReleaseNotes
                 (answering (fenced [MkAPI (js "a.b") (js "Removed") (js "gone")]))
                 (js "132") (js "https://x/release-notes/132") (js "/store")
                 emptyWorld)))
  = Ok (catalog_value [MkAPI (js "a.b") (js "Removed") (js "gone")]).
Proof. split; vm_compute; reflexivity. Qed.

End Acquisition.

(** * Further properties *)

(** ** The match engine *)

Module EngineMore.
Import ResultFacts Re MatchFacts EngineFacts ScanFacts.

Lemma offsets_outcome fuel text R :
  (exists os, offsets fuel text R = Ok os) \/ offsets fuel text R = OutOfFuel.
Proof.
  revert R. induction fuel as [| fuel IH]; intros R; [by right |].
  cbn [offsets]. destruct (exec text R) as [[s |] R']; [| left; by eexists].
  destruct (IH R') as [[os ->] | ->]; [left; by eexists | by right].
Qed.

Lemma all_offsets_outcome fuel text deps :
  (exists oss, all_offsets fuel text deps = Ok oss)
  \/ all_offsets fuel text deps = OutOfFuel.
Proof.
  induction deps as [| dep deps IH]; [left; by eexists |].
  cbn [all_offsets]. rewrite matches_for_literal.
  destruct (offsets_outcome fuel text (MkRegExp (literal (apiName dep)) 0))
    as [[os ->] | ->]; [| by right].
  cbn. destruct IH as [[oss ->] | ->]; [left; by eexists | by right].
Qed.

(** X1.  Whatever the names of the catalog, the pattern built from each one
    compiles, so a scan never throws: it returns the two arrays, or one of
    its loops does not end. *)
Theorem scan_never_throws fuel text deps :
  Forall (fun dep => exists regex,
            RegExp_new (pattern_of (apiName dep)) = Ok regex) deps /\
  ((exists found, scan fuel text deps = Ok found)
   \/ scan fuel text deps = OutOfFuel).
Proof.
  split.
  - apply Forall_forall. intros dep _. eexists. apply ReFacts.RegExp_new_pattern.
  - rewrite scan_offsets.
    destruct (all_offsets_outcome fuel text deps) as [[oss ->] | ->];
      [left; by eexists | by right].
Qed.

Section OneName.

Variables (text name : list N).

Local Abbreviation R l := (MkRegExp (literal name) l).

Lemma offsets_spaced fuel l os :
  offsets fuel text (R l) = Ok os -> spaced (length name) os.
Proof.
  revert l os. induction fuel as [| fuel IH]; intros l os; [done |].
  cbn [offsets]. destruct (exec text (R l)) as [[s |] R'] eqn:He.
  - apply exec_literal_Some in He as (Hl & Hm & -> & _).
    rewrite bind_Ok. intros (os' & Hos' & [= <-]).
    constructor; [by eapply IH |].
    apply offsets_sound in Hos'.
    eapply Forall_impl; [exact Hos' |]. cbn. by intros s' [? _].
  - intros [= <-]. constructor.
Qed.

Lemma spaced_no_overlap n os p q :
  0 < n -> spaced n os -> p ∈ os -> q ∈ os -> q < p < q + n -> False.
Proof.
  intros Hn Hsp. induction Hsp as [| a os Hsp IH Ha]; intros Hp Hq Hpq.
  - by apply elem_of_nil in Hp.
  - rewrite Forall_forall in Ha.
    apply elem_of_cons in Hp as [-> | Hp]; apply elem_of_cons in Hq as [-> | Hq].
    + lia.
    + apply Ha in Hq. lia.
    + apply Ha in Hp. lia.
    + by apply IH.
Qed.

(** With an empty name a loop that ends has seen no match at all. *)
Lemma offsets_empty_name fuel os :
  name = [] -> offsets fuel text (R 0) = Ok os ->
  os = [] /\ forall p, matches_at name text p = false.
Proof.
  intros Hn. destruct fuel as [| fuel]; [done |]. cbn [offsets].
  destruct (exec text (R 0)) as [[s |] R'] eqn:He.
  - apply exec_literal_Some in He as (_ & Hm & -> & _).
    replace (s + length name) with s by (rewrite Hn; cbn; lia).
    by rewrite (offsets_stuck text name fuel s Hn Hm).
  - intros [= <-]. split; [done |]. intros p.
    apply (exec_literal_None _ _ _ _ He). lia.
Qed.

(** Which word-bounded occurrences one loop reports. *)
Lemma offsets_exact fuel os p :
  offsets fuel text (R 0) = Ok os ->
  (p ∈ os -> matches_at name text p = true) /\
  (matches_at name text p = true ->
   (p ∈ os <-> ~ exists q, q ∈ os /\ q < p < q + length name)).
Proof.
  intros Hos. split.
  - intros Hp. apply offsets_sound in Hos. rewrite Forall_forall in Hos.
    by apply Hos.
  - intros Hm. destruct (decide (name = [])) as [Hn | Hn].
    { apply offsets_empty_name in Hos as [_ Hnone]; [| done].
      by rewrite Hnone in Hm. }
    split.
    + intros Hp (q & Hq & Hqp).
      apply (spaced_no_overlap (length name) os p q); try done.
      * by apply nonempty_length.
      * by eapply offsets_spaced.
    + intros Hno.
      destruct (offsets_cover text name fuel 0 os p Hn Hos) as (q & Hq & Hqp);
        [lia | done |].
      destruct (decide (q = p)) as [-> | Hne]; [done |].
      destruct Hno. exists q. split; [done | lia].
Qed.

End OneName.

Lemma occurs_head name text p c :
  occurs_at name text p -> head name = Some c -> wordAt text p = isWordChar c.
Proof.
  intros [Hlen Heq] Hc. unfold wordAt. destruct name as [| c0 name]; [done |].
  injection Hc as ->.
  assert (text !! p = Some c) as ->; [| done].
  rewrite <- (Nat.add_0_r p), <- lookup_drop.
  rewrite <- (lookup_take_lt _ (length (c :: name))) by (cbn; lia).
  by rewrite Heq.
Qed.

Lemma occurs_last name text p c :
  occurs_at name text p -> last name = Some c ->
  wordBefore text (p + length name) = isWordChar c.
Proof.
  intros [Hlen Heq] Hc. rewrite last_lookup in Hc.
  destruct (length name) as [| n] eqn:Hn; [by destruct name |].
  replace (p + S n) with (S (p + n)) by lia. cbn [wordBefore pred] in *.
  unfold wordAt. assert (text !! (p + n) = Some c) as ->; [| done].
  rewrite <- lookup_drop. rewrite <- (lookup_take_lt _ (S n)) by lia.
  by rewrite Heq.
Qed.

Lemma scan_structure fuel text deps found :
  scan fuel text deps = Ok found ->
  exists oss,
    Forall2 (fun dep os =>
               offsets fuel text (MkRegExp (literal (apiName dep)) 0) = Ok os)
            deps oss /\
    found = MkFound (diags_of deps oss) (decos_of deps oss).
Proof.
  rewrite scan_offsets, bind_Ok. intros (oss & Hoss & [= <-]).
  exists oss. split; [| done]. apply all_offsets_Ok in Hoss.
  eapply Forall2_impl; [exact Hoss |]. cbv beta. intros dep os Hos.
  by rewrite <- matches_for_literal.
Qed.

(** X2.  The matches reported for one record do not overlap: each starts at
    or after the end of the one before. *)
Theorem reported_ranges_disjoint fuel text deps found :
  scan fuel text deps = Ok found ->
  exists oss,
    diagnostics found = diags_of deps oss /\
    decorationOptions found = decos_of deps oss /\
    Forall2 (fun dep os => spaced (length (apiName dep)) os) deps oss.
Proof.
  intros H. apply scan_structure in H as (oss & Hoss & ->).
  exists oss. split; [done |]. split; [done |].
  eapply Forall2_impl; [exact Hoss |]. intros dep os. apply offsets_spaced.
Qed.

Lemma reported_ranges_disjoint_witness :
  exists oss,
    [diag_of (MkAPI (js "a.a") (js "Removed") []) 0;
     diag_of (MkAPI (js "a.a") (js "Removed") []) 4]
    = diags_of [MkAPI (js "a.a") (js "Removed") []] oss /\
    [deco_of (MkAPI (js "a.a") (js "Removed") []) 0;
     deco_of (MkAPI (js "a.a") (js "Removed") []) 4]
    = decos_of [MkAPI (js "a.a") (js "Removed") []] oss /\
    Forall2 (fun dep os => spaced (length (apiName dep)) os)
      [MkAPI (js "a.a") (js "Removed") []] oss.
Proof.
  apply (reported_ranges_disjoint 10 (js "a.a.a.a")
           [MkAPI (js "a.a") (js "Removed") []]
           (MkFound [diag_of (MkAPI (js "a.a") (js "Removed") []) 0;
                     diag_of (MkAPI (js "a.a") (js "Removed") []) 4]
                    [deco_of (MkAPI (js "a.a") (js "Removed") []) 0;
                     deco_of (MkAPI (js "a.a") (js "Removed") []) 4])).
  vm_compute. reflexivity.
Defined.

(** X3.  Which occurrences are reported: for each record, every reported
    offset is an occurrence of the name with a word boundary at both ends,
    and such an occurrence is reported exactly when no reported match that
    starts before it reaches into it. *)
Theorem reported_exactly fuel text deps found :
  scan fuel text deps = Ok found ->
  exists oss,
    diagnostics found = diags_of deps oss /\
    Forall2 (fun dep os =>
      forall p,
        (p ∈ os -> matches_at (apiName dep) text p = true) /\
        (matches_at (apiName dep) text p = true ->
         (p ∈ os <-> ~ exists q, q ∈ os /\ q < p < q + length (apiName dep))))
      deps oss.
Proof.
  intros H. apply scan_structure in H as (oss & Hoss & ->).
  exists oss. split; [done |].
  eapply Forall2_impl; [exact Hoss |]. cbv beta. intros dep os Hos p.
  exact (offsets_exact text (apiName dep) fuel os p Hos).
Qed.

Lemma reported_exactly_witness :
  exists oss,
    [diag_of (MkAPI (js "a.a") (js "Removed") []) 0;
     diag_of (MkAPI (js "a.a") (js "Removed") []) 4]
    = diags_of [MkAPI (js "a.a") (js "Removed") []] oss /\
    Forall2 (fun dep os =>
      forall p,
        (p ∈ os -> matches_at (apiName dep) (js "a.a.a.a") p = true) /\
        (matches_at (apiName dep) (js "a.a.a.a") p = true ->
         (p ∈ os <-> ~ exists q, q ∈ os /\ q < p < q + length (apiName dep))))
      [MkAPI (js "a.a") (js "Removed") []] oss.
Proof.
  apply (reported_exactly 10 (js "a.a.a.a")
           [MkAPI (js "a.a") (js "Removed") []]
           (MkFound [diag_of (MkAPI (js "a.a") (js "Removed") []) 0;
                     diag_of (MkAPI (js "a.a") (js "Removed") []) 4]
                    [deco_of (MkAPI (js "a.a") (js "Removed") []) 0;
                     deco_of (MkAPI (js "a.a") (js "Removed") []) 4])).
  vm_compute. reflexivity.
Defined.

(** X4.  A name that ends in a character that is not a word character is
    reported only where a word character follows it, and a name that begins
    with one only where a word character precedes it; at the end of the
    text, or before a space, such a name goes unreported. *)
Theorem non_word_edges fuel text deps found dep s :
  scan fuel text deps = Ok found ->
  diag_of dep s ∈ diagnostics found ->
  (forall c, last (apiName dep) = Some c -> isWordChar c = false ->
     wordAt text (s + length (apiName dep)) = true) /\
  (forall c, head (apiName dep) = Some c -> isWordChar c = false ->
     wordBefore text s = true).
Proof.
  intros H Hd. apply scan_pushed in H.
  apply list_elem_of_lookup in Hd as [i Hi].
  destruct (Forall2_lookup_l _ _ _ _ _ H Hi)
    as (o & _ & dep' & s' & _ & Heq & _ & Hm).
  apply diag_of_inj in Heq as [-> Hname]. rewrite <- Hname in Hm.
  pose proof (matches_at_occurs _ _ _ Hm) as Ho.
  unfold matches_at, isBoundary in Hm.
  apply andb_true_iff in Hm as [Hm Hend]. apply andb_true_iff in Hm as [Hstart _].
  split.
  - intros c Hc Hw. rewrite (occurs_last _ _ _ _ Ho Hc), Hw in Hend. exact Hend.
  - intros c Hc Hw. rewrite (occurs_head _ _ _ _ Ho Hc), Hw in Hstart.
    by rewrite xorb_false_r in Hstart.
Qed.

Lemma non_word_edges_witness :
  wordAt (js "a.b()x") (0 + length (js "a.b()")) = true.
Proof.
  refine (proj1 (non_word_edges 8 (js "a.b()x")
                   [MkAPI (js "a.b()") (js "Removed") []]
                   (MkFound [diag_of (MkAPI (js "a.b()") (js "Removed") []) 0]
                            [deco_of (MkAPI (js "a.b()") (js "Removed") []) 0])
                   (MkAPI (js "a.b()") (js "Removed") []) 0 _ _) 41%N _ _).
  - vm_compute. reflexivity.
  - left.
  - vm_compute. reflexivity.
  - vm_compute. reflexivity.
Defined.

Lemma for_deps_app fuel text deps1 deps2 acc :
  for_deps fuel text (deps1 ++ deps2) acc =
  acc' ← for_deps fuel text deps1 acc; for_deps fuel text deps2 acc'.
Proof.
  revert acc. induction deps1 as [| dep deps1 IH]; intros acc; [done |].
  cbn [app for_deps]. destruct (RegExp_new _) as [regex | | |]; [| done..].
  cbn [mbind result_bind].
  destruct (while_exec fuel text dep regex acc) as [acc' | | |]; [| done..].
  cbn [mbind result_bind]. apply IH.
Qed.

(** X5.  The scan of a catalog is the scan of its parts, one after the
    other: the records are matched independently of each other, so a record
    listed twice is reported twice. *)
Theorem scan_app fuel text deps1 deps2 found1 found2 :
  scan fuel text deps1 = Ok found1 ->
  scan fuel text deps2 = Ok found2 ->
  scan fuel text (deps1 ++ deps2)
  = Ok (MkFound (diagnostics found1 ++ diagnostics found2)
                (decorationOptions found1 ++ decorationOptions found2)).
Proof.
  unfold scan at 1 3. intros H1 H2. rewrite for_deps_app, H1.
  cbn [mbind result_bind]. rewrite for_deps_offsets.
  rewrite scan_offsets, bind_Ok in H2. destruct H2 as (oss & -> & [= <-]).
  reflexivity.
Qed.

Lemma scan_app_witness :
  scan 8 (js "Foo x") ([MkAPI (js "Foo") (js "Removed") []]
                        ++ [MkAPI (js "Foo") (js "Removed") []])
  = Ok (MkFound
          ([diag_of (MkAPI (js "Foo") (js "Removed") []) 0]
           ++ [diag_of (MkAPI (js "Foo") (js "Removed") []) 0])
          ([deco_of (MkAPI (js "Foo") (js "Removed") []) 0]
           ++ [deco_of (MkAPI (js "Foo") (js "Removed") []) 0])).
Proof.
  apply (scan_app 8 (js "Foo x")
           [MkAPI (js "Foo") (js "Removed") []]
           [MkAPI (js "Foo") (js "Removed") []]
           (MkFound [diag_of (MkAPI (js "Foo") (js "Removed") []) 0]
                    [deco_of (MkAPI (js "Foo") (js "Removed") []) 0])
           (MkFound [diag_of (MkAPI (js "Foo") (js "Removed") []) 0]
                    [deco_of (MkAPI (js "Foo") (js "Removed") []) 0]));
    vm_compute; reflexivity.
Defined.

Lemma setDecorations_uris u ds es :
  map document_uri (setDecorations u ds es) = map document_uri es.
Proof.
  induction es as [| e es IH]; [done |]. cbn [setDecorations].
  destruct (decide (document_uri e = u)); cbn [map document_uri]; [done |].
  by rewrite IH.
Qed.

Lemma setDecorations_other u ds es i e :
  es !! i = Some e -> document_uri e <> u ->
  setDecorations u ds es !! i = Some e.
Proof.
  revert i. induction es as [| e' es IH]; intros i Hi Hne; [done |].
  cbn [setDecorations]. destruct (decide (document_uri e' = u)) as [He' | He'].
  - destruct i as [| i]; cbn in Hi |- *; [congruence | done].
  - destruct i as [| i]; cbn in Hi |- *; [done | by apply IH].
Qed.

Lemma setDecorations_first u ds pre e post :
  Forall (fun e' => document_uri e' <> u) pre -> document_uri e = u ->
  setDecorations u ds (pre ++ e :: post) = pre ++ MkEditor u ds :: post.
Proof.
  intros Hpre He. induction Hpre as [| e' pre He' _ IH]; cbn [app setDecorations].
  - rewrite decide_True by done. by rewrite He.
  - rewrite decide_False by done. by rewrite IH.
Qed.

(** X6.  A check touches one document only: the diagnostics of every other
    document stay as they were; the editors stay in place and those that
    show another document keep their decorations; the decorations go to the
    first visible editor that shows the document, and to no other. *)
Theorem check_touches_one_document fuel doc deps host host' :
  checkForDeprecations fuel doc deps host = Ok host' ->
  (forall u, u <> uri doc -> collection host' !! u = collection host !! u) /\
  map document_uri (visibleTextEditors host')
    = map document_uri (visibleTextEditors host) /\
  (forall i e, visibleTextEditors host !! i = Some e ->
     document_uri e <> uri doc -> visibleTextEditors host' !! i = Some e) /\
  (forall pre e post,
     visibleTextEditors host = pre ++ e :: post ->
     Forall (fun e' => document_uri e' <> uri doc) pre ->
     document_uri e = uri doc ->
     exists found,
       scan fuel (getText doc) deps = Ok found /\
       visibleTextEditors host'
       = pre ++ MkEditor (uri doc) (decorationOptions found) :: post).
Proof.
  unfold checkForDeprecations. rewrite bind_Ok. intros (found & Hscan & [= <-]).
  cbn [collection visibleTextEditors]. repeat split.
  - intros u Hu. by rewrite lookup_insert_ne.
  - apply setDecorations_uris.
  - intros i e. apply setDecorations_other.
  - intros pre e post -> Hpre He. exists found. split; [done |].
    by apply setDecorations_first.
Qed.

Lemma check_touches_one_document_witness :
  collection
    (MkHost (<[js "a.js" := [diag_of (MkAPI (js "Foo") (js "Removed") []) 0]]>
               {[js "b.js" := []]})
            [])
    !! js "b.js"
  = ({[js "b.js" := []]} : gmap (list N) (list Diagnostic)) !! js "b.js".
Proof.
  refine (proj1 (check_touches_one_document 8 (MkDoc (js "a.js") (js "Foo x"))
                   [MkAPI (js "Foo") (js "Removed") []]
                   (MkHost {[js "b.js" := []]} []) _ _) (js "b.js") _).
  - vm_compute. reflexivity.
  - vm_compute. discriminate.
Defined.

Lemma offsets_absent fuel text name l :
  (forall p, ~ occurs_at name text p) ->
  offsets (S fuel) text (MkRegExp (literal name) l) = Ok [].
Proof.
  intros Hno. cbn [offsets].
  destruct (exec text _) as [[s |] R'] eqn:He; [| done].
  apply exec_literal_Some in He as (_ & Hm & _).
  apply matches_at_occurs in Hm. by destruct (Hno s).
Qed.

(** X7.  When no name of the catalog occurs in the document, the check
    stores the empty list for it, whatever was stored before. *)
Theorem absent_names_clear fuel doc deps host :
  Forall (fun dep => forall p, ~ occurs_at (apiName dep) (getText doc) p) deps ->
  0 < fuel ->
  exists host',
    checkForDeprecations fuel doc deps host = Ok host' /\
    collection host' !! uri doc = Some [].
Proof.
  intros Hno Hfuel. destruct fuel as [| fuel]; [lia |].
  assert (scan (S fuel) (getText doc) deps = Ok (MkFound [] [])) as Hscan.
  { rewrite scan_offsets.
    assert (exists oss, all_offsets (S fuel) (getText doc) deps = Ok oss /\
                        diags_of deps oss = [] /\ decos_of deps oss = [])
      as (oss & -> & Hd & Ho); [| cbn; by rewrite Hd, Ho].
    induction Hno as [| dep deps Hdep _ (oss & IH & Hd & Ho)].
    - by exists [].
    - exists ([] :: oss). cbn [all_offsets].
      rewrite matches_for_literal, offsets_absent by done. cbn. rewrite IH.
      done. }
  unfold checkForDeprecations. rewrite Hscan. cbn [mbind result_bind].
  eexists. split; [reflexivity |]. cbn [collection diagnostics].
  apply lookup_insert_eq.
Qed.

Lemma absent_names_clear_witness :
  exists host',
    checkForDeprecations 1 (MkDoc (js "a.js") [])
      [MkAPI (js "Foo") (js "Removed") []]
      (MkHost {[js "a.js" := [diag_of (MkAPI (js "Foo") (js "Removed") []) 0]]} [])
    = Ok host' /\
    collection host' !! js "a.js" = Some [].
Proof.
  apply (absent_names_clear 1 (MkDoc (js "a.js") [])
           [MkAPI (js "Foo") (js "Removed") []]).
  - constructor; [| constructor]. intros p [Hlen _]. cbn in Hlen. lia.
  - lia.
Defined.

End EngineMore.


(** ** The acquirer *)

Module AcquirerMore.
Import ResultFacts Json Acquirer JsonRoundTrip FenceFacts JsonTotal.
Import PathFacts TreeFacts AcquirerFacts.

(** What the first step leaves: the world as it was, or the world with the
    storage folder made. *)
Lemma ensureFolder_snd storagePath w :
  snd (ensureFolder storagePath w) = w \/
  (ensurable storagePath w = true /\
   snd (ensureFolder storagePath w) = ensured storagePath w).
Proof.
  destruct (ensurable storagePath w) eqn:He.
  - right. by rewrite ensure_ok.
  - left. by destruct (ensure_fail _ _ He) as [(r & -> & _) | (-> & _)].
Qed.

Lemma exists_ensured storagePath w q :
  ensurable storagePath w = true ->
  exists_at q w = true -> exists_at q (ensured storagePath w) = true.
Proof.
  intros He. unfold exists_at. rewrite kind_ensured by done.
  by case_decide.
Qed.

Lemma ensureFolder_keeps storagePath w :
  calls (snd (ensureFolder storagePath w)) = calls w /\
  denied (snd (ensureFolder storagePath w)) = denied w /\
  (forall q, fileAt q (snd (ensureFolder storagePath w)) = fileAt q w) /\
  (forall q, exists_at q w = true ->
             exists_at q (snd (ensureFolder storagePath w)) = true).
Proof.
  destruct (ensureFolder_snd storagePath w) as [-> | [He ->]]; [done |].
  rewrite calls_ensured, denied_ensured. repeat split; [| intros q; by apply exists_ensured].
  intros q. apply fileAt_ensured.
Qed.

(** The files after a run: those after the first step, or those with the
    acquired value written to the file of the version. *)
Lemma run_cases env versionNumber url storagePath w :
  (exists cs, calls (snd (getOrCreateReleaseNotes env versionNumber url storagePath w))
              = calls w ++ cs) /\
  (fs (snd (getOrCreateReleaseNotes env versionNumber url storagePath w))
   = fs (snd (ensureFolder storagePath w)) \/
   exists newData,
     fst (getOrCreateReleaseNotes env versionNumber url storagePath w) = Ok newData /\
     (html ← axios_get env url; inferred env (parseHTMLwithCheerio env html))
     = Ok newData /\
     sound (filePath storagePath versionNumber) = true /\
     put_file (filePath storagePath versionNumber) (stringify newData)
       (fs (snd (ensureFolder storagePath w)))
     = Ok (fs (snd (getOrCreateReleaseNotes env versionNumber url storagePath w)))).
Proof.
  rewrite run_eq.
  destruct (ensureFolder_keeps storagePath w) as (Hc & _).
  destruct (ensureFolder storagePath w) as [[[] | e | |] w1]; cbn [fst snd] in *;
    try (split; [exists []; by rewrite app_nil_r | by left]).
  pose proof (readExisting_world (path_join storagePath (fileName versionNumber)) w1)
    as Hw.
  destruct (readExisting _ w1) as [[[parsed |] | e | |] w2]; cbn [snd] in Hw; subst w2;
    cbn [fst snd];
    try (split; [exists []; by rewrite app_nil_r | by left]).
  rewrite acquireAndStore_eq.
  destruct (html ← axios_get env url; inferred env (parseHTMLwithCheerio env html))
    as [newData | e | |] eqn:Hr; cbn [fst snd calls fs];
    try (split; [exists (acquireCalls env url); by rewrite Hc | by left]).
  rewrite M_bind_eq, writeFileSync_eq.
  change (segments (path_join storagePath (fileName versionNumber)))
    with (filePath storagePath versionNumber).
  destruct (sound (filePath storagePath versionNumber)) eqn:Hs; cbn [fst snd calls fs];
    [| split; [exists (acquireCalls env url); by rewrite Hc | by left]].
  unfold write_at. cbn [fs denied calls].
  destruct (put_file _ _ (fs w1)) as [es | e | |] eqn:Hput; cbn [fst snd calls fs];
    try (split; [exists (acquireCalls env url); by rewrite Hc | by left]).
  case_bool_decide; cbn [fst snd calls fs];
    (split; [exists (acquireCalls env url); by rewrite Hc |]); [by left |].
  right. by exists newData.
Qed.

Lemma fileAt_same_fs p w w' : fs w = fs w' -> fileAt p w = fileAt p w'.
Proof. unfold fileAt. by intros ->. Qed.




Lemma tryParse_unusable data :
  (exists e, Json.parse data = Throw e) \/ Json.parse data = Ok JNull ->
  tryParse data = None.
Proof. unfold tryParse. by intros [[e ->] | ->]. Qed.

(** Where a parent folder stands and no folder is in the way, a write goes
    through. *)
Lemma put_file_over p data es :
  p <> [] -> (forall q s, p = q ++ [s] -> kind_at q es = Folder) ->
  kind_at p es <> Folder ->
  exists es', put_file p data es = Ok es'.
Proof.
  intros Hp Hq Hk. destruct (exists_last Hp) as (q & s & ->).
  apply put_file_Ok; [by apply (Hq q s) | done].
Qed.

(** The branch that acquires gives the same result and the same calls in
    two worlds where the write at the end goes through. *)
Lemma acquireAndStore_agree env url s w w0 :
  sound (segments s) = true ->
  denied w0 = denied w -> calls w0 = calls w ->
  (forall data, exists es, put_file (segments s) data (fs w) = Ok es) ->
  (forall data, exists es, put_file (segments s) data (fs w0) = Ok es) ->
  fst (acquireAndStore env url s w) = fst (acquireAndStore env url s w0) /\
  calls (snd (acquireAndStore env url s w)) = calls (snd (acquireAndStore env url s w0)).
Proof.
  intros Hs Hd Hc Hput Hput0. rewrite !acquireAndStore_eq, Hd, Hc.
  destruct (html ← axios_get env url; inferred env (parseHTMLwithCheerio env html))
    as [newData | e | |]; try done.
  rewrite !M_bind_eq, !writeFileSync_eq, Hs. unfold write_at. cbn [fs denied calls].
  destruct (Hput (stringify newData)) as [es ->].
  destruct (Hput0 (stringify newData)) as [es0 ->].
  by case_bool_decide.
Qed.

(** X9.  A stored file that does not parse, or that holds [null], counts
    for nothing: the run gives the result and makes the calls it would make
    with no file there, and a catalog it acquires replaces the file. *)
Theorem corrupt_entry_is_a_miss env versionNumber url storagePath w data :
  fileAt (filePath storagePath versionNumber) w = Some data ->
  (exists e, Json.parse data = Throw e) \/ Json.parse data = Ok JNull ->
  fst (getOrCreateReleaseNotes env versionNumber url storagePath w)
  = fst (getOrCreateReleaseNotes env versionNumber url storagePath
           (MkWorld (unlink (filePath storagePath versionNumber) (fs w))
              (denied w) (calls w))) /\
  calls (snd (getOrCreateReleaseNotes env versionNumber url storagePath w))
  = calls (snd (getOrCreateReleaseNotes env versionNumber url storagePath
                  (MkWorld (unlink (filePath storagePath versionNumber) (fs w))
                     (denied w) (calls w)))) /\
  (forall newData,
     fst (getOrCreateReleaseNotes env versionNumber url storagePath w) = Ok newData ->
     fileAt (filePath storagePath versionNumber)
       (snd (getOrCreateReleaseNotes env versionNumber url storagePath w))
     = Some (stringify newData)).
Proof.
  intros [Hs Hk]%fileAt_Some Hbad%tryParse_unusable.
  set (w0 := MkWorld (unlink (filePath storagePath versionNumber) (fs w))
               (denied w) (calls w)).
  pose proof (kind_at_unlink _ _ _ Hk) as Hun.
  assert (kind_at (segments storagePath) (fs w) = Folder) as Hdir
    by (apply (folder_above_file storagePath versionNumber); by rewrite Hk).
  assert (kind_at (segments storagePath) (fs w0) = Folder) as Hdir0.
  { cbn [w0 fs]. rewrite Hun.
    by rewrite decide_False by apply filePath_not_storage. }
  assert (forall w', kind_at (segments storagePath) (fs w') = Folder ->
            (kind_at (filePath storagePath versionNumber) (fs w') = Missing \/
             kind_at (filePath storagePath versionNumber) (fs w') = RegularFile data) ->
            getOrCreateReleaseNotes env versionNumber url storagePath w'
            = acquireAndStore env url
                (path_join storagePath (fileName versionNumber)) w') as Hrun.
  { intros w' Hd' Hk'. rewrite run_eq, ensureFolder_eq.
    rewrite (sound_storage _ _ Hs). unfold exists_at. rewrite Hd'.
    rewrite readExisting_eq.
    change (segments (path_join storagePath (fileName versionNumber)))
      with (filePath storagePath versionNumber).
    rewrite Hs. destruct Hk' as [-> | ->]; [done | by rewrite Hbad]. }
  assert (filePath storagePath versionNumber <> []) as Hne.
  { destruct (filePath_split storagePath versionNumber) as (s & rest & ->).
    by destruct (segments storagePath). }
  assert (forall d, exists es,
            put_file (filePath storagePath versionNumber) d (fs w) = Ok es) as Hput.
  { intros d. apply put_file_over; [done | | by rewrite Hk].
    intros q s Hq. apply (kind_at_above q [s]); [done |]. by rewrite <- Hq, Hk. }
  assert (forall d, exists es,
            put_file (filePath storagePath versionNumber) d (fs w0) = Ok es) as Hput0.
  { intros d. apply put_file_over; [done | |].
    - intros q s Hq. cbn [w0 fs]. rewrite Hun, decide_False.
      + apply (kind_at_above q [s]); [done |]. by rewrite <- Hq, Hk.
      + rewrite Hq. intros H. apply (f_equal length) in H.
        rewrite length_app in H. cbn [length] in H. lia.
    - cbn [w0 fs]. by rewrite Hun, decide_True. }
  rewrite (Hrun w Hdir) by (by right).
  rewrite (Hrun w0 Hdir0) by (left; cbn [w0 fs]; by rewrite Hun, decide_True).
  destruct (acquireAndStore_agree env url
              (path_join storagePath (fileName versionNumber)) w w0 Hs
              eq_refl eq_refl Hput Hput0) as [Hfst Hcalls].
  split; [done |]. split; [done |].
  intros newData. rewrite acquireAndStore_eq.
  destruct (html ← axios_get env url; inferred env (parseHTMLwithCheerio env html))
    as [newData' | e | |]; try done.
  rewrite M_bind_eq, writeFileSync_eq.
  change (segments (path_join storagePath (fileName versionNumber)))
    with (filePath storagePath versionNumber).
  rewrite Hs. destruct (write_at _ _ _) as [[[] | e | |] w3] eqn:Hwrite; try done.
  cbn [fst snd]. intros [= ->].
  apply write_at_Ok in Hwrite as (es & Hes & _ & ->).
  apply fileAt_Some. split; [done |]. cbn [fs].
  by rewrite (kind_at_put _ _ _ _ Hes), decide_True.
Qed.

Lemma corrupt_entry_is_a_miss_witness :
  fileAt (filePath (js "/store") (js "132"))
    (snd (getOrCreateReleaseNotes noModel (js "132") (js "u") (js "/store")
            (storeWith (js "chromeReleaseNotes_132.json") (js "[oops"))))
  = Some (stringify (JArr [])).
Proof.
  refine (proj2 (proj2 (corrupt_entry_is_a_miss noModel (js "132") (js "u")
            (js "/store")
            (storeWith (js "chromeReleaseNotes_132.json") (js "[oops"))
            (js "[oops") _ _)) (JArr []) _).
  - vm_compute. reflexivity.
  - left. exists SyntaxError. vm_compute. reflexivity.
  - vm_compute. reflexivity.
Defined.

(** A run whose acquisition fails leaves every file as it was. *)
Lemma failed_run_files env versionNumber url storagePath w :
  (forall newData,
     (html ← axios_get env url; inferred env (parseHTMLwithCheerio env html))
     <> Ok newData) ->
  forall p,
    fileAt p (snd (getOrCreateReleaseNotes env versionNumber url storagePath w))
    = fileAt p w.
Proof.
  intros Hr p.
  destruct (run_cases env versionNumber url storagePath w)
    as (_ & [Hfs | (newData & _ & Hok & _)]); [| by destruct (Hr newData)].
  rewrite (fileAt_same_fs _ _ _ Hfs).
  apply (ensureFolder_keeps storagePath w).
Qed.

(** X10.  A run that fails writes nothing.  When the fetch is rejected no
    model is asked; when the model rejects the request the page has been
    fetched and that is all; either way every file is as before, so the
    next run starts over, and where the storage folder is there or can be
    made the error is the one that reaches the caller. *)
Theorem failed_acquisition_writes_nothing env versionNumber url storagePath w :
  noValidEntry storagePath versionNumber w ->
  (forall e, axios_get env url = Throw e ->
     (forall p,
        fileAt p (snd (getOrCreateReleaseNotes env versionNumber url storagePath w))
        = fileAt p w) /\
     (ensurable storagePath w = true ->
      fst (getOrCreateReleaseNotes env versionNumber url storagePath w) = Throw e /\
      calls (snd (getOrCreateReleaseNotes env versionNumber url storagePath w))
        = calls w ++ [Fetch url])) /\
  (forall html model others e,
     axios_get env url = Ok html ->
     selectChatModels env = model :: others ->
     model (userQuery (join (nl ++ nl) (parseHTMLwithCheerio env html))) = Throw e ->
     (forall p,
        fileAt p (snd (getOrCreateReleaseNotes env versionNumber url storagePath w))
        = fileAt p w) /\
     (ensurable storagePath w = true ->
      fst (getOrCreateReleaseNotes env versionNumber url storagePath w) = Throw e /\
      calls (snd (getOrCreateReleaseNotes env versionNumber url storagePath w))
        = calls w ++ [Fetch url; SelectChatModels;
                      SendRequest (userQuery (join (nl ++ nl)
                                     (parseHTMLwithCheerio env html)))])).
Proof.
  intros Hmiss. split.
  - intros e Hfetch.
    assert (forall newData,
              (html ← axios_get env url; inferred env (parseHTMLwithCheerio env html))
              <> Ok newData) as Hr by (by rewrite Hfetch).
    split; [by apply failed_run_files |].
    intros He. rewrite getOrCreate_failed by done. cbn [fst snd calls].
    unfold acquireCalls. by rewrite Hfetch.
  - intros html model others e Hfetch Hmodel Hreject.
    assert ((html ← axios_get env url; inferred env (parseHTMLwithCheerio env html))
            = Throw e) as Hthrow.
    { rewrite Hfetch. cbn [mbind result_bind]. unfold inferred.
      by rewrite Hmodel, Hreject. }
    assert (forall newData,
              (html ← axios_get env url; inferred env (parseHTMLwithCheerio env html))
              <> Ok newData) as Hr by (by rewrite Hthrow).
    split; [by apply failed_run_files |].
    intros He. rewrite getOrCreate_failed by done. cbn [fst snd calls].
    rewrite Hthrow. unfold acquireCalls, inferCalls. by rewrite Hfetch, Hmodel.
Qed.

Lemma failed_acquisition_writes_nothing_witness :
  fst (getOrCreateReleaseNotes offline (js "132") (js "u") (js "/store") emptyWorld)
  = Throw (HostError (js "ECONNREFUSED")) /\
  calls (snd (getOrCreateReleaseNotes offline (js "132") (js "u") (js "/store")
                emptyWorld))
  = calls emptyWorld ++ [Fetch (js "u")].
Proof.
  refine (proj2 (proj1 (failed_acquisition_writes_nothing offline (js "132")
            (js "u") (js "/store") emptyWorld _)
            (HostError (js "ECONNREFUSED")) eq_refl) _).
  - split; [vm_compute; reflexivity | vm_compute; exact I].
  - vm_compute. reflexivity.
Defined.






End AcquirerMore.
(** ** Reading the model's answer *)

Module FenceMore.
Import ResultFacts Json Acquirer JsonRoundTrip FenceFacts JsonTotal AcquirerFacts.

Local Open Scope N_scope.

Lemma indexOf_fresh c pat' pre rest :
  c ∉ pre ->
  indexOf (c :: pat') (pre ++ (c :: pat') ++ rest) = Some (length pre).
Proof.
  intros Hpre. induction pre as [| x pre IH].
  - cbn [app length indexOf]. rewrite bool_decide_true; [done |].
    change (c :: pat' ++ rest) with ((c :: pat') ++ rest).
    change (S (length pat')) with (length (c :: pat')).
    by rewrite take_app_length.
  - apply not_elem_of_cons in Hpre as [Hx Hpre].
    rewrite <- app_comm_cons. cbn [length indexOf]. rewrite bool_decide_false.
    + by rewrite IH.
    + cbn [take]. intros [= -> _]. done.
Qed.

Lemma jsonRegex_exec_fenced pre body post :
  96%N ∉ pre -> 96%N ∉ body ->
  jsonRegex_exec (pre ++ js "```json" ++ body ++ js "```" ++ post) = Some body.
Proof.
  intros Hpre Hbody. unfold jsonRegex_exec.
  assert (indexOf (js "```json") (pre ++ js "```json" ++ body ++ js "```" ++ post)
          = Some (length pre)) as ->
    by exact (indexOf_fresh 96 (js "``json") pre _ Hpre).
  cbn [mbind option_bind]. rewrite drop_app_add.
  assert (drop 7 (js "```json" ++ body ++ js "```" ++ post)
          = body ++ js "```" ++ post) as -> by reflexivity.
  assert (indexOf (js "```") (body ++ js "```" ++ post) = Some (length body)) as ->
    by exact (indexOf_fresh 96 (js "``") body _ Hbody).
  cbn [mbind option_bind]. by rewrite take_app_length.
Qed.

Lemma parse_nil : Json.parse [] = Throw SyntaxError.
Proof. reflexivity. Qed.

Lemma recordsOf_fenced pre body post v :
  96%N ∉ pre -> 96%N ∉ body ->
  Json.parse body = Ok v -> v <> JNull ->
  recordsOf (pre ++ js "```json" ++ body ++ js "```" ++ post) = Ok v.
Proof.
  intros Hpre Hbody Hparse Hnull. unfold recordsOf.
  rewrite jsonRegex_exec_fenced by done.
  destruct body as [| c body]; [by rewrite parse_nil in Hparse |].
  unfold tryParse. rewrite Hparse. cbn [mbind result_bind].
  by destruct v.
Qed.















(** Three backticks inside a description end the block early: what is left
    of it does not parse and the catalog is lost. *)
Example backticks_cut_the_block :
  recordsOf (fenced [MkAPI (js "a.b") (js "Removed") (js "use ```c``` now")])
  = Ok (JArr []).
Proof. vm_compute. reflexivity. Qed.

End FenceMore.

(** ** The version in the URL *)

Module VersionFacts.
Import ResultFacts Re MatchFacts Activation.

Local Abbreviation prefix := (js "release-notes/").
Local Abbreviation digit := (RClassEsc ClsDigit false).
Local Abbreviation group1 := (RSeq (RGroup (RSeq (RPlus digit) REmpty)) REmpty).
Local Abbreviation ast := (foldr RSeq group1 (map RChar prefix)).

Lemma versionPattern_ast : RegExp_new versionPattern = Ok (MkRegExp ast 0).
Proof. reflexivity. Qed.

Lemma occurs_at_app text a b i :
  occurs_at (a ++ b) text i <-> occurs_at a text i /\ occurs_at b text (i + length a).
Proof.
  revert i. induction a as [| c a IH]; intros i.
  - cbn [app length]. rewrite Nat.add_0_r. split; [| tauto].
    intros H. split; [| done]. apply occurs_at_nil.
    apply occurs_at_bound in H. lia.
  - rewrite <- app_comm_cons, !occurs_at_cons, IH. cbn [length].
    replace (i + S (length a)) with (S i + length a) by lia. tauto.
Qed.

Lemma forallb_lookup {A} (p : A -> bool) (l : list A) :
  (forall k c, l !! k = Some c -> p c = true) -> forallb p l = true.
Proof.
  induction l as [| x l IH]; [done |]. intros H. cbn [forallb].
  rewrite (H 0 x eq_refl). apply IH. intros k c Hk. by apply (H (S k)).
Qed.

Section WithText.

Variable text : list N.

(** A greedy run of characters in [p] from [i]: it ends at the first
    character that is not in [p]. *)
Lemma repeat_run (p : N -> bool) fuel i :
  length text - i < fuel -> i <= length text ->
  exists e, repeat_matcher (char_matcher text p) Some fuel i = Some e /\
    i <= e <= length text /\
    (forall j, i <= j < e -> exists c, text !! j = Some c /\ p c = true) /\
    (forall c, text !! e = Some c -> p c = false).
Proof.
  revert i. induction fuel as [| fuel IH]; intros i Hf Hi; [lia |].
  cbn [repeat_matcher]. unfold char_matcher at 1.
  destruct (text !! i) as [c |] eqn:Hc.
  - destruct (p c) eqn:Hd.
    + apply lookup_lt_Some in Hc as Hlt.
      replace (Nat.eqb (S i) i) with false by (symmetry; apply Nat.eqb_neq; lia).
      destruct (IH (S i)) as (e & -> & He & Hrun & Hend); [lia.. |].
      exists e. split; [done |]. split; [lia |]. split; [| done].
      intros j Hj. destruct (decide (j = i)) as [-> | Hne]; [by exists c |].
      apply Hrun. lia.
    + exists i. split; [done |]. split; [lia |]. split; [intros; lia |].
      intros c'. rewrite Hc. by intros [= <-].
  - exists i. split; [done |]. split; [lia |]. split; [intros; lia |].
    intros c'. by rewrite Hc.
Qed.

Lemma group1_eq j :
  rmatch text group1 j Some
  = char_matcher text (fun d => xorb (isDigit d) false) j
      (repeat_matcher (char_matcher text (fun d => xorb (isDigit d) false)) Some
         (S (length text))).
Proof. reflexivity. Qed.

(** The pattern at one position. *)
Lemma version_at i :
  i <= length text ->
  match rmatch text ast i Some with
  | Some e =>
      occurs_at prefix text i /\ i + 14 < e <= length text /\
      (forall j, i + 14 <= j < e -> exists c, text !! j = Some c /\ isDigit c = true) /\
      (forall c, text !! e = Some c -> isDigit c = false)
  | None => forall d, isDigit d = true -> ~ occurs_at (prefix ++ [d]) text i
  end.
Proof.
  intros Hi. rewrite rmatch_chars by done.
  change (length prefix) with 14.
  destruct (decide (occurs_at prefix text i)) as [Ho | Ho].
  - rewrite group1_eq. unfold char_matcher at 1.
    destruct (text !! (i + 14)) as [c |] eqn:Hc.
    + rewrite xorb_false_r. destruct (isDigit c) eqn:Hd.
      * apply lookup_lt_Some in Hc as Hlt.
        destruct (repeat_run (fun d => xorb (isDigit d) false)
                    (S (length text)) (S (i + 14)))
          as (e & -> & He & Hrun & Hend); [lia.. |].
        split; [done |]. split; [lia |]. split.
        -- intros j Hj.
           destruct (decide (j = i + 14)) as [-> | Hne]; [by exists c |].
           destruct (Hrun j) as (c' & Hc' & Hd'); [lia |].
           exists c'. by rewrite xorb_false_r in Hd'.
        -- intros c' Hc'. specialize (Hend c' Hc').
           by rewrite xorb_false_r in Hend.
      * intros d Hdig [_ Hd']%occurs_at_app.
        change (length prefix) with 14 in Hd'.
        apply occurs_at_cons in Hd' as [Hd' _]. congruence.
    + intros d Hdig [_ Hd']%occurs_at_app.
      change (length prefix) with 14 in Hd'.
      apply occurs_at_cons in Hd' as [Hd' _]. congruence.
  - intros d Hdig [Hp _]%occurs_at_app. done.
Qed.

Lemma search_version cnt i :
  i + cnt <= S (length text) ->
  match search text ast cnt i with
  | Some (p, e) =>
      i <= p /\
      occurs_at prefix text p /\ p + 14 < e <= length text /\
      (forall j, p + 14 <= j < e -> exists c, text !! j = Some c /\ isDigit c = true) /\
      (forall c, text !! e = Some c -> isDigit c = false) /\
      (forall j d, i <= j < p -> isDigit d = true ->
         ~ occurs_at (prefix ++ [d]) text j)
  | None =>
      forall j d, i <= j < i + cnt -> isDigit d = true ->
        ~ occurs_at (prefix ++ [d]) text j
  end.
Proof.
  revert i. induction cnt as [| cnt IH]; intros i Hb; [cbn [search]; intros; lia |].
  cbn [search]. pose proof (version_at i) as Hat.
  destruct (rmatch text ast i Some) as [e |].
  - destruct Hat as (H1 & H2 & H3 & H4); [lia |].
    refine (conj _ (conj H1 (conj H2 (conj H3 (conj H4 _))))); [lia | intros; lia].
  - specialize (IH (S i)). destruct (search text ast cnt (S i)) as [[p e] |].
    + destruct IH as (H0 & H1 & H2 & H3 & H4 & H5); [lia |].
      refine (conj _ (conj H1 (conj H2 (conj H3 (conj H4 _))))); [lia |].
      intros j d Hj Hd. destruct (decide (j = i)) as [-> | Hne].
      * apply Hat; [lia | done].
      * apply H5; [lia | done].
    + intros j d Hj Hd. destruct (decide (j = i)) as [-> | Hne].
      * apply Hat; [lia | done].
      * apply IH; [lia.. | done].
Qed.

End WithText.

(** X14.  The version taken from a URL is the longest run of decimal
    digits that follows the first [release-notes/] with a digit after it,
    and [unknown] when the URL has no such place. *)
Theorem version_of_url url :
  exists v, versionNumber url = Ok v /\
    ((v = js "unknown" /\
      forall i d, isDigit d = true -> ~ occurs_at (js "release-notes/" ++ [d]) url i) \/
     (v <> [] /\ digits v = true /\
      exists i, occurs_at (js "release-notes/" ++ v) url i /\
        (forall d, url !! (i + 14 + length v) = Some d -> isDigit d = false) /\
        (forall j d, j < i -> isDigit d = true ->
           ~ occurs_at (js "release-notes/" ++ [d]) url j))).
Proof.
  unfold versionNumber, Activation.versionMatch. rewrite versionPattern_ast.
  cbn [mbind result_bind re_ast].
  pose proof (search_version url (S (length url)) 0) as Hs.
  destruct (search url ast (S (length url)) 0) as [[p e] |].
  - destruct Hs as (_ & Hp & He & Hrun & Hend & Hfirst); [lia |].
    eexists. split; [reflexivity |]. right.
    set (v := take (e - (p + 14)) (drop (p + 14) url)).
    assert (length v = e - (p + 14)) as Hlen.
    { unfold v. rewrite length_take, length_drop. lia. }
    split; [| split].
    + intros Hv. rewrite Hv in Hlen. cbn in Hlen. lia.
    + apply forallb_lookup. intros k c Hk. unfold v in Hk.
      apply lookup_take_Some in Hk as [Hk Hlt]. rewrite lookup_drop in Hk.
      destruct (Hrun (p + 14 + k)) as (c' & Hc' & Hd); [lia |]. congruence.
    + exists p. split; [| split].
      * apply occurs_at_app. split; [done |].
        change (length prefix) with 14. split; [lia |].
        by rewrite Hlen.
      * intros d. rewrite Hlen. replace (p + 14 + (e - (p + 14))) with e by lia.
        apply Hend.
      * intros j d Hj. apply Hfirst. lia.
  - eexists. split; [reflexivity |]. left. split; [done |].
    intros i d Hd Ho. destruct (decide (i <= length url)) as [Hi | Hi].
    + apply (Hs ltac:(lia) i d); [lia | done | done].
    + apply occurs_at_bound in Ho. lia.
Qed.

Example version_in_the_source : versionNumber releaseNotesURL = Ok (js "132").
Proof. vm_compute. reflexivity. Qed.

End VersionFacts.

(** ** Activation and the listeners *)

Module ActivationFacts.
Import ResultFacts Re MatchFacts EngineFacts ScanFacts.
Import Json Acquirer AcquirerFacts Activation.

Lemma scan_returns text deps :
  Forall (fun dep => apiName dep <> []) deps ->
  exists found, scan (fuel_for text) text deps = Ok found.
Proof.
  intros Hne.
  assert (exists oss, all_offsets (fuel_for text) text deps = Ok oss) as [oss Hoss].
  { induction Hne as [| dep deps Hdep _ [oss IH]]; [by exists [] |].
    destruct (offsets_terminates text (apiName dep) (fuel_for text) 0 Hdep)
      as [os Hos]; [unfold fuel_for; lia |].
    exists (os :: oss). cbn [all_offsets].
    rewrite matches_for_literal, Hos. cbn [mbind result_bind]. by rewrite IH. }
  eexists. rewrite scan_offsets, Hoss. reflexivity.
Qed.

Lemma recordOf_record_value dep : recordOf (record_value dep) = Ok dep.
Proof. by destruct dep. Qed.

Lemma for_values_records fuel text vs deps acc :
  reads_as vs deps ->
  for_values fuel text vs acc = for_deps fuel text deps acc.
Proof.
  intros H. revert acc. induction H as [| v dep vs deps Hv _ IH]; intros acc; [done |].
  cbn [for_values for_deps]. rewrite Hv. cbn [mbind result_bind].
  destruct (RegExp_new _) as [regex | | |]; [| done..]. cbn [mbind result_bind].
  destruct (while_exec _ _ _ _ _) as [acc' | | |]; [| done..]. cbn [mbind result_bind].
  apply IH.
Qed.

Lemma check_js_typed fuel doc vs deps host :
  reads_as vs deps ->
  checkForDeprecations_js fuel doc (JArr vs) host
  = checkForDeprecations fuel doc deps host.
Proof.
  intros H. unfold checkForDeprecations_js, checkForDeprecations, scan.
  cbn [iterated mbind result_bind]. by rewrite (for_values_records _ _ _ deps).
Qed.

Lemma catalog_reads_as deps : reads_as (map record_value deps) deps.
Proof.
  induction deps as [| dep deps IH]; constructor; [apply recordOf_record_value | done].
Qed.

Lemma latest_cons u doc docs :
  latest u (doc :: docs) =
  match latest u docs with
  | Some d => Some d
  | None => if decide (uri doc = u) then Some doc else None
  end.
Proof.
  unfold latest. rewrite filter_cons.
  destruct (decide (uri doc = u)) as [Hu | Hu]; [| by destruct (last _)].
  destruct (filter _ docs) as [| d ds] eqn:Hf; [done |].
  rewrite last_cons. by destruct (last (d :: ds)) eqn:Hl.
Qed.

(** The collection after a round of checks: for each URI the diagnostics
    of the last document that has it. *)
Lemma forEach_check_collection vs deps docs host :
  reads_as vs deps ->
  Forall (fun dep => apiName dep <> []) deps ->
  exists host',
    forEach_check docs (JArr vs) host = Ok host' /\
    forall u,
      match latest u docs with
      | Some doc =>
          exists found,
            scan (fuel_for (getText doc)) (getText doc) deps = Ok found /\
            collection host' !! u = Some (diagnostics found)
      | None => collection host' !! u = collection host !! u
      end.
Proof.
  intros Hvs Hne. revert host. induction docs as [| doc docs IH]; intros host.
  - exists host. split; [done |]. intros u. done.
  - cbn [forEach_check]. unfold check. rewrite (check_js_typed _ _ vs deps) by done.
    unfold checkForDeprecations.
    destruct (scan_returns (getText doc) deps Hne) as [found Hfound].
    rewrite Hfound. cbn [mbind result_bind].
    destruct (IH (MkHost (<[uri doc := diagnostics found]> (collection host))
                    (setDecorations (uri doc) (decorationOptions found)
                       (visibleTextEditors host)))) as (host' & -> & Hcol).
    exists host'. split; [done |]. intros u. rewrite latest_cons.
    specialize (Hcol u). destruct (latest u docs) as [d |]; [done |].
    cbn [collection] in Hcol. rewrite Hcol.
    destruct (decide (uri doc = u)) as [<- | Hu].
    + exists found. split; [done |]. apply lookup_insert_eq.
    + by rewrite lookup_insert_ne.
Qed.

Lemma deliver_forEach x evs :
  deliver x evs =
  host' ← forEach_check (map document_of evs) (deprecations x) (host x);
  Ok (MkExtension (deprecations x) host').
Proof.
  revert x. induction evs as [| ev evs IH]; intros x; [by destruct x |].
  cbn [deliver map forEach_check]. unfold listener.
  destruct (check _ _ _) as [host' | | |]; [| done..]. cbn [mbind result_bind].
  by rewrite IH.
Qed.

Lemma activate_unfold env globalStoragePath textDocuments editors w :
  activate env globalStoragePath textDocuments editors w =
  match getOrCreateReleaseNotes env (js "132") releaseNotesURL globalStoragePath w with
  | (Ok deprecations, w') =>
      (host ← forEach_check textDocuments deprecations (MkHost ∅ editors);
       Ok (MkExtension deprecations host), w')
  | (Throw e, w') => (Throw e, w')
  | (Beyond, w') => (Beyond, w')
  | (OutOfFuel, w') => (OutOfFuel, w')
  end.
Proof.
  unfold activate. rewrite VersionFacts.version_in_the_source. unfold lift.
  unfold mbind at 1. unfold M_bind at 1. cbv beta iota.
  unfold mbind at 1. unfold M_bind at 1.
  destruct (getOrCreateReleaseNotes _ _ _ _ _) as [[deprecations | e | |] w'];
    [| done..].
  cbv zeta. unfold mbind at 1. unfold M_bind at 1.
  destruct (forEach_check _ _ _) as [host | | |]; done.
Qed.

(** X15.  When the acquirer returns an array whose elements read as
    records with non-empty names, activation returns, keeps that array for
    the listeners, makes no call and no write of its own, and leaves in the
    collection, for each URI, the diagnostics of the scan of the last open
    document that has it, and nothing for any other URI. *)
Theorem activation_checks_open_documents env globalStoragePath textDocuments
    editors w vs deps :
  fst (getOrCreateReleaseNotes env (js "132") releaseNotesURL globalStoragePath w)
  = Ok (JArr vs) ->
  reads_as vs deps ->
  Forall (fun dep => apiName dep <> []) deps ->
  exists x,
    activate env globalStoragePath textDocuments editors w
    = (Ok x, snd (getOrCreateReleaseNotes env (js "132") releaseNotesURL
                    globalStoragePath w)) /\
    deprecations x = JArr vs /\
    forall u,
      match latest u textDocuments with
      | Some doc =>
          exists found,
            scan (fuel_for (getText doc)) (getText doc) deps = Ok found /\
            collection (host x) !! u = Some (diagnostics found)
      | None => collection (host x) !! u = None
      end.
Proof.
  intros Hget Hvs Hne. rewrite activate_unfold.
  destruct (getOrCreateReleaseNotes _ _ _ _ _) as [r w'].
  cbn [fst snd] in *. subst r.
  destruct (forEach_check_collection vs deps textDocuments (MkHost ∅ editors)
              Hvs Hne) as (host' & -> & Hcol).
  eexists. split; [reflexivity |]. split; [done |].
  intros u. specialize (Hcol u). cbn [host]. 
  destruct (latest u textDocuments); [done |].
  rewrite Hcol. cbn [collection]. apply lookup_empty.
Qed.

Lemma activation_checks_open_documents_witness :
  exists x,
    activate (answering (fenced [MkAPI (js "a.b") (js "Removed") (js "gone")]))
      (js "/store") [MkDoc (js "file:///a.js") (js "x a.b y")] [] emptyWorld
    = (Ok x,
       snd (getOrCreateReleaseNotes
              (answering (fenced [MkAPI (js "a.b") (js "Removed") (js "gone")]))
              (js "132") releaseNotesURL (js "/store") emptyWorld)) /\
    deprecations x = catalog_value [MkAPI (js "a.b") (js "Removed") (js "gone")] /\
    forall u,
      match latest u [MkDoc (js "file:///a.js") (js "x a.b y")] with
      | Some doc =>
          exists found,
            scan (fuel_for (getText doc)) (getText doc)
              [MkAPI (js "a.b") (js "Removed") (js "gone")] = Ok found /\
            collection (host x) !! u = Some (diagnostics found)
      | None => collection (host x) !! u = None
      end.
Proof.
  apply (activation_checks_open_documents
           (answering (fenced [MkAPI (js "a.b") (js "Removed") (js "gone")]))
           (js "/store") [MkDoc (js "file:///a.js") (js "x a.b y")] [] emptyWorld
           (map record_value [MkAPI (js "a.b") (js "Removed") (js "gone")])
           [MkAPI (js "a.b") (js "Removed") (js "gone")]).
  - vm_compute. reflexivity.
  - apply catalog_reads_as.
  - constructor; [vm_compute; discriminate | constructor].
Defined.

(** X16.  With an array whose elements read as records with non-empty
    names every listener returns, and after any sequence of open and change
    events the collection holds, for each URI an event named, the
    diagnostics of the scan of the text the last such event carried; the
    entries of other URIs and the catalog are as before. *)
Theorem diagnostics_follow_the_text x evs vs deps :
  deprecations x = JArr vs ->
  reads_as vs deps ->
  Forall (fun dep => apiName dep <> []) deps ->
  exists x',
    deliver x evs = Ok x' /\
    deprecations x' = deprecations x /\
    forall u,
      match latest u (map document_of evs) with
      | Some doc =>
          exists found,
            scan (fuel_for (getText doc)) (getText doc) deps = Ok found /\
            collection (host x') !! u = Some (diagnostics found)
      | None => collection (host x') !! u = collection (host x) !! u
      end.
Proof.
  intros Hcat Hvs Hne. rewrite deliver_forEach, Hcat.
  destruct (forEach_check_collection vs deps (map document_of evs) (host x)
              Hvs Hne) as (host' & -> & Hcol).
  eexists. split; [reflexivity |]. split; [done |]. exact Hcol.
Qed.

Lemma diagnostics_follow_the_text_witness :
  exists x',
    deliver (MkExtension (catalog_value [MkAPI (js "a.b") (js "Removed") (js "gone")])
               (MkHost ∅ []))
      [DidOpen (MkDoc (js "file:///a.js") (js "x a.b y"));
       DidChange (MkDoc (js "file:///a.js") (js "x y"))]
    = Ok x' /\
    deprecations x' = catalog_value [MkAPI (js "a.b") (js "Removed") (js "gone")] /\
    forall u,
      match latest u (map document_of
                        [DidOpen (MkDoc (js "file:///a.js") (js "x a.b y"));
                         DidChange (MkDoc (js "file:///a.js") (js "x y"))]) with
      | Some doc =>
          exists found,
            scan (fuel_for (getText doc)) (getText doc)
              [MkAPI (js "a.b") (js "Removed") (js "gone")] = Ok found /\
            collection (host x') !! u = Some (diagnostics found)
      | None => collection (host x') !! u = (∅ : gmap (list N) (list Diagnostic)) !! u
      end.
Proof.
  apply (diagnostics_follow_the_text
           (MkExtension (catalog_value [MkAPI (js "a.b") (js "Removed") (js "gone")])
              (MkHost ∅ []))
           [DidOpen (MkDoc (js "file:///a.js") (js "x a.b y"));
            DidChange (MkDoc (js "file:///a.js") (js "x y"))]
           (map record_value [MkAPI (js "a.b") (js "Removed") (js "gone")])
           [MkAPI (js "a.b") (js "Removed") (js "gone")]).
  - reflexivity.
  - apply catalog_reads_as.
  - constructor; [vm_compute; discriminate | constructor].
Defined.






End ActivationFacts.

(** ** The check without decorations *)

Module PlainFacts.
Import ResultFacts.

Lemma plain_while_exec fuel text dep regex ds os :
  Plain.while_exec fuel text dep regex ds
  = diagnostics <$> while_exec fuel text dep regex (MkFound ds os).
Proof.
  revert regex ds os. induction fuel as [| fuel IH]; intros regex ds os; [done |].
  cbn [Plain.while_exec while_exec].
  destruct (Re.exec text regex) as [[startIndex |] regex']; [| done].
  unfold report. cbn [diagnostics decorationOptions]. apply IH.
Qed.

Lemma plain_for_deps fuel text deps ds os :
  Plain.for_deps fuel text deps ds
  = diagnostics <$> for_deps fuel text deps (MkFound ds os).
Proof.
  revert ds os. induction deps as [| dep deps IH]; intros ds os; [done |].
  cbn [Plain.for_deps for_deps].
  destruct (Re.RegExp_new _) as [regex | | |]; [| done..]. cbn [mbind result_bind].
  rewrite (plain_while_exec _ _ _ _ _ os).
  destruct (while_exec _ _ _ _ _) as [[ds' os'] | | |]; [| done..].
  cbn [fmap result_fmap mbind result_bind diagnostics]. apply IH.
Qed.

(** X18.  The version of the check without decorations ends as the
    current one does, stores the same diagnostics for the document, and
    leaves the editors as they were. *)
Theorem plain_check_same_diagnostics fuel doc deps host :
  Plain.checkForDeprecations fuel doc deps host
  = (host' ← checkForDeprecations fuel doc deps host;
     Ok (MkHost (collection host') (visibleTextEditors host))).
Proof.
  unfold Plain.checkForDeprecations, checkForDeprecations, scan.
  rewrite (plain_for_deps _ _ _ [] []).
  by destruct (for_deps _ _ _ _) as [[ds os] | | |].
Qed.

End PlainFacts.
